(** * sign_virt_apex: a shallow embedding of build/apex/sign_virt_apex.py

    The development follows the Python source function by function.
    Python exceptions are an explicit [result] type, dictionaries are
    insertion-ordered association lists (the order in which [items()]
    enumerates them matters to the digest patch), [bytes] are lists of
    [Byte.byte], text is [string] whose characters are read as code points
    below 256, and the outcome of every external program is an input of the
    model. *)

From Stdlib Require Import List String Ascii Strings.Byte ZArith Bool Arith Lia Permutation.
From Stdlib Require Import Sorting.Sorted Structures.OrderedTypeEx Wf_nat.
From Stdlib Require Decimal DecimalString DecimalFacts DecimalPos DecimalN.
Import ListNotations.
Local Open Scope string_scope.
Local Open Scope list_scope.

(** ** Exceptions and fallible computations *)

Inductive exn : Type :=
| AssertionError (msg : string)
| KeyError (key : string)
| ValueError (msg : string)
| TypeError (msg : string)
| AttributeError (msg : string)
| IndexError (msg : string)
| StopIteration
| RecursionError
| BinasciiError (msg : string)
| FileNotFoundError (path : string)
| Exception (msg : string).

Inductive result (A : Type) : Type :=
| Ok (a : A)
| Raise (e : exn).
Arguments Ok {A} a.
Arguments Raise {A} e.

Definition bind {A B : Type} (r : result A) (k : A -> result B) : result B :=
  match r with
  | Ok a => k a
  | Raise e => Raise e
  end.

Notation "x <- r ;; k" := (bind r (fun x => k))
  (at level 61, r at next level, right associativity).
Notation "' p <- r ;; k" := (bind r (fun p => k))
  (at level 61, p pattern, r at next level, right associativity).

(** [assert cond, msg] *)
Definition assert (cond : bool) (msg : string) : result unit :=
  if cond then Ok tt else Raise (AssertionError msg).

(** ** Python dictionaries

    A [dict] keeps its items in insertion order; assigning to an existing
    key keeps the key's position and replaces the value. *)

Module Dict.

Definition dict (V : Type) : Type := list (string * V).

Section Ops.
Context {V : Type}.

Definition empty : dict V := [].

(** [d.get(k)] as an option; [d[k]] is [getitem]. *)
Fixpoint get (k : string) (d : dict V) : option V :=
  match d with
  | [] => None
  | (k', v) :: r => if (k' =? k)%string then Some v else get k r
  end.

Definition getitem (k : string) (d : dict V) : result V :=
  match get k d with
  | Some v => Ok v
  | None => Raise (KeyError k)
  end.

Definition mem (k : string) (d : dict V) : bool :=
  match get k d with Some _ => true | None => false end.

(** [d[k] = v] *)
Fixpoint set (k : string) (v : V) (d : dict V) : dict V :=
  match d with
  | [] => [(k, v)]
  | (k', v') :: r =>
      if (k' =? k)%string then (k', v) :: r else (k', v') :: set k v r
  end.

Definition remove (k : string) (d : dict V) : dict V :=
  filter (fun kv => negb (fst kv =? k)%string) d.

(** [d.pop(k)]: the value and the dictionary without the key. *)
Definition pop (k : string) (d : dict V) : result (V * dict V) :=
  match get k d with
  | Some v => Ok (v, remove k d)
  | None => Raise (KeyError k)
  end.

Definition keys (d : dict V) : list string := map fst d.
Definition values (d : dict V) : list V := map snd d.

(** [d.update(other)] *)
Definition update (d other : dict V) : dict V :=
  fold_left (fun acc kv => set (fst kv) (snd kv) acc) other d.

(** [d1 == d2]: the same keys with equal values, whatever the order. *)
Definition incl_b (veqb : V -> V -> bool) (d1 d2 : dict V) : bool :=
  forallb (fun kv => match get (fst kv) d2 with
                     | Some v' => match get (fst kv) d1 with
                                  | Some v => veqb v v'
                                  | None => false
                                  end
                     | None => false
                     end) d1.

Definition eqb (veqb : V -> V -> bool) (d1 d2 : dict V) : bool :=
  incl_b veqb d1 d2 && incl_b veqb d2 d1.

(** Keys are pairwise distinct: true of every Python dictionary. *)
Definition wf (d : dict V) : Prop := NoDup (keys d).

End Ops.

End Dict.


(** ** Bytes *)

Definition bytes : Type := list byte.

Fixpoint bytes_eqb (a b : bytes) : bool :=
  match a, b with
  | [], [] => true
  | x :: a', y :: b' => Byte.eqb x y && bytes_eqb a' b'
  | _, _ => false
  end.

Fixpoint starts_with (p s : bytes) : bool :=
  match p, s with
  | [], _ => true
  | x :: p', y :: s' => Byte.eqb x y && starts_with p' s'
  | _ :: _, [] => false
  end.

(** [content.replace(old, new)] for a non-empty [old]: a left-to-right scan
    in which every match is replaced and the scan resumes after the match;
    [skip] counts the bytes of the current match still to be dropped. *)
Fixpoint replace_from (skip : nat) (old new s : bytes) : bytes :=
  match s with
  | [] => []
  | b :: s' =>
      match skip with
      | S k => replace_from k old new s'
      | O =>
          if starts_with old s
          then new ++ replace_from (List.length old - 1) old new s'
          else b :: replace_from 0 old new s'
      end
  end.

(** [bytes.replace(old, new)]; an empty [old] matches before every byte and
    at the end. *)
Definition bytes_replace (old new s : bytes) : bytes :=
  match old with
  | [] => new ++ flat_map (fun b => b :: new) s
  | _ :: _ => replace_from 0 old new s
  end.

(** [old in s] *)
Fixpoint contains (old s : bytes) : bool :=
  starts_with old s ||
  match s with
  | [] => false
  | _ :: s' => contains old s'
  end.

(** [binascii.unhexlify] *)
Definition hex_val (c : ascii) : option N :=
  let n := N_of_ascii c in
  if ((48 <=? n) && (n <=? 57))%N then Some (n - 48)%N
  else if ((97 <=? n) && (n <=? 102))%N then Some (n - 87)%N
  else if ((65 <=? n) && (n <=? 70))%N then Some (n - 55)%N
  else None.

Fixpoint unhexlify_pairs (s : string) : result bytes :=
  match s with
  | String h (String l r) =>
      match hex_val h, hex_val l with
      | Some a, Some b =>
          rest <- unhexlify_pairs r ;;
          Ok (byte_of_ascii (ascii_of_N (16 * a + b)) :: rest)
      | _, _ => Raise (BinasciiError "Non-hexadecimal digit found")
      end
  | _ => Ok []
  end.

Definition unhexlify (s : string) : result bytes :=
  if Nat.odd (String.length s)
  then Raise (BinasciiError "Odd-length string")
  else unhexlify_pairs s.

(** ** Metadata as [AvbInfo] returns it

    A descriptor is a pair of its name and either the text after the colon
    (for the name [Prop]) or a dictionary of fields. *)

Inductive dvalue : Type :=
| DStr (s : string)
| DDict (d : Dict.dict string).

Definition descriptor : Type := (string * dvalue)%type.
Definition info : Type := Dict.dict string.

(** The pair returned by [AvbInfo]: [None] stands for [(None, None)]. *)
Definition avbinfo : Type := option (info * list descriptor).

Definition info_of (a : avbinfo) : option info := option_map fst a.
Definition descriptors_of (a : avbinfo) : option (list descriptor) :=
  option_map snd a.

Record args : Type := mk_args {
  avbtool : string;
  verbose : bool;
  do_not_update_bootconfigs : bool;
  do_not_validate_avb_version : bool
}.

(** [find_all_values_by_key] *)
Definition find_all_values_by_key {V : Type} (pairs : list (string * V))
    (key : string) : list V :=
  map snd (filter (fun kv => (fst kv =? key)%string) pairs).

(** Iterating over [None] raises. *)
Definition iter_descriptors (d : option (list descriptor)) :
    result (list descriptor) :=
  match d with
  | Some l => Ok l
  | None => Raise (TypeError "'NoneType' object is not iterable")
  end.

(** [desc[key]] for a descriptor value. *)
Definition desc_getitem (key : string) (v : dvalue) : result string :=
  match v with
  | DDict d => Dict.getitem key d
  | DStr _ => Raise (TypeError "string indices must be integers")
  end.

(** The dictionary comprehension of [extract_hash_descriptors]: per
    descriptor the key is evaluated first, then [f]. *)
Fixpoint hash_comprehension {A : Type} (f : dvalue -> result A)
    (descs : list dvalue) (acc : Dict.dict A) : result (Dict.dict A) :=
  match descs with
  | [] => Ok acc
  | desc :: rest =>
      name <- desc_getitem "Partition Name" desc ;;
      v <- f desc ;;
      hash_comprehension f rest (Dict.set name v acc)
  end.

Definition extract_hash_descriptors {A : Type}
    (descriptors : option (list descriptor)) (f : dvalue -> result A) :
    result (Dict.dict A) :=
  l <- iter_descriptors descriptors ;;
  hash_comprehension f (find_all_values_by_key l "Hash descriptor") Dict.empty.

(** ** The digest patch of rialto *)

(** [lambda x: binascii.unhexlify(x['Digest'])] *)
Definition digest_of (x : dvalue) : result bytes :=
  hex <- desc_getitem "Digest" x ;;
  unhexlify hex.

Definition str_in (x : string) (l : list string) : bool :=
  existsb (String.eqb x) l.

(** [set(a) == set(b)] *)
Definition set_eqb (a b : list string) : bool :=
  forallb (fun x => str_in x b) a && forallb (fun x => str_in x a) b.

(** [set(a).isdisjoint(b)] *)
Definition isdisjoint (a b : list bytes) : bool :=
  forallb (fun y => negb (existsb (bytes_eqb y) a)) b.

Definition partition_names : list string := ["initrd_normal"; "initrd_debug"].

(** The [for] loop over [original_digests.items()]. *)
Fixpoint patch_partitions (items : list (string * bytes))
    (updated_digests : Dict.dict bytes) (content : bytes) : result bytes :=
  match items with
  | [] => Ok content
  | (partition_name, original_digest) :: rest =>
      updated_digest <- Dict.getitem partition_name updated_digests ;;
      _ <- assert (Nat.eqb (List.length original_digest)
                           (List.length updated_digest))
             "Length of original_digest and updated_digest must be the same" ;;
      let new_content := bytes_replace original_digest updated_digest content in
      _ <- assert (Nat.eqb (List.length new_content) (List.length content))
             "Length of new_content and content must be the same." ;;
      _ <- assert (negb (bytes_eqb new_content content))
             "original digest of the partition not found." ;;
      patch_partitions rest updated_digests new_content
  end.

Section Rialto.
(** [AvbInfo(args, path)] as observed during the patch. *)
Variable AvbInfo_at : string -> result avbinfo.

Definition update_initrd_digests_in_rialto
    (original_descriptors : option (list descriptor))
    (files : Dict.dict string) (kernel_name : string) (content : bytes) :
    result bytes :=
  path <- Dict.getitem kernel_name files ;;
  updated <- AvbInfo_at path ;;
  let updated_descriptors := descriptors_of updated in
  original_digests <- extract_hash_descriptors original_descriptors digest_of ;;
  updated_digests <- extract_hash_descriptors updated_descriptors digest_of ;;
  '(original_boot, original_digests) <- Dict.pop "boot" original_digests ;;
  '(updated_boot, updated_digests) <- Dict.pop "boot" updated_digests ;;
  _ <- assert (bytes_eqb original_boot updated_boot)
         "Hash descriptor of boot should not change" ;;
  _ <- assert (set_eqb (Dict.keys original_digests) (Dict.keys updated_digests)
               && set_eqb (Dict.keys updated_digests) partition_names)
         "Original digests' partitions should be initrd_normal, initrd_debug" ;;
  _ <- assert (isdisjoint (Dict.values original_digests)
                          (Dict.values updated_digests))
         "Digests of initrd_normal and initrd_debug should change." ;;
  patch_partitions original_digests updated_digests content.

(** The [for] loop over [original_kernels.items()]. *)
Fixpoint patch_kernels (kernels : list (string * option (list descriptor)))
    (files : Dict.dict string) (content : bytes) : result bytes :=
  match kernels with
  | [] => Ok content
  | (kernel_name, descriptors) :: rest =>
      content' <- update_initrd_digests_in_rialto descriptors files
                    kernel_name content ;;
      patch_kernels rest files content'
  end.

(** The file system: path to content. *)
Definition filesystem : Type := Dict.dict bytes.

Definition read_file (fs : filesystem) (path : string) : result bytes :=
  match Dict.get path fs with
  | Some c => Ok c
  | None => Raise (FileNotFoundError path)
  end.

(** [update_initrd_digests_of_kernels_in_rialto]: the outcome and the file
    system it leaves. *)
Definition update_initrd_digests_of_kernels_in_rialto
    (original_kernels : Dict.dict (option (list descriptor))) (a : args)
    (files : Dict.dict string) (fs : filesystem) : result unit * filesystem :=
  if do_not_update_bootconfigs a then (Ok tt, fs)
  else
    match (rialto <- Dict.getitem "rialto" files ;;
           content <- read_file fs rialto ;;
           content' <- patch_kernels original_kernels files content ;;
           Ok (rialto, content'))
    with
    | Ok (rialto, content') => (Ok tt, Dict.set rialto content' fs)
    | Raise e => (Raise e, fs)
    end.

End Rialto.

(** ** The task graph: [Async] and [AwaitAll] *)

(** How a future ends: [result()] returns, or raises the exception object
    that the function of the task [origin] raised. *)
Inductive outcome : Type :=
| Returned
| Raised (origin : nat) (e : exn).

(** A future of [executor.submit(wrapped)].  Its [wrapped] is in
    [AwaitAll(wait)], about to ask the future at position [k] of [wait] for
    its result, or about to call [fn] when [k] is the length of [wait]; or
    it is done. *)
Inductive status : Type :=
| Waiting (k : nat)
| Done (o : outcome).

(** A future is named by its position in [tasks]. *)
Record future : Type := mk_future {
  wait : list nat;
  state : status
}.

(** The list [tasks] and the calls of task functions made so far. *)
Record pool : Type := mk_pool {
  tasks : list future;
  called : list nat
}.

Definition status_of (p : pool) (i : nat) : option status :=
  option_map state (nth_error (tasks p) i).

Fixpoint set_state (i : nat) (st : status) (l : list future) {struct l} :
    list future :=
  match l, i with
  | [], _ => []
  | f :: r, O => mk_future (wait f) st :: r
  | f :: r, S n => f :: set_state n st r
  end.

(** [AwaitAll(fs)] when no future of [fs] makes it wait: what it does, and
    [None] when it has to wait. *)
Fixpoint AwaitAll (p : pool) (fs : list nat) : option outcome :=
  match fs with
  | [] => Some Returned
  | f :: rest =>
      match status_of p f with
      | Some (Done Returned) => AwaitAll p rest
      | Some (Done (Raised o e)) => Some (Raised o e)
      | _ => None
      end
  end.

(** What the function of task [i] may do when called: return, raise an
    exception of its own, or let through the exception of a failed future
    whose result it asked for. *)
Definition body_outcome (p : pool) (i : nat) (r : outcome) : Prop :=
  r = Returned \/ (exists e, r = Raised i e) \/
  exists j o e, status_of p j = Some (Done (Raised o e)) /\ r = Raised o e.

(** One step of one thread; the executor is taken without its bound on the
    number of threads.  [Async] appends a future whose dependencies
    are futures that exist; [f.result()] in [AwaitAll] returns, or raises
    what [f] raised, which ends [wrapped]; [fn] is called after [AwaitAll]
    has returned, and what it does ends [wrapped]. *)
Inductive step : pool -> pool -> Prop :=
| step_Async (p : pool) (w : list nat) :
    Forall (fun j => j < List.length (tasks p)) w ->
    step p (mk_pool (tasks p ++ [mk_future w (Waiting 0)]) (called p))
| step_result_returns (p : pool) (i : nat) (f : future) (k j : nat) :
    nth_error (tasks p) i = Some f ->
    state f = Waiting k ->
    nth_error (wait f) k = Some j ->
    status_of p j = Some (Done Returned) ->
    step p (mk_pool (set_state i (Waiting (S k)) (tasks p)) (called p))
| step_result_raises (p : pool) (i : nat) (f : future) (k j o : nat) (e : exn) :
    nth_error (tasks p) i = Some f ->
    state f = Waiting k ->
    nth_error (wait f) k = Some j ->
    status_of p j = Some (Done (Raised o e)) ->
    step p (mk_pool (set_state i (Done (Raised o e)) (tasks p)) (called p))
| step_call (p : pool) (i : nat) (f : future) (r : outcome) :
    nth_error (tasks p) i = Some f ->
    state f = Waiting (List.length (wait f)) ->
    body_outcome p i r ->
    step p (mk_pool (set_state i (Done r) (tasks p)) (i :: called p)).

Inductive steps : pool -> pool -> Prop :=
| steps_refl (p : pool) : steps p p
| steps_next (p q r : pool) : steps p q -> step q r -> steps p r.

Definition start : pool := mk_pool [] [].

Definition reachable (p : pool) : Prop := steps start p.

Definition all_done (p : pool) : Prop :=
  forall i, i < List.length (tasks p) -> exists r, status_of p i = Some (Done r).

(** The first [k] dependencies of [f] have returned. *)
Definition deps_returned (p : pool) (f : future) (k : nat) : Prop :=
  forall k' j, k' < k -> nth_error (wait f) k' = Some j ->
               status_of p j = Some (Done Returned).

(** The invariant of the task graph. *)
Definition task_inv (p : pool) (i : nat) (f : future) : Prop :=
  Forall (fun j => j < i) (wait f) /\
  match state f with
  | Waiting k =>
      k <= List.length (wait f) /\ deps_returned p f k /\ ~ In i (called p)
  | Done Returned =>
      In i (called p) /\ deps_returned p f (List.length (wait f))
  | Done (Raised o e) =>
      (In i (called p) /\ deps_returned p f (List.length (wait f)))
      \/
      (~ In i (called p) /\
       exists k j, nth_error (wait f) k = Some j /\ deps_returned p f k /\
                   status_of p j = Some (Done (Raised o e)))
  end.

(** An exception object is held by the future of its origin, whose
    function was called. *)
Definition origin_inv (p : pool) : Prop :=
  forall i o e,
    status_of p i = Some (Done (Raised o e)) ->
    status_of p o = Some (Done (Raised o e)) /\ In o (called p).

Definition pool_inv (p : pool) : Prop :=
  (forall i, In i (called p) -> i < List.length (tasks p)) /\
  (forall i f, nth_error (tasks p) i = Some f -> task_inv p i f) /\
  origin_inv p.

(** A graph in which the first task has failed and the second depends on
    it. *)
Definition failed_pool : pool :=
  mk_pool [mk_future [] (Done (Raised 0 (ValueError "Failed to find image")));
           mk_future [0] (Waiting 0)] [0].

(** ** Text *)

(** Whitespace as [\s] and [str.strip] see it, on code points below 256. *)
Definition is_space (c : ascii) : bool :=
  let n := nat_of_ascii c in
  (Nat.leb 9 n && Nat.leb n 13) || (Nat.leb 28 n && Nat.leb n 32)
  || Nat.eqb n 133 || Nat.eqb n 160.

(** [s.split(sep)] for a separator of one character. *)
Fixpoint split_on (sep : ascii) (s : string) : list string :=
  match s with
  | EmptyString => [EmptyString]
  | String c r =>
      if Ascii.eqb c sep then EmptyString :: split_on sep r
      else match split_on sep r with
           | [] => [String c EmptyString]
           | w :: ws => String c w :: ws
           end
  end.

Definition newline : ascii := ascii_of_nat 10.

(** The longest whitespace prefix and what follows it. *)
Fixpoint span_space (s : string) : string * string :=
  match s with
  | EmptyString => (EmptyString, EmptyString)
  | String c r =>
      if is_space c
      then let (ws, rest) := span_space r in (String c ws, rest)
      else (EmptyString, s)
  end.

Definition lstrip (s : string) : string := snd (span_space s).

(** The text before the first colon and the text after it. *)
Fixpoint cut_colon (s : string) : option (string * string) :=
  match s with
  | EmptyString => None
  | String c r =>
      if Ascii.eqb c ":" then Some (EmptyString, r)
      else match cut_colon r with
           | Some (a, b) => Some (String c a, b)
           | None => None
           end
  end.

(** All but the last character, and the last character. *)
Fixpoint split_last (c : ascii) (s : string) : string * ascii :=
  match s with
  | EmptyString => (EmptyString, c)
  | String c' r => let (init, l) := split_last c' r in (String c init, l)
  end.

(** A line matched by [matcher] (whitespace, a name without a colon, a
    colon, whitespace, the rest of the line): the groups 1, 2 and 3. *)
Definition row : Type := (string * string * string)%type.

(** [matcher.match(line)] for a line without a newline.  The name ends at
    the first colon and has at least one character; group 1 is the
    whitespace the line starts with, less its last character when nothing
    but whitespace precedes the colon (the name then is that character);
    the whitespace after the colon belongs to no group. *)
Definition match_line (line : string) : option row :=
  match cut_colon line with
  | None => None
  | Some (EmptyString, _) => None
  | Some ((String c r) as head, tail) =>
      match span_space head with
      | (ws, EmptyString) =>
          let (init, l) := split_last c r in
          Some (init, String l EmptyString, lstrip tail)
      | (ws, name) => Some (ws, name, lstrip tail)
      end
  end.

(** [IterateLine]: the matched lines, in order. *)
Fixpoint matched (lines : list string) : list row :=
  match lines with
  | [] => []
  | line :: rest =>
      match match_line line with
      | None => matched rest
      | Some r => r :: matched rest
      end
  end.

Definition IterateLine (output : string) : list row :=
  matched (split_on newline output).

(** ** Parsing the report of [avbtool info_image] *)

(** [cur_value if cur_name == 'Prop' else {}] *)
Definition new_descriptor (cur_name cur_value : string) : dvalue :=
  if (cur_name =? "Prop")%string then DStr cur_value else DDict Dict.empty.

(** [descriptor[key] = value], where [descriptor] is the object appended to
    [descriptors] at position [ref]. *)
Fixpoint setitem_at (ref : nat) (key value : string)
    (descriptors : list descriptor) : result (list descriptor) :=
  match descriptors, ref with
  | [], _ => Raise (IndexError "list index out of range")
  | (name, DDict d) :: rest, O =>
      Ok ((name, DDict (Dict.set key value d)) :: rest)
  | (name, DStr _) :: rest, O =>
      Raise (TypeError "'str' object does not support item assignment")
  | x :: rest, S n =>
      rest' <- setitem_at n key value rest ;;
      Ok (x :: rest')
  end.

(** The loop of [ReadDescriptors] over the shared generator [gen]; the
    descriptor being filled is the entry [ref] of [descriptors].  A line
    indented no deeper than the descriptor starts the next descriptor, and
    the loop ends with the call that reads it. *)
Fixpoint ReadDescriptors_loop (gen : list row) (cur_indent : string)
    (ref : nat) (descriptors : list descriptor) : result (list descriptor) :=
  match gen with
  | [] => Ok descriptors
  | (indent, key, value) :: gen' =>
      if (indent <=? cur_indent)%string then
        ReadDescriptors_loop gen' indent (List.length descriptors)
          (descriptors ++ [(key, new_descriptor key value)])
      else
        descriptors' <- setitem_at ref key value descriptors ;;
        ReadDescriptors_loop gen' cur_indent ref descriptors'
  end.

Definition ReadDescriptors (cur : row) (gen : list row)
    (descriptors : list descriptor) : result (list descriptor) :=
  let '(cur_indent, cur_name, cur_value) := cur in
  ReadDescriptors_loop gen cur_indent (List.length descriptors)
    (descriptors ++ [(cur_name, new_descriptor cur_name cur_value)]).

(** The loop that reads the VBMeta info. *)
Fixpoint read_info (gen : list row) (i : info) :
    result (info * list descriptor) :=
  match gen with
  | [] => Ok (i, [])
  | (_, key, value) :: gen' =>
      if (key =? "Descriptors")%string then
        match gen' with
        | [] => Raise StopIteration
        | first :: gen'' =>
            descriptors <- ReadDescriptors first gen'' [] ;;
            Ok (i, descriptors)
        end
      else read_info gen' (Dict.set key value i)
  end.

(** The part of [AvbInfo] after the inspection tool has returned 0. *)
Definition parse_lines (lines : list string) :
    result (info * list descriptor) :=
  read_info (matched lines) Dict.empty.

Definition parse_info_image (output : string) :
    result (info * list descriptor) :=
  parse_lines (split_on newline output).

(** ** Running external programs *)

Record process : Type := mk_process {
  output : string;
  returncode : Z
}.

(** What [subprocess.Popen] is given. *)
Record invocation : Type := mk_invocation {
  inv_cmd : list string;
  inv_env : Dict.dict string
}.

(** The world outside the script: the ambient environment, the files that
    exist, what a program prints and returns, and the names of temporary
    files. *)
Record world : Type := mk_world {
  environ : Dict.dict string;
  path_exists : string -> bool;
  popen : invocation -> process;
  tempname : nat -> string
}.

(** [x or default] for a dictionary or a set. *)
Definition or_default {A : Type} (x : option (list A)) (default : list A) :
    list A :=
  match x with
  | Some ((_ :: _) as l) => l
  | _ => default
  end.

(** The arguments of [subprocess.Popen] in [RunCommand]. *)
Definition RunCommand_invocation (w : world) (a : args) (cmd : list string)
    (env : option (Dict.dict string)) : result invocation :=
  let env := or_default env Dict.empty in
  let env := Dict.update env (environ w) in
  match cmd with
  | [] => Raise (IndexError "list index out of range")
  | c :: rest =>
      Ok (mk_invocation
            (if (c =? "avbtool")%string then avbtool a :: rest else cmd) env)
  end.

Definition RunCommand (w : world) (a : args) (cmd : list string)
    (env : option (Dict.dict string))
    (expected_return_values : option (list Z)) : result (string * Z) :=
  let expected_return_values := or_default expected_return_values [0%Z] in
  inv <- RunCommand_invocation w a cmd env ;;
  let p := popen w inv in
  _ <- assert (existsb (Z.eqb (returncode p)) expected_return_values)
         "Failed to execute" ;;
  Ok (output p, returncode p).

Definition is_lz4 (w : world) (a : args) (path : string) : result bool :=
  r <- RunCommand w a ["lz4"; "-t"; path] None (Some [0%Z; 44%Z]) ;;
  Ok (Z.eqb (snd r) 0).

(** [AvbInfo]; [depth] bounds the recursion as the interpreter does,
    [temps] are the temporary files created so far. *)
Fixpoint AvbInfo (depth : nat) (w : world) (a : args) (temps : list string)
    (image_path : string) : result avbinfo :=
  match depth with
  | O => Raise RecursionError
  | S depth' =>
      if negb (path_exists w image_path || str_in image_path temps)
      then Raise (ValueError "Failed to find image")
      else
        lz4 <- is_lz4 w a image_path ;;
        if lz4 then
          let decompressed_image := tempname w (List.length temps) in
          _ <- RunCommand w a
                 ["lz4"; "-d"; "-f"; image_path; decompressed_image] None None ;;
          AvbInfo depth' w a (decompressed_image :: temps) decompressed_image
        else
          '(out, ret_code) <- RunCommand w a
                                ["avbtool"; "info_image"; "--image"; image_path]
                                None (Some [0%Z; 1%Z]) ;;
          if Z.eqb ret_code 1 then Ok None
          else
            parsed <- parse_info_image out ;;
            Ok (Some parsed)
  end.

(** ** The consistency check of a resigned image *)

Definition public_key : string := "Public key (sha1)".

Definition dvalue_eqb (a b : dvalue) : bool :=
  match a, b with
  | DStr s, DStr t => (s =? t)%string
  | DDict d, DDict e => Dict.eqb String.eqb d e
  | _, _ => false
  end.

(** [a == b] for lists *)
Fixpoint list_eqb {A : Type} (eqb : A -> A -> bool) (a b : list A) : bool :=
  match a, b with
  | [], [] => true
  | x :: a', y :: b' => eqb x y && list_eqb eqb a' b'
  | _, _ => false
  end.

(** [a <= b] between descriptor values: defined between strings only. *)
Definition dvalue_le (a b : dvalue) : result bool :=
  match a, b with
  | DStr s, DStr t => Ok (s <=? t)%string
  | _, _ => Raise (TypeError "'<' not supported between instances")
  end.

(** [sorted]: an insertion sort, which compares every element of a list of
    two or more. *)
Fixpoint insert_sorted (x : dvalue) (l : list dvalue) : result (list dvalue) :=
  match l with
  | [] => Ok [x]
  | y :: r =>
      le <- dvalue_le x y ;;
      if le then Ok (x :: y :: r)
      else (r' <- insert_sorted x r ;; Ok (y :: r'))
  end.

Fixpoint sorted (l : list dvalue) : result (list dvalue) :=
  match l with
  | [] => Ok []
  | x :: r =>
      r' <- sorted r ;;
      insert_sorted x r'
  end.

(** [drop_digest] *)
Definition drop_digest (descriptor : dvalue) : result (Dict.dict string) :=
  match descriptor with
  | DDict d => Ok (filter (fun kv => negb (fst kv =? "Digest")%string) d)
  | DStr _ => Raise (AttributeError "'str' object has no attribute 'items'")
  end.

(** [assert_different_value] *)
Definition assert_different_value (original updated : Dict.dict string)
    (key : string) : result unit :=
  o <- Dict.getitem key original ;;
  u <- Dict.getitem key updated ;;
  assert (negb (o =? u)%string) "Value should change".

(** What the check leaves behind: the attribute [new_public_key] of the
    function, and the objects that the caller passed as [original_info]
    and [original_descriptors]. *)
Record check_state : Type := mk_check_state {
  new_public_key : option string;
  original_info_after : option info;
  original_descriptors_after : list descriptor
}.

(** The comparisons of the descriptors, which change no state. *)
Definition check_descriptors (original_descriptors updated_descriptors :
    list descriptor) : result unit :=
  _ <- assert (Nat.eqb (List.length original_descriptors)
                       (List.length updated_descriptors))
         "Number of descriptors should be the same" ;;
  original_prop_descriptors <-
    sorted (find_all_values_by_key original_descriptors "Prop") ;;
  updated_prop_descriptors <-
    sorted (find_all_values_by_key updated_descriptors "Prop") ;;
  _ <- assert (list_eqb dvalue_eqb original_prop_descriptors
                 updated_prop_descriptors)
         "Prop descriptors should be the same" ;;
  original_hash_descriptors <-
    extract_hash_descriptors (Some original_descriptors) drop_digest ;;
  updated_hash_descriptors <-
    extract_hash_descriptors (Some updated_descriptors) drop_digest ;;
  assert (Dict.eqb (Dict.eqb String.eqb) original_hash_descriptors
            updated_hash_descriptors)
    "Hash descriptors' parameters should be the same".

(** [check_resigned_image_avb_info]; [updated] is what [AvbInfo] gives for
    the resigned image, [slot] the attribute [new_public_key] before the
    call. *)
Definition check_resigned_image_avb_info (updated : result avbinfo)
    (original_info : option info) (original_descriptors : list descriptor)
    (slot : option string) : result unit * check_state :=
  match updated with
  | Raise e =>
      (Raise e, mk_check_state slot original_info original_descriptors)
  | Ok updated =>
      match original_info with
      | None => (Raise (AssertionError "no avbinfo on original image"),
                 mk_check_state slot original_info original_descriptors)
      | Some oi =>
          match updated with
          | None => (Raise (AssertionError "no avbinfo on resigned image"),
                     mk_check_state slot original_info original_descriptors)
          | Some (ui, updated_descriptors) =>
              match assert_different_value oi ui public_key with
              | Raise e =>
                  (Raise e,
                   mk_check_state slot original_info original_descriptors)
              | Ok _ =>
                  match Dict.pop public_key ui with
                  | Raise e =>
                      (Raise e,
                       mk_check_state slot original_info original_descriptors)
                  | Ok (updated_public_key, ui') =>
                      let slot' := match slot with
                                   | None => Some updated_public_key
                                   | Some k => Some k
                                   end in
                      match
                        match slot with
                        | None => Ok tt
                        | Some k =>
                            assert (k =? updated_public_key)%string
                              "All images should be resigned with the same public key."
                        end
                      with
                      | Raise e =>
                          (Raise e,
                           mk_check_state slot' original_info
                             original_descriptors)
                      | Ok _ =>
                          match Dict.pop public_key oi with
                          | Raise e =>
                              (Raise e,
                               mk_check_state slot' original_info
                                 original_descriptors)
                          | Ok (_, oi') =>
                              (_ <- assert (Dict.eqb String.eqb oi' ui')
                                      "Original info and updated info should be the same" ;;
                               check_descriptors original_descriptors
                                 updated_descriptors,
                               mk_check_state slot' (Some oi')
                                 original_descriptors)
                          end
                      end
                  end
              end
          end
      end
  end.



(** ** The version check of [UpdateVbmetaBootconfig] *)

(** [s.strip()] *)
Fixpoint rstrip (s : string) : string :=
  match s with
  | EmptyString => EmptyString
  | String c r =>
      match rstrip r with
      | EmptyString => if is_space c then EmptyString else String c EmptyString
      | r' => String c r'
      end
  end.

Definition strip (s : string) : string := rstrip (lstrip s).

(** [s.rfind(c)]: the last position of [c], [None] for -1. *)
Fixpoint rfind (c : ascii) (s : string) : option nat :=
  match s with
  | EmptyString => None
  | String x r =>
      match rfind c r with
      | Some i => Some (S i)
      | None => if Ascii.eqb x c then Some 0 else None
      end
  end.

(** [s[0:-1]] *)
Fixpoint drop_last (s : string) : string :=
  match s with
  | EmptyString => EmptyString
  | String c EmptyString => EmptyString
  | String c r => String c (drop_last r)
  end.

(** [s[0:s.rfind('.')]] *)
Definition before_last_dot (s : string) : string :=
  match rfind "." s with
  | Some i => substring 0 i s
  | None => drop_last s
  end.

(** The characters of a pattern: itself, or any character but a newline
    for a dot. *)
Inductive pchar : Type :=
| Lit (c : ascii)
| AnyChar.

Fixpoint pattern_of (s : string) : list pchar :=
  match s with
  | EmptyString => []
  | String c r =>
      (if Ascii.eqb c "." then AnyChar else Lit c) :: pattern_of r
  end.

Fixpoint match_prefix (p : list pchar) (s : string) : option string :=
  match p with
  | [] => Some s
  | x :: p' =>
      match s with
      | EmptyString => None
      | String c r =>
          if match x with
             | Lit l => Ascii.eqb c l
             | AnyChar => negb (Ascii.eqb c newline)
             end
          then match_prefix p' r
          else None
      end
  end.

Definition quote : ascii := ascii_of_nat 34.

(** The text up to the next double quote: what the group of characters
    other than a double quote, followed by a double quote, matches. *)
Fixpoint until_quote (s : string) : option string :=
  match s with
  | EmptyString => None
  | String c r =>
      if Ascii.eqb c quote then Some EmptyString
      else match until_quote r with
           | Some g => Some (String c g)
           | None => None
           end
  end.

(** [re.search] for a pattern that ends with a quoted group: group 1 of the
    leftmost match. *)
Fixpoint search_quoted (p : list pchar) (s : string) : option string :=
  match
    match match_prefix p s with
    | Some rest => until_quote rest
    | None => None
    end
  with
  | Some g => Some g
  | None =>
      match s with
      | EmptyString => None
      | String _ r => search_quoted p r
      end
  end.

Definition avb_version_pattern : list pchar :=
  pattern_of "androidboot.vbmeta.avb_version = " ++ [Lit quote].

Definition mismatch : exn :=
  Exception "AVB version mismatch between current & one & used to build bootconfigs".

(** [validate_avb_version]; [version_run] is the outcome of
    [RunCommand(args, ['avbtool', 'version'])]. *)
Definition validate_avb_version (version_run : result (string * Z))
    (bootconfigs : string) : result unit :=
  '(stdout, _) <- version_run ;;
  second <- match nth_error (split_on " " stdout) 1 with
            | Some x => Ok x
            | None => Raise (IndexError "list index out of range")
            end ;;
  let avb_version_curr := strip second in
  let avb_version_curr := before_last_dot avb_version_curr in
  avb_version_bc <- match search_quoted avb_version_pattern bootconfigs with
                    | Some g => Ok g
                    | None => Raise (AttributeError
                                       "'NoneType' object has no attribute 'group'")
                    end ;;
  if negb (avb_version_curr =? avb_version_bc)%string
  then Raise mismatch
  else Ok tt.

(** The body of the loop over the ramdisks, from the reading of the boot
    configuration to its writing; [update] stands for
    [update_vbmeta_digest] followed by [update_vbmeta_size]. *)
Definition update_bootconfig (a : args) (version_run : result (string * Z))
    (update : string -> result string) (bc_data : string) : result string :=
  _ <- (if negb (do_not_validate_avb_version a)
        then validate_avb_version version_run bc_data
        else Ok tt) ;;
  update bc_data.

(** ** Statements about the parser *)

(** The nesting rule as the specification words it.  A node is a
    descriptor with the position of its line among the lines after the
    [Descriptors] line; a line belongs to the nearest preceding descriptor
    whose indentation is strictly less than its own, and is a descriptor
    itself when there is none.  Indentation is group 1 of the line, ordered
    as Python orders strings. *)
Record node : Type := mk_node {
  n_line : nat;
  n_indent : string;
  n_name : string;
  n_value : string;
  n_fields : Dict.dict string
}.

Definition add_field (key value : string) (n : node) : node :=
  mk_node (n_line n) (n_indent n) (n_name n) (n_value n)
    (Dict.set key value (n_fields n)).

(** The descriptors are searched from the nearest one. *)
Fixpoint attach_nearest (indent key value : string)
    (nearest_first : list node) : option (list node) :=
  match nearest_first with
  | [] => None
  | n :: older =>
      if (n_indent n <? indent)%string
      then Some (add_field key value n :: older)
      else match attach_nearest indent key value older with
           | Some older' => Some (n :: older')
           | None => None
           end
  end.

Definition place (line : nat) (r : row) (nearest_first : list node) :
    list node :=
  let '(indent, key, value) := r in
  match attach_nearest indent key value nearest_first with
  | Some nodes => nodes
  | None => mk_node line indent key value Dict.empty :: nearest_first
  end.

Fixpoint place_all (line : nat) (rows : list row) (nearest_first : list node) :
    list node :=
  match rows with
  | [] => nearest_first
  | r :: rest => place_all (S line) rest (place line r nearest_first)
  end.

Definition nesting (rows : list row) : list node := rev (place_all 0 rows []).

(** The lines after the first line whose name is [Descriptors]. *)
Fixpoint descriptor_section (rows : list row) : list row :=
  match rows with
  | [] => []
  | (_, key, _) :: rest =>
      if (key =? "Descriptors")%string then rest else descriptor_section rest
  end.

(** A node as [AvbInfo] returns it. *)
Definition render (n : node) : descriptor :=
  (n_name n,
   if (n_name n =? "Prop")%string then DStr (n_value n)
   else DDict (n_fields n)).

Definition node_row (n : node) : row := (n_indent n, n_name n, n_value n).

(** An indentation of [n] spaces. *)
Fixpoint spaces (n : nat) : string :=
  match n with
  | O => EmptyString
  | S n' => String " " (spaces n')
  end.

(** The state of the loop of [ReadDescriptors] against the nodes placed so
    far: the descriptor being filled is the nearest node, and no node is
    indented less than it. *)
Definition loop_inv (cur_indent : string) (ref : nat)
    (descriptors : list descriptor) (nodes : list node) : Prop :=
  exists h older,
    nodes = h :: older /\ n_indent h = cur_indent /\
    ref = List.length older /\
    descriptors = map render (rev nodes) /\
    (forall n, In n nodes -> (cur_indent <=? n_indent n)%string = true) /\
    (forall n, In n nodes -> n_name n = "Prop" -> n_fields n = Dict.empty).

Definition node_pos (n : node) : nat * row := (n_line n, node_row n).

(** A hash descriptor with a partition name and a digest. *)
Definition hash_descriptor (name digest : string) : descriptor :=
  ("Hash descriptor",
   DDict [("Partition Name", name); ("Digest", digest)]).

(** ** Statements about the consistency check *)

(** Descriptors as the parser builds them: the value of a [Prop] is a
    string, the value of any other descriptor a dictionary. *)
Definition well_formed (descriptors : list descriptor) : Prop :=
  forall name v, In (name, v) descriptors ->
    if (name =? "Prop")%string then exists s, v = DStr s
    else exists d, v = DDict d.

Definition opt_rel {A : Type} (R : A -> A -> Prop) (x y : option A) : Prop :=
  match x, y with
  | Some a, Some b => R a b
  | None, None => True
  | _, _ => False
  end.

(** Two dictionaries with the same keys and the same values. *)
Definition same_map {V : Type} (d e : Dict.dict V) : Prop :=
  forall k, Dict.get k d = Dict.get k e.

(** The conditions on the descriptors: as many descriptors, the same
    [Prop] values up to order, and per partition name the same hash
    descriptor once its digest is removed. *)
Definition same_descriptors (od ud : list descriptor) : Prop :=
  List.length od = List.length ud /\
  Permutation (find_all_values_by_key od "Prop")
              (find_all_values_by_key ud "Prop") /\
  exists ho hu,
    extract_hash_descriptors (Some od) drop_digest = Ok ho /\
    extract_hash_descriptors (Some ud) drop_digest = Ok hu /\
    forall p, opt_rel same_map (Dict.get p ho) (Dict.get p hu).

(** The conditions of the specification on the old and the new metadata. *)
Definition consistent_as_specified (original_info : option info)
    (od : list descriptor) (updated : avbinfo) : Prop :=
  exists o u ud,
    original_info = Some o /\ updated = Some (u, ud) /\
    (exists fo fn, Dict.get public_key o = Some fo /\
                   Dict.get public_key u = Some fn /\ fo <> fn) /\
    (forall k, k <> public_key -> Dict.get k o = Dict.get k u) /\
    same_descriptors od ud.

(** The new fingerprint agrees with the one recorded in the run, if any. *)
Definition slot_agrees (slot : option string) (updated : avbinfo) : Prop :=
  match slot with
  | None => True
  | Some k => exists u ud, updated = Some (u, ud) /\
                           Dict.get public_key u = Some k
  end.

(** Insertion sort of strings. *)
Fixpoint insert_str (x : string) (l : list string) : list string :=
  match l with
  | [] => [x]
  | y :: r => if (x <=? y)%string then x :: y :: r else y :: insert_str x r
  end.

Fixpoint isort (l : list string) : list string :=
  match l with
  | [] => []
  | x :: r => insert_str x (isort r)
  end.

Definition str_le (a b : string) : Prop := (a <=? b)%string = true.


(** Metadata before and after a resign: the fingerprint and the digest
    differ, the descriptors come in another order. *)
Definition old_info : info :=
  [("Algorithm", "SHA256_RSA4096"); ("Public key (sha1)", "aaaa");
   ("Rollback Index", "1")].

Definition new_info : info :=
  [("Public key (sha1)", "bbbb"); ("Algorithm", "SHA256_RSA4096");
   ("Rollback Index", "1")].

Definition old_descriptors : list descriptor :=
  [hash_descriptor "boot" "00"; ("Prop", DStr "com.android.virt.cap -> '1'")].

Definition new_descriptors : list descriptor :=
  [("Prop", DStr "com.android.virt.cap -> '1'"); hash_descriptor "boot" "11"].

(** Metadata whose hashtree descriptor has another salt after the resign. *)
Definition old_hashtree : list descriptor :=
  [("Hashtree descriptor", DDict [("Partition Name", "system_a"); ("Salt", "01")])].

Definition new_hashtree : list descriptor :=
  [("Hashtree descriptor", DDict [("Partition Name", "system_a"); ("Salt", "02")])].

(** ** Statements about the version check *)

Fixpoint has_char (c : ascii) (s : string) : bool :=
  match s with
  | EmptyString => false
  | String x r => Ascii.eqb x c || has_char c r
  end.

(** What [avbtool version] prints and a boot configuration. *)
Definition version_output : string :=
  "avbtool 1.3.0" ++ String newline EmptyString.

Definition bootconfig_of (version : string) : string :=
  "androidboot.vbmeta.size = 65536" ++ String newline
    ("androidboot.vbmeta.avb_version = " ++ String quote
       (version ++ String quote (String newline EmptyString))).

Definition strict_args : args := mk_args "avbtool" false false false.
Definition lax_args : args := mk_args "avbtool" false false true.

(** ** Statements about running programs *)

(** The processes that [AvbInfo] starts for an image. *)
Definition run (w : world) (a : args) (cmd : list string) : process :=
  popen w (mk_invocation cmd (Dict.update Dict.empty (environ w))).

Definition lz4_test (w : world) (a : args) (path : string) : process :=
  run w a ["lz4"; "-t"; path].

Definition lz4_decompress (w : world) (a : args) (path tmp : string) : process :=
  run w a ["lz4"; "-d"; "-f"; path; tmp].

Definition inspection (w : world) (a : args) (path : string) : process :=
  run w a [avbtool a; "info_image"; "--image"; path].

(** A world in which the ambient environment and the overrides both set
    [PATH]. *)
Definition path_world : world :=
  mk_world [("PATH", "/usr/bin"); ("HOME", "/root")] (fun _ => true)
    (fun _ => mk_process EmptyString 0) (fun _ => "/tmp/tmp0").

Definition path_override : Dict.dict string :=
  [("PATH", "/override"); ("LANG", "C")].

Definition plain_args : args := mk_args "avbtool" false false false.

(** A world with a raw image without metadata, and its compressed copy. *)
Definition bare_world : world :=
  mk_world [] (fun p => (p =? "raw.img")%string || (p =? "packed.img")%string)
    (fun inv =>
       match inv_cmd inv with
       | ["lz4"; "-t"; p] =>
           if (p =? "packed.img")%string then mk_process EmptyString 0
           else mk_process "Unrecognized header" 44
       | ["avbtool"; "info_image"; "--image"; p] =>
           mk_process "No AVB footer" 1
       | _ => mk_process EmptyString 0
       end)
    (fun _ => "/tmp/tmp0").

(** ** Statements about the digest patch *)

(** What the loop over the partitions does to the blob: each old digest
    occurs in the blob when its turn comes, and every occurrence of it is
    replaced by the new digest of the same partition. *)
Fixpoint patched_in_turn (items : list (string * bytes))
    (updated_digests : Dict.dict bytes) (c c' : bytes) : Prop :=
  match items with
  | [] => c' = c
  | (p, o) :: rest =>
      exists u, Dict.get p updated_digests = Some u /\
                contains o c = true /\
                patched_in_turn rest updated_digests (bytes_replace o u c) c'
  end.

(** Some old digest is absent from the blob when its partition's turn
    comes. *)
Fixpoint digest_missing (items : list (string * bytes))
    (updated_digests : Dict.dict bytes) (c : bytes) : Prop :=
  match items with
  | [] => False
  | (p, o) :: rest =>
      contains o c = false \/
      exists u, Dict.get p updated_digests = Some u /\
                digest_missing rest updated_digests (bytes_replace o u c)
  end.

Definition exactly_initrd_partitions {V : Type} (d : Dict.dict V) : Prop :=
  forall p, In p (Dict.keys d) <-> p = "initrd_normal" \/ p = "initrd_debug".

(** The four checks of the patch of one kernel, as conditions on the
    digests extracted from its old and new descriptors. *)
Definition patch_check_fails (od ud : Dict.dict bytes) (content : bytes) :
    Prop :=
  (exists bo bu, Dict.get "boot" od = Some bo /\ Dict.get "boot" ud = Some bu
                 /\ bo <> bu) \/
  ~ exactly_initrd_partitions (Dict.remove "boot" od) \/
  ~ exactly_initrd_partitions (Dict.remove "boot" ud) \/
  (exists p o u, In (p, o) (Dict.remove "boot" od) /\
                 Dict.get p ud = Some u /\ List.length o <> List.length u) \/
  digest_missing (Dict.remove "boot" od) (Dict.remove "boot" ud) content.

(** The patch as the specification words it: only the first occurrence of
    the old digest is replaced. *)
Fixpoint replace_first (old new s : bytes) : bytes :=
  if starts_with old s then new ++ skipn (List.length old) s
  else match s with
       | [] => []
       | b :: s' => b :: replace_first old new s'
       end.

Definition first_occurrence_patch (items : list (string * bytes))
    (updated_digests : Dict.dict bytes) (c : bytes) : bytes :=
  fold_left (fun acc kv =>
               match Dict.get (fst kv) updated_digests with
               | Some u => replace_first (snd kv) u acc
               | None => acc
               end) items c.

(** A kernel with three hash descriptors and a blob holding the old
    [initrd_normal] digest twice. *)
Definition twice_original : list descriptor :=
  [hash_descriptor "boot" "00"; hash_descriptor "initrd_normal" "aa";
   hash_descriptor "initrd_debug" "cc"].

Definition twice_updated : list descriptor :=
  [hash_descriptor "boot" "00"; hash_descriptor "initrd_normal" "bb";
   hash_descriptor "initrd_debug" "dd"].

Definition twice_files : Dict.dict string := [("kernel", "etc/fs/microdroid_kernel")].

Definition twice_avbinfo (path : string) : result avbinfo :=
  Ok (Some ([], twice_updated)).

Definition twice_blob : bytes := [xaa; x11; xaa; xcc].

(** A report of the inspection tool. *)
Definition report_lines : list string :=
  ["Footer version:           1.0";
   "Image size:               4096 bytes";
   "Public key (sha1):        aaaa";
   "Algorithm:                SHA256_RSA4096";
   "Descriptors:";
   "    Hash descriptor:";
   "      Image Size:            1024 bytes";
   "      Partition Name:        boot";
   "      Digest:                00";
   "    (a line without a colon)";
   "    Prop: com.android.virt.cap -> '1'";
   "    Hash descriptor:";
   "      Partition Name:        initrd_normal";
   EmptyString].

Definition sample_report : string :=
  String.concat (String newline EmptyString) report_lines.


(** A blob without the old digest of [initrd_normal]. *)
Definition absent_blob : bytes := [x11; xcc].

Definition rialto_files : Dict.dict string :=
  [("kernel", "etc/fs/microdroid_kernel"); ("rialto", "etc/rialto.bin")].

Definition absent_fs : Dict.dict bytes := [("etc/rialto.bin", absent_blob)].

(** ** More statements about the task graph *)

(** [depends p i j]: the future [j] is among the dependencies of [i], or
    among those of a dependency of [i], and so on. *)
Inductive depends (p : pool) : nat -> nat -> Prop :=
| depends_direct (i j : nat) (f : future) :
    nth_error (tasks p) i = Some f -> In j (wait f) -> depends p i j
| depends_via (i k j : nat) (f : future) :
    nth_error (tasks p) i = Some f -> In k (wait f) -> depends p k j ->
    depends p i j.

(** Every future is done and has returned. *)
Definition all_returned (p : pool) : Prop :=
  forall i, i < List.length (tasks p) ->
            status_of p i = Some (Done Returned).

(** A graph of two tasks, the second waiting for the first, both called
    and returned. *)
Definition returned_pool : pool :=
  mk_pool [mk_future [] (Done Returned); mk_future [0] (Done Returned)] [1; 0].

(** A chain of three tasks whose first has failed. *)
Definition chain_pool : pool :=
  mk_pool [mk_future [] (Done (Raised 0 (ValueError "Failed to find image")));
           mk_future [0] (Waiting 0); mk_future [1] (Waiting 0)] [0].

(** ** More statements about the parser *)

(** The matched lines before the first line whose name is [Descriptors]. *)
Fixpoint info_section (rows : list row) : list row :=
  match rows with
  | [] => []
  | (indent, key, value) :: rest =>
      if (key =? "Descriptors")%string then []
      else (indent, key, value) :: info_section rest
  end.

(** The value of the last line named [key]. *)
Fixpoint last_value (key : string) (rows : list row) : option string :=
  match rows with
  | [] => None
  | (_, k, v) :: rest =>
      match last_value key rest with
      | Some v' => Some v'
      | None => if (k =? key)%string then Some v else None
      end
  end.

(** Some matched line is named [Descriptors]. *)
Definition has_descriptors_line (rows : list row) : bool :=
  existsb (fun r => (snd (fst r) =? "Descriptors")%string) rows.

Fixpoint all_space (s : string) : bool :=
  match s with
  | EmptyString => true
  | String c r => is_space c && all_space r
  end.

Definition starts_with_space (s : string) : bool :=
  match s with
  | EmptyString => false
  | String c _ => is_space c
  end.

(** The report of the inspection tool for an image without descriptors. *)
Definition none_report : list string :=
  ["Algorithm:                SHA256_RSA4096";
   "Descriptors:";
   "    (none)";
   EmptyString].

(** A report in which a line is indented deeper than the [Prop] before it. *)
Definition prop_child_report : list string :=
  ["Descriptors:";
   "    Prop: com.android.virt.cap -> '1'";
   "      Image Size:            1024 bytes"].

(** A world with one raw image whose report is [sample_report]. *)
Definition sample_world : world :=
  mk_world [] (fun p => (p =? "kernel")%string)
    (fun inv =>
       match inv_cmd inv with
       | ["lz4"; "-t"; p] => mk_process "Unrecognized header" 44
       | _ => mk_process sample_report 0
       end)
    (fun _ => "/tmp/tmp0").

(** The pieces a line matched by [matcher] is made of: the three groups,
    the colon and the whitespace [ws] after it.  The name takes a
    whitespace character only when it is that character alone. *)
Definition line_parts (line g1 g2 ws g3 : string) : Prop :=
  line = (g1 ++ g2 ++ ":" ++ ws ++ g3)%string /\
  all_space g1 = true /\ all_space ws = true /\
  g2 <> EmptyString /\ has_char ":" g2 = false /\
  starts_with_space g3 = false /\
  (starts_with_space g2 = true -> String.length g2 = 1).

(** ** More statements about hash descriptors *)

(** The last descriptor named [Hash descriptor] whose [Partition Name] is
    [partition]. *)
Fixpoint last_hash (partition : string) (descs : list descriptor) :
    option dvalue :=
  match descs with
  | [] => None
  | (name, v) :: rest =>
      match last_hash partition rest with
      | Some v' => Some v'
      | None =>
          if (name =? "Hash descriptor")%string then
            match desc_getitem "Partition Name" v with
            | Ok p => if (p =? partition)%string then Some v else None
            | Raise _ => None
            end
          else None
      end
  end.

Definition hash_of (partition digest : string) : descriptor :=
  ("Hash descriptor",
   DDict [("Partition Name", partition); ("Digest", digest)]).

(** ** The key overrides of [ParseArgs]

    [args.key_overrides] is made from the list that argparse collects for
    [--key_override], which is [None] without the flag.  Each value is
    split at every equals sign and unpacked into a name and a key. *)

(** [name, key = parts] *)
Definition unpack_pair (parts : list string) : result (string * string) :=
  match parts with
  | [name; key] => Ok (name, key)
  | [] => Raise (ValueError "not enough values to unpack (expected 2, got 0)")
  | [_] => Raise (ValueError "not enough values to unpack (expected 2, got 1)")
  | _ => Raise (ValueError "too many values to unpack (expected 2)")
  end.

Fixpoint key_overrides_loop (pairs : list string) (acc : Dict.dict string) :
    result (Dict.dict string) :=
  match pairs with
  | [] => Ok acc
  | pair' :: rest =>
      ' (name, key) <- unpack_pair (split_on "=" pair') ;;
      key_overrides_loop rest (Dict.set name key acc)
  end.

Definition key_overrides (key_override : option (list string)) :
    result (Dict.dict string) :=
  match key_override with
  | None | Some [] => Ok Dict.empty
  | Some pairs => key_overrides_loop pairs Dict.empty
  end.

Fixpoint count_char (c : ascii) (s : string) : nat :=
  match s with
  | EmptyString => 0
  | String x r => (if Ascii.eqb x c then 1 else 0) + count_char c r
  end.

(** The key of the last pair for [name]. *)
Fixpoint last_override (name : string) (l : list (string * string)) :
    option string :=
  match l with
  | [] => None
  | (n, k) :: rest =>
      match last_override name rest with
      | Some k' => Some k'
      | None => if (n =? name)%string then Some k else None
      end
  end.

Definition override_text (nk : string * string) : string :=
  (fst nk ++ "=" ++ snd nk)%string.

(** ** Integers and their text

    [int(s)] for a string: whitespace around the number is skipped (the
    characters 28 to 31, which [str.strip] removes, are not), then come a
    sign, and digits that single underscores may separate; more than
    [int_max_str_digits] digits are refused.  [str(n)] is the decimal
    text of [n], with the same bound. *)

Definition int_space (c : ascii) : bool :=
  let n := nat_of_ascii c in
  (Nat.leb 9 n && Nat.leb n 13) || Nat.eqb n 32 || Nat.eqb n 133
  || Nat.eqb n 160.

Definition is_digit (c : ascii) : bool :=
  let n := nat_of_ascii c in Nat.leb 48 n && Nat.leb n 57.

Definition digit_value (c : ascii) : N := N.of_nat (nat_of_ascii c - 48).

Fixpoint lstrip_by (space : ascii -> bool) (s : string) : string :=
  match s with
  | EmptyString => EmptyString
  | String c r => if space c then lstrip_by space r else s
  end.

Fixpoint rstrip_by (space : ascii -> bool) (s : string) : string :=
  match s with
  | EmptyString => EmptyString
  | String c r =>
      match rstrip_by space r with
      | EmptyString => if space c then EmptyString else String c EmptyString
      | r' => String c r'
      end
  end.

(** The digits at the start of [s]: their value, their number and the
    text that follows them; [None] when there is no digit, or an
    underscore that does not stand between two digits. *)
Fixpoint int_digits (s : string) (acc : N) (ndigits : nat)
    (after_digit : bool) : option (N * nat * string) :=
  match s with
  | EmptyString =>
      if after_digit then Some (acc, ndigits, EmptyString) else None
  | String c r =>
      if is_digit c
      then int_digits r (10 * acc + digit_value c)%N (S ndigits) true
      else if Ascii.eqb c "_"
      then if after_digit then int_digits r acc ndigits false else None
      else if after_digit then Some (acc, ndigits, s) else None
  end.

Definition int_max_str_digits : nat := 4300.

Definition invalid_literal : exn :=
  ValueError "invalid literal for int() with base 10".

Definition exceeds_limit : exn :=
  ValueError "Exceeds the limit (4300 digits) for integer string conversion".

Definition py_int (s : string) : result Z :=
  let body := rstrip_by int_space (lstrip_by int_space s) in
  let '(negative, digits) :=
    match body with
    | String "-" r => (true, r)
    | String "+" r => (false, r)
    | _ => (false, body)
    end in
  match int_digits digits 0 0 false with
  | None => Raise invalid_literal
  | Some (n, ndigits, rest) =>
      if Nat.ltb int_max_str_digits ndigits then Raise exceeds_limit
      else match rest with
           | EmptyString => Ok (if negative then - Z.of_N n else Z.of_N n)%Z
           | _ => Raise invalid_literal
           end
  end.

Definition py_str (n : Z) : result string :=
  let digits := N.to_uint (Z.abs_N n) in
  if Nat.ltb int_max_str_digits (Decimal.nb_digits digits)
  then Raise exceeds_limit
  else Ok (DecimalString.NilEmpty.string_of_int (Z.to_int n)).

(** [s.removesuffix(suffix)] *)
Fixpoint removesuffix (suffix s : string) : string :=
  match s with
  | EmptyString => EmptyString
  | String c r =>
      if (s =? suffix)%string then EmptyString
      else String c (removesuffix suffix r)
  end.

(** [ReadBytesSize] *)
Definition ReadBytesSize (value : string) : result Z :=
  py_int (removesuffix " bytes" value).

(** [s[0:-n]] *)
Definition drop_last_n (n : nat) (s : string) : string :=
  substring 0 (String.length s - n) s.

Definition block_names : list string :=
  ["Header Block"; "Authentication Block"; "Auxiliary Block"].

(** The loop of [calc_vbmeta_size] over the lines of the report. *)
Fixpoint calc_vbmeta_size_loop (lines : list string) (size : Z) : result Z :=
  match lines with
  | [] => Ok size
  | line :: rest =>
      let line := split_on ":" line in
      if str_in (hd EmptyString line) block_names then
        second <- match nth_error line 1 with
                  | Some x => Ok x
                  | None => Raise (IndexError "list index out of range")
                  end ;;
        n <- py_int (drop_last_n 6 (strip second)) ;;
        calc_vbmeta_size_loop rest (size + n)
      else calc_vbmeta_size_loop rest size
  end.

Definition calc_vbmeta_size (w : world) (a : args) (vbmeta_img : string) :
    result Z :=
  '(stdout, _) <- RunCommand w a
                    ["avbtool"; "info_image"; "--image"; vbmeta_img]
                    None None ;;
  calc_vbmeta_size_loop (split_on newline stdout) 0.

(** What a line adds to the size: the size of a block, or nothing for a
    line whose text before the first colon is not the name of a block. *)
Inductive line_size : string -> Z -> Prop :=
| line_other (line : string) :
    str_in (hd EmptyString (split_on ":" line)) block_names = false ->
    line_size line 0
| line_block (name pad s : string) (n : Z) :
    In name block_names -> all_space pad = true -> py_str n = Ok s ->
    line_size (name ++ ":" ++ pad ++ s ++ " bytes") n.

Definition sum_sizes (sizes : list Z) : Z := fold_right Z.add 0%Z sizes.

Definition vbmeta_report : string :=
  "Minimum libavb version:   1.0" ++ String newline
  ("Header Block:             256 bytes" ++ String newline
  ("Authentication Block:     576 bytes" ++ String newline
  ("Auxiliary Block:          1600 bytes" ++ String newline
  ("Algorithm:                SHA256_RSA4096" ++ String newline
   EmptyString)))).

Definition vbmeta_world : world :=
  mk_world [] (fun _ => true) (fun _ => mk_process vbmeta_report 0)
    (fun _ => "/tmp/tmp0").

(** ** The [--prop] arguments

    [re.match] for the pattern of [AppendPropArgument], two groups of one
    or more characters other than a newline, the first followed by
    [ -> '] and the second by a quote: the groups of the match, each as
    long as it can be, the first one first. *)

Fixpoint strip_prefix (p s : string) : option string :=
  match p, s with
  | EmptyString, _ => Some s
  | String x p', String y s' =>
      if Ascii.eqb x y then strip_prefix p' s' else None
  | String _ _, EmptyString => None
  end.

(** The longest text without a newline that a quote follows. *)
Fixpoint last_quote (s : string) : option string :=
  match s with
  | EmptyString => None
  | String c r =>
      if Ascii.eqb c newline then None
      else match last_quote r with
           | Some g => Some (String c g)
           | None => if Ascii.eqb c "'" then Some EmptyString else None
           end
  end.

Definition quoted_end (s : string) : option string :=
  match s with
  | EmptyString => None
  | String c r =>
      if Ascii.eqb c newline then None
      else match last_quote r with
           | Some g => Some (String c g)
           | None => None
           end
  end.

Fixpoint prop_groups (s : string) : option (string * string) :=
  match s with
  | EmptyString => None
  | String c r =>
      if Ascii.eqb c newline then None
      else match prop_groups r with
           | Some (g1, g2) => Some (String c g1, g2)
           | None =>
               match strip_prefix " -> '" r with
               | Some rest =>
                   match quoted_end rest with
                   | Some g2 => Some (String c EmptyString, g2)
                   | None => None
                   end
               | None => None
               end
           end
  end.

(** The loop of [AppendPropArgument] over the values of the descriptors
    named [Prop]; the result is [cmd] after the loop. *)
Fixpoint AppendPropArgument_loop (cmd : list string) (props : list dvalue) :
    result (list string) :=
  match props with
  | [] => Ok cmd
  | prop :: rest =>
      let cmd := cmd ++ ["--prop"] in
      result <- match prop with
                | DStr s => Ok (prop_groups s)
                | DDict _ =>
                    Raise (TypeError "expected string or bytes-like object")
                end ;;
      match result with
      | Some (g1, g2) =>
          AppendPropArgument_loop (cmd ++ [g1 ++ ":" ++ g2]%string) rest
      | None =>
          Raise (AttributeError "'NoneType' object has no attribute 'group'")
      end
  end.

Definition AppendPropArgument (cmd : list string)
    (descriptors : option (list descriptor)) : result (list string) :=
  l <- iter_descriptors descriptors ;;
  AppendPropArgument_loop cmd (find_all_values_by_key l "Prop").

(** The text of a property in the report, and the properties whose text
    is read back as it was written. *)
Definition prop_text (kv : string * string) : string :=
  fst kv ++ " -> '" ++ snd kv ++ "'".

Definition prop_ok (kv : string * string) : Prop :=
  fst kv <> EmptyString /\ snd kv <> EmptyString /\
  has_char newline (fst kv) = false /\ has_char newline (snd kv) = false /\
  has_char "'" (snd kv) = false.

Definition prop_args (kvs : list (string * string)) : list string :=
  flat_map (fun kv => ["--prop"; fst kv ++ ":" ++ snd kv]%string) kvs.

(** ** Signing an image with a hash footer *)

(** [os.path.basename]: the text after the last slash. *)
Definition basename (path : string) : string :=
  last (split_on "/" path) EmptyString.

(** [[(k, v)] = d.items()] *)
Definition only_item {V : Type} (d : Dict.dict V) : result (string * V) :=
  match d with
  | [kv] => Ok kv
  | [] => Raise (ValueError "not enough values to unpack (expected 1, got 0)")
  | _ => Raise (ValueError "too many values to unpack (expected 1)")
  end.

(** The inner loop of [AddHashFooter] over the hash descriptors of one
    additional image: each must equal the descriptor of the same partition
    in [original], which is then deleted. *)
Fixpoint check_additional (items : list (string * Dict.dict string))
    (original : Dict.dict (Dict.dict string)) :
    result (Dict.dict (Dict.dict string)) :=
  match items with
  | [] => Ok original
  | (k, v) :: rest =>
      o <- Dict.getitem k original ;;
      _ <- assert (Dict.eqb String.eqb v o)
             "Hash descriptor in the additional image and the image should be the same" ;;
      check_additional rest (Dict.remove k original)
  end.

Section Signing.

(** [shlex.split] *)
Variable shlex_split : string -> result (list string).

(** The interpreter's bound on the recursion of [AvbInfo], the world
    before the signing tool runs and the world after it, and the
    arguments of the script. *)
Variable depth : nat.
Variables w w' : world.
Variable a : args.
Variable key_overrides : Dict.dict string.
Variable signing_args : option string.

(** The outer loop of [AddHashFooter] over the additional images. *)
Fixpoint check_additional_images (additional_images : list string)
    (original : Dict.dict (Dict.dict string)) :
    result (Dict.dict (Dict.dict string)) :=
  match additional_images with
  | [] => Ok original
  | additional_image :: rest =>
      additional <- AvbInfo depth w a [] additional_image ;;
      hash_descriptors <-
        extract_hash_descriptors (descriptors_of additional) drop_digest ;;
      original' <- check_additional hash_descriptors original ;;
      check_additional_images rest original'
  end.

(** [cmd.extend(shlex.split(args.signing_args))] under
    [if args.signing_args]. *)
Definition extend_signing_args (cmd : list string) : result (list string) :=
  match signing_args with
  | None | Some EmptyString => Ok cmd
  | Some s => extra <- shlex_split s ;; Ok (cmd ++ extra)
  end.

(** [AddHashFooter] up to the command it runs: the command, and the info
    and the descriptors of the image. *)
Definition AddHashFooter_cmd (key image_path : string)
    (additional_images : list string) :
    result (list string * info * list descriptor) :=
  let key := match Dict.get (basename image_path) key_overrides with
             | Some k => k
             | None => key
             end in
  original <- AvbInfo depth w a [] image_path ;;
  match original with
  | None => Raise (AssertionError "no avbinfo")
  | Some (info, descriptors) =>
      hash_descriptors_original <-
        extract_hash_descriptors (Some descriptors) drop_digest ;;
      hash_descriptors_original <-
        check_additional_images additional_images hash_descriptors_original ;;
      _ <- assert (Nat.eqb (List.length hash_descriptors_original) 1)
             "Only one hash descriptor is expected after removing additional images" ;;
      '(original_image_partition_name, original_image_descriptor) <-
        only_item hash_descriptors_original ;;
      original_image_size <- Dict.getitem "Original image size" info ;;
      image_size <- Dict.getitem "Image Size" original_image_descriptor ;;
      _ <- assert (original_image_size =? image_size)%string
             "Original image size should be the same as the image size in the hash descriptor" ;;
      value <- Dict.getitem "Image size" info ;;
      size <- ReadBytesSize value ;;
      partition_size <- py_str size ;;
      algorithm <- Dict.getitem "Algorithm" info ;;
      original_image_salt <- Dict.getitem "Salt" original_image_descriptor ;;
      let cmd := ["avbtool"; "add_hash_footer";
                  "--key"; key;
                  "--algorithm"; algorithm;
                  "--partition_name"; original_image_partition_name;
                  "--salt"; original_image_salt;
                  "--partition_size"; partition_size;
                  "--image"; image_path] in
      cmd <- AppendPropArgument cmd (Some descriptors) ;;
      cmd <- extend_signing_args cmd ;;
      let cmd := cmd ++ flat_map
                          (fun additional_image =>
                             ["--include_descriptors_from_image";
                              additional_image]) additional_images in
      rollback_index <- Dict.getitem "Rollback Index" info ;;
      Ok (cmd ++ ["--rollback_index"; rollback_index], info, descriptors)
  end.





End Signing.

(** The hash descriptors of an image, without their digests. *)
Definition hash_descriptors_of (depth : nat) (w : world) (a : args)
    (image : string) : result (Dict.dict (Dict.dict string)) :=
  r <- AvbInfo depth w a [] image ;;
  extract_hash_descriptors (descriptors_of r) drop_digest.

(** Every descriptor of [h] is, up to the digest, the descriptor of the
    same partition in [original]. *)
Definition agrees_with (original h : Dict.dict (Dict.dict string)) : Prop :=
  forall k v, In (k, v) h ->
    exists o, Dict.get k original = Some o /\ Dict.eqb String.eqb v o = true.

Definition lines_of (l : list string) : string :=
  String.concat (String newline EmptyString) l.

(** A kernel with the descriptor of a ramdisk, and the ramdisk's own
    descriptor. *)
Definition kernel_report : string :=
  lines_of
    ["Image size:               4096 bytes";
     "Original image size:      1024 bytes";
     "Algorithm:                SHA256_RSA4096";
     "Rollback Index:           1";
     "Descriptors:";
     "    Hash descriptor:";
     "      Image Size:            1024 bytes";
     "      Partition Name:        boot";
     "      Salt:                  aa";
     "      Digest:                00";
     "    Hash descriptor:";
     "      Image Size:            512 bytes";
     "      Partition Name:        initrd_normal";
     "      Salt:                  bb";
     "      Digest:                11";
     "    Prop: com.android.virt.cap -> '1'"].

Definition initrd_report : string :=
  lines_of
    ["Descriptors:";
     "    Hash descriptor:";
     "      Image Size:            512 bytes";
     "      Partition Name:        initrd_normal";
     "      Salt:                  bb";
     "      Digest:                22"].

Definition kernel_world : world :=
  mk_world [] (fun _ => true)
    (fun inv =>
       match inv_cmd inv with
       | ["lz4"; "-t"; _] => mk_process "Unrecognized header" 44
       | [_; "info_image"; "--image"; "kernel"] => mk_process kernel_report 0
       | [_; "info_image"; "--image"; _] => mk_process initrd_report 0
       | _ => mk_process EmptyString 0
       end)
    (fun _ => "/tmp/tmp0").



(** ** Updating the boot configuration *)

(** [s.replace(old, new)] on strings, as [bytes_replace] on bytes. *)
Fixpoint str_replace_from (skip : nat) (old new s : string) : string :=
  match s with
  | EmptyString => EmptyString
  | String c s' =>
      match skip with
      | S k => str_replace_from k old new s'
      | O =>
          if String.prefix old s
          then new ++ str_replace_from (String.length old - 1) old new s'
          else String c (str_replace_from 0 old new s')
      end
  end.

Fixpoint insert_between (new s : string) : string :=
  match s with
  | EmptyString => EmptyString
  | String c r => String c (new ++ insert_between new r)
  end.

Definition str_replace (old new s : string) : string :=
  match old with
  | EmptyString => new ++ insert_between new s
  | String _ _ => str_replace_from 0 old new s
  end.

(** [re.search]: the text of the leftmost match, for a pattern whose match
    at the start of a text is [matcher]. *)
Fixpoint search_with (matcher : string -> option string) (s : string) :
    option string :=
  match matcher s with
  | Some g => Some g
  | None =>
      match s with
      | EmptyString => None
      | String _ r => search_with matcher r
      end
  end.

(** The digits from 0 to 9 that a text starts with. *)
Fixpoint take_digits (s : string) : string :=
  match s with
  | EmptyString => EmptyString
  | String c r => if is_digit c then String c (take_digits r) else EmptyString
  end.

Definition size_text : string := "androidboot.vbmeta.size = ".

Definition digest_text : string :=
  "androidboot.vbmeta.digest = " ++ String quote EmptyString.

(** The match of the size pattern at the start of [s]: the key, in which a
    dot stands for any character but a newline, and one or more digits. *)
Definition match_size (s : string) : option string :=
  match match_prefix (pattern_of size_text) s with
  | Some rest =>
      match take_digits rest with
      | EmptyString => None
      | digits =>
          Some (substring 0 (String.length size_text) s ++ digits)%string
      end
  | None => None
  end.

(** The match of the digest pattern at the start of [s]: the key, a
    quote, the characters up to the next quote, and that quote. *)
Definition match_digest (s : string) : option string :=
  match match_prefix (pattern_of "androidboot.vbmeta.digest = " ++ [Lit quote])
          s with
  | Some rest =>
      match until_quote rest with
      | Some g =>
          Some (substring 0 (String.length digest_text) s ++ g
                ++ String quote EmptyString)%string
      | None => None
      end
  | None => None
  end.

(** [calc_vbmeta_digest] *)
Definition calc_vbmeta_digest (w : world) (a : args) (vbmeta_img : string) :
    result string :=
  '(stdout, _) <- RunCommand w a
                    ["avbtool"; "calculate_vbmeta_digest"; "--image";
                     vbmeta_img; "--hash_algorithm"; "sha256"]
                    None None ;;
  Ok (strip stdout).

(** [update_vbmeta_digest] *)
Definition update_vbmeta_digest (w : world) (a : args) (vbmeta_img : string)
    (bootconfigs : string) : result string :=
  match search_with match_digest bootconfigs with
  | None => Raise (ValueError "Failed to find androidboot.vbmeta.digest")
  | Some group =>
      digest <- calc_vbmeta_digest w a vbmeta_img ;;
      Ok (str_replace group
            (digest_text ++ digest ++ String quote EmptyString) bootconfigs)
  end.

(** [update_vbmeta_size] *)
Definition update_vbmeta_size (w : world) (a : args) (vbmeta_img : string)
    (bootconfigs : string) : result string :=
  match search_with match_size bootconfigs with
  | None => Raise (ValueError "Failed to find androidboot.vbmeta.size")
  | Some group =>
      size <- calc_vbmeta_size w a vbmeta_img ;;
      text <- py_str size ;;
      Ok (str_replace group (size_text ++ text) bootconfigs)
  end.

Fixpoint all_digits (s : string) : bool :=
  match s with
  | EmptyString => true
  | String c r => is_digit c && all_digits r
  end.

Definition head_digit (s : string) : bool :=
  match s with
  | EmptyString => false
  | String c _ => is_digit c
  end.

(** A boot configuration, the size that the report of [vbmeta_world]
    gives, and a world whose tool prints a digest. *)
Definition sample_bootconfig : string :=
  lines_of
    [("androidboot.vbmeta.digest = " ++ String quote "00ff"
      ++ String quote EmptyString)%string;
     "androidboot.vbmeta.size = 1024";
     "androidboot.vbmeta.hash_alg = sha256"].

Definition digest_world : world :=
  mk_world [] (fun _ => true)
    (fun _ => mk_process ("a1b2c3" ++ String newline EmptyString) 0)
    (fun _ => "/tmp/tmp0").

(** * Properties *)

(** ** Dictionaries *)

Section DictFacts.
Context {V : Type}.

Lemma get_in_keys (k : string) (d : Dict.dict V) :
  Dict.get k d <> None <-> In k (Dict.keys d).
Proof.
  induction d as [|[k' v] r IH]; simpl.
  - split; [congruence | tauto].
  - destruct (String.eqb_spec k' k) as [->|Hne].
    + split; [auto | congruence].
    + rewrite IH. split; [auto | intros [H|H]; [congruence | exact H]].
Qed.

Lemma get_in_values (k : string) (d : Dict.dict V) (v : V) :
  Dict.get k d = Some v -> In v (Dict.values d).
Proof.
  induction d as [|[k' v'] r IH]; simpl; [discriminate|].
  destruct (k' =? k)%string.
  - intros [= ->]. now left.
  - intros H. right. now apply IH.
Qed.

Lemma get_remove_same (k : string) (d : Dict.dict V) :
  Dict.get k (Dict.remove k d) = None.
Proof.
  induction d as [|[k' v] r IH]; simpl; [reflexivity|].
  destruct (String.eqb_spec k' k) as [->|Hne]; simpl; [exact IH|].
  destruct (String.eqb_spec k' k); [contradiction | exact IH].
Qed.

Lemma get_remove_other (k k' : string) (d : Dict.dict V) :
  k <> k' -> Dict.get k' (Dict.remove k d) = Dict.get k' d.
Proof.
  intros Hne. induction d as [|[k0 v] r IH]; simpl; [reflexivity|].
  destruct (String.eqb_spec k0 k) as [->|Hk]; simpl.
  - destruct (String.eqb_spec k k'); [contradiction | exact IH].
  - destruct (k0 =? k')%string; [reflexivity | exact IH].
Qed.

Lemma get_set_same (k : string) (v : V) (d : Dict.dict V) :
  Dict.get k (Dict.set k v d) = Some v.
Proof.
  induction d as [|[k0 v0] r IH]; simpl.
  - now rewrite String.eqb_refl.
  - destruct (String.eqb_spec k0 k) as [->|Hk]; simpl.
    + now rewrite String.eqb_refl.
    + destruct (String.eqb_spec k0 k); [contradiction | exact IH].
Qed.

Lemma get_set_other (k k' : string) (v : V) (d : Dict.dict V) :
  k <> k' -> Dict.get k' (Dict.set k v d) = Dict.get k' d.
Proof.
  intros Hne. induction d as [|[k0 v0] r IH]; simpl.
  - destruct (String.eqb_spec k k'); [contradiction | reflexivity].
  - destruct (String.eqb_spec k0 k) as [->|Hk]; simpl.
    + destruct (String.eqb_spec k k'); [contradiction | reflexivity].
    + destruct (k0 =? k')%string; [reflexivity | exact IH].
Qed.

Lemma keys_set (k : string) (v : V) (d : Dict.dict V) :
  Dict.keys (Dict.set k v d) =
  if Dict.mem k d then Dict.keys d else Dict.keys d ++ [k].
Proof.
  unfold Dict.mem.
  induction d as [|[k0 v0] r IH]; simpl; [reflexivity|].
  destruct (String.eqb_spec k0 k) as [->|Hk]; simpl; [reflexivity|].
  rewrite IH. now destruct (Dict.get k r).
Qed.

Lemma wf_set (k : string) (v : V) (d : Dict.dict V) :
  Dict.wf d -> Dict.wf (Dict.set k v d).
Proof.
  unfold Dict.wf. intros Hd. rewrite keys_set. unfold Dict.mem.
  destruct (Dict.get k d) eqn:E; [exact Hd|].
  assert (Hn : ~ In k (Dict.keys d)).
  { intros Hin. apply get_in_keys in Hin. congruence. }
  clear E. induction (Dict.keys d) as [|x l IH]; simpl.
  - constructor; [tauto | constructor].
  - inversion Hd; subst. constructor.
    + rewrite in_app_iff. simpl. intros [H|[H|[]]]; [tauto|].
      subst. apply Hn. now left.
    + apply IH; [assumption|]. intros H. apply Hn. now right.
Qed.

Lemma wf_remove (k : string) (d : Dict.dict V) :
  Dict.wf d -> Dict.wf (Dict.remove k d).
Proof.
  unfold Dict.wf, Dict.remove, Dict.keys.
  induction d as [|[k0 v0] r IH]; simpl; intros Hd; [constructor|].
  inversion Hd; subst.
  destruct (negb (k0 =? k)%string); simpl; [|now apply IH].
  constructor; [|now apply IH].
  intros Hin. apply H1. apply in_map_iff in Hin as [[a b] [Ha Hb]].
  apply filter_In in Hb as [Hb _]. simpl in Ha. subst.
  apply in_map_iff. now exists (k0, b).
Qed.

End DictFacts.

(** ** Bytes *)

Lemma bytes_eqb_eq (a b : bytes) : bytes_eqb a b = true <-> a = b.
Proof.
  revert b. induction a as [|x a IH]; intros [|y b]; simpl;
    try (split; [discriminate | congruence]); [tauto|].
  rewrite andb_true_iff, IH. split.
  - intros [H ->]. apply Byte.byte_dec_bl in H. now subst.
  - intros [= -> ->]. split; [apply Byte.byte_dec_lb|]; reflexivity.
Qed.

Lemma bytes_eqb_refl (a : bytes) : bytes_eqb a a = true.
Proof. now apply bytes_eqb_eq. Qed.

Lemma starts_with_length (p s : bytes) :
  starts_with p s = true -> List.length p <= List.length s.
Proof.
  revert s. induction p as [|x p IH]; intros [|y s]; simpl;
    try discriminate; try lia.
  rewrite andb_true_iff. intros [_ H]. apply IH in H. lia.
Qed.

Lemma starts_with_app (p s : bytes) :
  starts_with p s = true <-> exists t, s = p ++ t.
Proof.
  revert s. induction p as [|x p IH]; intros s; simpl.
  - split; [intros _; now exists s | reflexivity].
  - destruct s as [|y s].
    + split; [discriminate | intros [t Ht]; discriminate].
    + rewrite andb_true_iff, IH. split.
      * intros [H [t ->]]. apply Byte.byte_dec_bl in H. subst. now exists t.
      * intros [t [= -> ->]]. split; [now apply Byte.byte_dec_lb | now exists t].
Qed.

Lemma contains_app (old s : bytes) :
  contains old s = true <-> exists pre post, s = pre ++ old ++ post.
Proof.
  induction s as [|b s IH].
  - simpl. rewrite orb_false_r, starts_with_app. split.
    + intros [t Ht]. now exists [], t.
    + intros [pre [post H]]. destruct pre; simpl in H; [now exists post|discriminate].
  - change (contains old (b :: s)) with (starts_with old (b :: s) || contains old s).
    rewrite orb_true_iff, IH, starts_with_app. split.
    + intros [[t Ht]|[pre [post H]]].
      * now exists [], t.
      * exists (b :: pre), post. simpl. now f_equal.
    + intros [[|x pre] [post H]]; simpl in H.
      * left. now exists post.
      * right. injection H as -> ->. now exists pre, post.
Qed.

Lemma replace_from_length (old new : bytes) :
  old <> [] -> List.length new = List.length old ->
  forall s k, List.length (replace_from k old new s) = List.length s - k.
Proof.
  intros Hne Hlen. induction s as [|b s IH]; intros k; simpl; [reflexivity|].
  destruct k as [|k]; [|apply IH].
  destruct (starts_with old (b :: s)) eqn:E.
  - apply starts_with_length in E. simpl in E.
    rewrite length_app, IH, Hlen.
    destruct old; [contradiction|]. simpl in *. lia.
  - simpl. rewrite IH. lia.
Qed.

Lemma bytes_replace_length (old new s : bytes) :
  List.length new = List.length old ->
  List.length (bytes_replace old new s) = List.length s.
Proof.
  intros Hlen. destruct old as [|x old].
  - destruct new; [|discriminate]. simpl.
    induction s; simpl; [reflexivity | now f_equal].
  - unfold bytes_replace. rewrite replace_from_length; [lia|discriminate|exact Hlen].
Qed.

Lemma replace_from_absent (old new s : bytes) :
  contains old s = false -> replace_from 0 old new s = s.
Proof.
  induction s as [|b s IH]; [reflexivity|].
  change (contains old (b :: s)) with (starts_with old (b :: s) || contains old s).
  rewrite orb_false_iff. intros [H1 H2].
  change (replace_from 0 old new (b :: s)) with
    (if starts_with old (b :: s)
     then new ++ replace_from (List.length old - 1) old new s
     else b :: replace_from 0 old new s).
  rewrite H1. f_equal. now apply IH.
Qed.

Lemma bytes_replace_absent (old new s : bytes) :
  contains old s = false -> bytes_replace old new s = s.
Proof.
  destruct old as [|x old]; [destruct s; discriminate|].
  apply replace_from_absent.
Qed.

Lemma bytes_replace_changed (old new s : bytes) :
  bytes_replace old new s <> s -> contains old s = true.
Proof.
  intros H. destruct (contains old s) eqn:E; [reflexivity|].
  now apply bytes_replace_absent with (new := new) in E.
Qed.

(** ** The digest patch of one kernel *)

Lemma bind_ok {A B : Type} (r : result A) (k : A -> result B) (b : B) :
  bind r k = Ok b -> exists a, r = Ok a /\ k a = Ok b.
Proof. destruct r as [a|e]; simpl; [now exists a | discriminate]. Qed.

Lemma assert_ok (c : bool) (msg : string) (u : unit) :
  assert c msg = Ok u -> c = true.
Proof. destruct c; [reflexivity | discriminate]. Qed.

Ltac bind_inv H :=
  let a := fresh "x" in
  let E := fresh "E" in
  apply bind_ok in H as [a [E H]].

Lemma str_in_In (x : string) (l : list string) : str_in x l = true <-> In x l.
Proof.
  unfold str_in. rewrite existsb_exists. split.
  - intros [y [Hy E]]. apply String.eqb_eq in E. now subst.
  - intros H. exists x. split; [exact H | apply String.eqb_refl].
Qed.

Lemma set_eqb_iff (a b : list string) :
  set_eqb a b = true <-> forall x, In x a <-> In x b.
Proof.
  unfold set_eqb. rewrite andb_true_iff, !forallb_forall. split.
  - intros [H1 H2] x. split; intros H.
    + apply str_in_In. now apply H1.
    + apply str_in_In. now apply H2.
  - intros H. split; intros x Hx; apply str_in_In; now apply H.
Qed.

Lemma isdisjoint_neq (a b : list bytes) (o u : bytes) :
  isdisjoint a b = true -> In o a -> In u b -> o <> u.
Proof.
  unfold isdisjoint. rewrite forallb_forall. intros H Ho Hu ->.
  specialize (H u Hu). apply negb_true_iff in H.
  assert (existsb (bytes_eqb u) a = true); [|congruence].
  apply existsb_exists. exists u. split; [exact Ho | apply bytes_eqb_refl].
Qed.

Lemma patch_partitions_ok (items : list (string * bytes))
    (ud : Dict.dict bytes) (c c' : bytes) :
  patch_partitions items ud c = Ok c' ->
  patched_in_turn items ud c c' /\ List.length c' = List.length c /\
  forall p o, In (p, o) items ->
    exists u, Dict.get p ud = Some u /\ List.length o = List.length u.
Proof.
  revert c. induction items as [|[p o] rest IH]; intros c H; simpl in H.
  - injection H as <-. simpl. repeat split. intros p o [].
  - bind_inv H. unfold Dict.getitem in E.
    destruct (Dict.get p ud) as [u|] eqn:Eu; [|discriminate]. injection E as <-.
    bind_inv H. apply assert_ok in E. apply Nat.eqb_eq in E.
    bind_inv H. apply assert_ok in E0. apply Nat.eqb_eq in E0.
    bind_inv H. apply assert_ok in E1. apply negb_true_iff in E1.
    apply IH in H as [H1 [H2 H3]]. split; [|split].
    + simpl. exists u. repeat split; [exact Eu | | exact H1].
      apply bytes_replace_changed with (new := u).
      intros Heq. rewrite Heq, bytes_eqb_refl in E1. discriminate.
    + congruence.
    + intros p' o' [[= <- <-]|Hin]; [now exists u | now apply H3].
Qed.

Lemma patch_partitions_absent (p : string) (o : bytes)
    (rest : list (string * bytes)) (ud : Dict.dict bytes) (c : bytes) :
  contains o c = false ->
  exists e, patch_partitions ((p, o) :: rest) ud c = Raise e.
Proof.
  intros Habs.
  destruct (patch_partitions ((p, o) :: rest) ud c) as [c'|e] eqn:E;
    [|now exists e].
  apply patch_partitions_ok in E as [E _]. simpl in E.
  destruct E as [u [_ [E _]]]. congruence.
Qed.

Lemma in_remove_get {V : Type} (k p : string) (v : V) (d : Dict.dict V) :
  Dict.wf d -> In (p, v) (Dict.remove k d) -> p <> k /\ Dict.get p d = Some v.
Proof.
  unfold Dict.remove. intros Hwf Hin. apply filter_In in Hin as [Hin Hk].
  simpl in Hk. apply negb_true_iff, String.eqb_neq in Hk. split; [exact Hk|].
  induction d as [|[k0 v0] r IH]; simpl in *; [contradiction|].
  inversion Hwf; subst. destruct Hin as [[= -> ->]|Hin].
  - now rewrite String.eqb_refl.
  - destruct (String.eqb_spec k0 p) as [->|Hne]; [|now apply IH].
    exfalso. apply H1. apply in_map_iff. now exists (p, v).
Qed.

Lemma hash_comprehension_wf {A : Type} (f : dvalue -> result A)
    (descs : list dvalue) (acc d : Dict.dict A) :
  Dict.wf acc -> hash_comprehension f descs acc = Ok d -> Dict.wf d.
Proof.
  revert acc. induction descs as [|x rest IH]; intros acc Hacc H; simpl in H.
  - now injection H as <-.
  - bind_inv H. bind_inv H. eapply IH; [|exact H]. now apply wf_set.
Qed.

Lemma extract_hash_descriptors_wf {A : Type}
    (descs : option (list descriptor)) (f : dvalue -> result A)
    (d : Dict.dict A) :
  extract_hash_descriptors descs f = Ok d -> Dict.wf d.
Proof.
  unfold extract_hash_descriptors. intros H. bind_inv H.
  eapply hash_comprehension_wf; [|exact H]. constructor.
Qed.

Lemma update_initrd_digests_in_rialto_unfold
    (AvbInfo_at : string -> result avbinfo)
    (original_descriptors : option (list descriptor))
    (files : Dict.dict string) (kernel_name : string) (content : bytes)
    (path : string) (updated : avbinfo) (od ud : Dict.dict bytes)
    (bo bu : bytes) :
  Dict.get kernel_name files = Some path ->
  AvbInfo_at path = Ok updated ->
  extract_hash_descriptors original_descriptors digest_of = Ok od ->
  extract_hash_descriptors (descriptors_of updated) digest_of = Ok ud ->
  Dict.get "boot" od = Some bo ->
  Dict.get "boot" ud = Some bu ->
  update_initrd_digests_in_rialto AvbInfo_at original_descriptors files
    kernel_name content =
  (_ <- assert (bytes_eqb bo bu) "Hash descriptor of boot should not change" ;;
   _ <- assert (set_eqb (Dict.keys (Dict.remove "boot" od))
                        (Dict.keys (Dict.remove "boot" ud))
                && set_eqb (Dict.keys (Dict.remove "boot" ud)) partition_names)
          "Original digests' partitions should be initrd_normal, initrd_debug" ;;
   _ <- assert (isdisjoint (Dict.values (Dict.remove "boot" od))
                           (Dict.values (Dict.remove "boot" ud)))
          "Digests of initrd_normal and initrd_debug should change." ;;
   patch_partitions (Dict.remove "boot" od) (Dict.remove "boot" ud) content).
Proof.
  intros Hp Ha Ho Hu Hbo Hbu. unfold update_initrd_digests_in_rialto.
  unfold Dict.getitem. rewrite Hp. simpl. rewrite Ha. simpl.
  rewrite Ho. simpl. rewrite Hu. simpl.
  unfold Dict.pop. rewrite Hbo, Hbu. reflexivity.
Qed.

Lemma update_initrd_digests_in_rialto_inv
    (AvbInfo_at : string -> result avbinfo)
    (original_descriptors : option (list descriptor))
    (files : Dict.dict string) (kernel_name : string)
    (content content' : bytes) :
  update_initrd_digests_in_rialto AvbInfo_at original_descriptors files
    kernel_name content = Ok content' ->
  exists path updated od ud bo bu,
    Dict.get kernel_name files = Some path /\
    AvbInfo_at path = Ok updated /\
    extract_hash_descriptors original_descriptors digest_of = Ok od /\
    extract_hash_descriptors (descriptors_of updated) digest_of = Ok ud /\
    Dict.get "boot" od = Some bo /\ Dict.get "boot" ud = Some bu.
Proof.
  unfold update_initrd_digests_in_rialto. intros H.
  bind_inv H. unfold Dict.getitem in E.
  destruct (Dict.get kernel_name files) as [path|] eqn:Ep; [|discriminate].
  injection E as <-.
  bind_inv H. rename x into updated.
  bind_inv H. rename x into od.
  bind_inv H. rename x into ud.
  bind_inv H. destruct x as [bo od']. unfold Dict.pop in E2.
  destruct (Dict.get "boot" od) as [bo'|] eqn:Ebo; [|discriminate].
  bind_inv H. destruct x as [bu ud']. unfold Dict.pop in E3.
  destruct (Dict.get "boot" ud) as [bu'|] eqn:Ebu; [|discriminate].
  exists path, updated, od, ud, bo', bu'. repeat split; assumption.
Qed.

Lemma patched_not_missing (items : list (string * bytes))
    (ud : Dict.dict bytes) (c c' : bytes) :
  patched_in_turn items ud c c' -> ~ digest_missing items ud c.
Proof.
  revert c. induction items as [|[p o] rest IH]; intros c; simpl; [tauto|].
  intros [u [Hu [Hc Hrest]]] [Habs|[u' [Hu' Hm]]]; [congruence|].
  assert (u' = u) by congruence. subst. now apply IH in Hrest.
Qed.

Lemma rialto_patch_ok
    (AvbInfo_at : string -> result avbinfo)
    (original_descriptors : option (list descriptor))
    (files : Dict.dict string) (kernel_name : string)
    (content content' : bytes) :
  update_initrd_digests_in_rialto AvbInfo_at original_descriptors files
    kernel_name content = Ok content' ->
  exists path updated od ud,
    Dict.get kernel_name files = Some path /\
    AvbInfo_at path = Ok updated /\
    extract_hash_descriptors original_descriptors digest_of = Ok od /\
    extract_hash_descriptors (descriptors_of updated) digest_of = Ok ud /\
    (exists b, Dict.get "boot" od = Some b /\ Dict.get "boot" ud = Some b) /\
    exactly_initrd_partitions (Dict.remove "boot" od) /\
    exactly_initrd_partitions (Dict.remove "boot" ud) /\
    (forall p o, In (p, o) (Dict.remove "boot" od) ->
       exists u, Dict.get p ud = Some u /\ o <> u /\
                 List.length o = List.length u) /\
    patched_in_turn (Dict.remove "boot" od) (Dict.remove "boot" ud)
      content content' /\
    List.length content' = List.length content.
Proof.
  intros H.
  destruct (update_initrd_digests_in_rialto_inv _ _ _ _ _ _ H)
    as (path & updated & od & ud & bo & bu & Hp & Ha & Ho & Hu & Hbo & Hbu).
  rewrite (update_initrd_digests_in_rialto_unfold _ _ _ _ _ _ _ _ _ _ _
             Hp Ha Ho Hu Hbo Hbu) in H.
  bind_inv H. apply assert_ok, bytes_eqb_eq in E. subst bu.
  bind_inv H. apply assert_ok, andb_true_iff in E as [Ek1 Ek2].
  bind_inv H. apply assert_ok in E.
  rewrite set_eqb_iff in Ek1, Ek2.
  assert (Hnames : forall p, In p partition_names <->
                             p = "initrd_normal" \/ p = "initrd_debug").
  { intros p. unfold partition_names. simpl. intuition congruence. }
  apply patch_partitions_ok in H as [Hturn [Hlen Hitems]].
  exists path, updated, od, ud. unfold exactly_initrd_partitions.
  repeat split; try assumption.
  - now exists bo.
  - intros Hin. apply Hnames, Ek2, Ek1, Hin.
  - intros Hin. apply Ek1, Ek2, Hnames, Hin.
  - intros Hin. apply Hnames, Ek2, Hin.
  - intros Hin. apply Ek2, Hnames, Hin.
  - intros p o Hin. destruct (Hitems p o Hin) as [u [Hgu Hl]].
    assert (Hne : "boot" <> p).
    { apply in_remove_get in Hin as [Hne _];
        [congruence | now apply extract_hash_descriptors_wf in Ho]. }
    exists u. repeat split.
    + now rewrite get_remove_other in Hgu.
    + eapply isdisjoint_neq; [exact E | |].
      * unfold Dict.values. apply in_map_iff. now exists (p, o).
      * eapply get_in_values. exact Hgu.
    + exact Hl.
Qed.

Lemma rialto_patch_check_fails
    (AvbInfo_at : string -> result avbinfo)
    (original_descriptors : option (list descriptor))
    (files : Dict.dict string) (kernel_name : string) (content : bytes)
    (path : string) (updated : avbinfo) (od ud : Dict.dict bytes) :
  Dict.get kernel_name files = Some path ->
  AvbInfo_at path = Ok updated ->
  extract_hash_descriptors original_descriptors digest_of = Ok od ->
  extract_hash_descriptors (descriptors_of updated) digest_of = Ok ud ->
  patch_check_fails od ud content ->
  exists e, update_initrd_digests_in_rialto AvbInfo_at original_descriptors
              files kernel_name content = Raise e.
Proof.
  intros Hp Ha Ho Hu Hfail.
  destruct (update_initrd_digests_in_rialto AvbInfo_at original_descriptors
              files kernel_name content) as [c'|e] eqn:E; [|now exists e].
  exfalso. apply rialto_patch_ok in E
    as (path' & updated' & od' & ud' & Hp' & Ha' & Ho' & Hu' & Hb & Hk1 & Hk2
        & Hd & Ht & _).
  assert (path' = path) by congruence. subst path'.
  assert (updated' = updated) by congruence. subst updated'.
  assert (od' = od) by congruence. subst od'.
  assert (ud' = ud) by congruence. subst ud'.
  destruct Hfail as [(bo & bu & Hbo & Hbu & Hne)|[H|[H|[H|H]]]].
  - destruct Hb as [b [Hb1 Hb2]]. congruence.
  - contradiction.
  - contradiction.
  - destruct H as (p & o & u & Hin & Hg & Hl).
    destruct (Hd p o Hin) as (u' & Hg' & _ & Hl'). congruence.
  - now apply patched_not_missing in Ht.
Qed.

(** C1, amended.  When the digest patch of one kernel returns, the digest
    of [boot] is the same in the old and the new descriptors, the
    remaining partitions of both are exactly [initrd_normal] and
    [initrd_debug], each old digest differs from the new digest of its
    partition and has its length, every occurrence of each old digest in
    the blob (at least one, when the partition's turn comes) is replaced by
    the new digest, and the blob keeps its length.  A changed [boot] digest
    raises, and so does an old digest absent from the blob at its turn. *)
Theorem update_initrd_digests_in_rialto_patch
    (AvbInfo_at : string -> result avbinfo)
    (original_descriptors : option (list descriptor))
    (files : Dict.dict string) (kernel_name : string) (content : bytes) :
  (forall content',
     update_initrd_digests_in_rialto AvbInfo_at original_descriptors files
       kernel_name content = Ok content' ->
     exists path updated od ud,
       Dict.get kernel_name files = Some path /\
       AvbInfo_at path = Ok updated /\
       extract_hash_descriptors original_descriptors digest_of = Ok od /\
       extract_hash_descriptors (descriptors_of updated) digest_of = Ok ud /\
       (exists b, Dict.get "boot" od = Some b /\ Dict.get "boot" ud = Some b) /\
       (forall p, In p (Dict.keys (Dict.remove "boot" od)) <->
                  p = "initrd_normal" \/ p = "initrd_debug") /\
       (forall p, In p (Dict.keys (Dict.remove "boot" ud)) <->
                  p = "initrd_normal" \/ p = "initrd_debug") /\
       (forall p o, In (p, o) (Dict.remove "boot" od) ->
          exists u, Dict.get p ud = Some u /\ o <> u /\
                    List.length o = List.length u) /\
       patched_in_turn (Dict.remove "boot" od) (Dict.remove "boot" ud)
         content content' /\
       List.length content' = List.length content) /\
  (forall path updated od ud,
     Dict.get kernel_name files = Some path ->
     AvbInfo_at path = Ok updated ->
     extract_hash_descriptors original_descriptors digest_of = Ok od ->
     extract_hash_descriptors (descriptors_of updated) digest_of = Ok ud ->
     (forall bo bu,
        Dict.get "boot" od = Some bo -> Dict.get "boot" ud = Some bu ->
        bo <> bu ->
        exists e, update_initrd_digests_in_rialto AvbInfo_at
                    original_descriptors files kernel_name content = Raise e) /\
     (digest_missing (Dict.remove "boot" od) (Dict.remove "boot" ud) content ->
      exists e, update_initrd_digests_in_rialto AvbInfo_at
                  original_descriptors files kernel_name content = Raise e)).
Proof.
  split.
  - intros content' H. exact (rialto_patch_ok _ _ _ _ _ _ H).
  - intros path updated od ud Hp Ha Ho Hu. split.
    + intros bo bu Hbo Hbu Hne.
      eapply rialto_patch_check_fails; eauto.
      left. now exists bo, bu.
    + intros Hm. eapply rialto_patch_check_fails; eauto.
      right. right. right. now right.
Qed.

Lemma update_initrd_digests_in_rialto_patch_witness :
  update_initrd_digests_in_rialto twice_avbinfo (Some twice_original)
    twice_files "kernel" twice_blob = Ok [xbb; x11; xbb; xdd] /\
  List.length [xbb; x11; xbb; xdd] = List.length twice_blob.
Proof.
  split; [reflexivity|].
  destruct (proj1 (update_initrd_digests_in_rialto_patch twice_avbinfo
                     (Some twice_original) twice_files "kernel" twice_blob)
              [xbb; x11; xbb; xdd] eq_refl)
    as (path & updated & od & ud & _ & _ & _ & _ & _ & _ & _ & _ & _ & H).
  exact H.
Defined.

(** C1 as the specification states it fails: with the old digest of
    [initrd_normal] twice in the blob the patch returns, both occurrences
    are replaced, and the result is not the blob with only the first
    occurrence of each old digest replaced. *)
Lemma update_initrd_digests_in_rialto_replaces_all :
  update_initrd_digests_in_rialto twice_avbinfo (Some twice_original)
    twice_files "kernel" twice_blob = Ok [xbb; x11; xbb; xdd] /\
  first_occurrence_patch [("initrd_normal", [xaa]); ("initrd_debug", [xcc])]
    [("initrd_normal", [xbb]); ("initrd_debug", [xdd])] twice_blob
    = [xbb; x11; xaa; xdd] /\
  ~ (forall content',
       update_initrd_digests_in_rialto twice_avbinfo (Some twice_original)
         twice_files "kernel" twice_blob = Ok content' ->
       content' =
       first_occurrence_patch
         [("initrd_normal", [xaa]); ("initrd_debug", [xcc])]
         [("initrd_normal", [xbb]); ("initrd_debug", [xdd])] twice_blob).
Proof.
  split; [reflexivity|]. split; [reflexivity|].
  intros H. specialize (H _ eq_refl). discriminate H.
Qed.

(** ** The digest patch of all kernels *)

Lemma patch_kernels_app (AvbInfo_at : string -> result avbinfo)
    (before after : list (string * option (list descriptor)))
    (files : Dict.dict string) (content : bytes) :
  patch_kernels AvbInfo_at (before ++ after) files content =
  (c <- patch_kernels AvbInfo_at before files content ;;
   patch_kernels AvbInfo_at after files c).
Proof.
  revert content. induction before as [|[k d] r IH]; intros content; simpl.
  - reflexivity.
  - destruct (update_initrd_digests_in_rialto AvbInfo_at d files k content);
      simpl; [apply IH | reflexivity].
Qed.

(** C6.  When the digest patch of the kernels raises, the file system, and
    with it the blob, is what it was.  It raises as soon as the patch of one
    kernel raises on the blob patched so far, which any of the four failed
    checks causes: a changed [boot] digest, partitions other than
    [initrd_normal] and [initrd_debug], digests of different lengths, an old
    digest absent from the blob.  The blob is written only when the patch of
    every kernel has returned. *)
Theorem update_initrd_digests_of_kernels_in_rialto_atomic
    (AvbInfo_at : string -> result avbinfo)
    (original_kernels : Dict.dict (option (list descriptor))) (a : args)
    (files : Dict.dict string) (fs : filesystem) :
  (forall e fs',
     update_initrd_digests_of_kernels_in_rialto AvbInfo_at original_kernels a
       files fs = (Raise e, fs') -> fs' = fs) /\
  (forall before kernel_name descriptors after rialto content c e,
     do_not_update_bootconfigs a = false ->
     original_kernels = before ++ (kernel_name, descriptors) :: after ->
     Dict.get "rialto" files = Some rialto ->
     Dict.get rialto fs = Some content ->
     patch_kernels AvbInfo_at before files content = Ok c ->
     update_initrd_digests_in_rialto AvbInfo_at descriptors files kernel_name c
       = Raise e ->
     update_initrd_digests_of_kernels_in_rialto AvbInfo_at original_kernels a
       files fs = (Raise e, fs)) /\
  (forall before kernel_name descriptors after rialto content c
          path updated od ud,
     do_not_update_bootconfigs a = false ->
     original_kernels = before ++ (kernel_name, descriptors) :: after ->
     Dict.get "rialto" files = Some rialto ->
     Dict.get rialto fs = Some content ->
     patch_kernels AvbInfo_at before files content = Ok c ->
     Dict.get kernel_name files = Some path ->
     AvbInfo_at path = Ok updated ->
     extract_hash_descriptors descriptors digest_of = Ok od ->
     extract_hash_descriptors (descriptors_of updated) digest_of = Ok ud ->
     patch_check_fails od ud c ->
     exists e,
       update_initrd_digests_of_kernels_in_rialto AvbInfo_at original_kernels
         a files fs = (Raise e, fs)) /\
  (forall fs',
     do_not_update_bootconfigs a = false ->
     update_initrd_digests_of_kernels_in_rialto AvbInfo_at original_kernels a
       files fs = (Ok tt, fs') ->
     exists rialto content content',
       Dict.get "rialto" files = Some rialto /\
       Dict.get rialto fs = Some content /\
       patch_kernels AvbInfo_at original_kernels files content = Ok content' /\
       fs' = Dict.set rialto content' fs).
Proof.
  assert (Hstep : forall before kernel_name descriptors after rialto content c e,
     do_not_update_bootconfigs a = false ->
     original_kernels = before ++ (kernel_name, descriptors) :: after ->
     Dict.get "rialto" files = Some rialto ->
     Dict.get rialto fs = Some content ->
     patch_kernels AvbInfo_at before files content = Ok c ->
     update_initrd_digests_in_rialto AvbInfo_at descriptors files kernel_name c
       = Raise e ->
     update_initrd_digests_of_kernels_in_rialto AvbInfo_at original_kernels a
       files fs = (Raise e, fs)).
  { intros before k d after rialto content c e Hflag -> Hr Hc Hb He.
    unfold update_initrd_digests_of_kernels_in_rialto, Dict.getitem, read_file.
    rewrite Hflag, Hr. simpl. rewrite Hc. simpl.
    rewrite patch_kernels_app, Hb. simpl. rewrite He. reflexivity. }
  repeat split.
  - intros e fs'. unfold update_initrd_digests_of_kernels_in_rialto.
    destruct (do_not_update_bootconfigs a); [discriminate|].
    destruct (bind _ _) as [[r c]|e']; [discriminate | congruence].
  - exact Hstep.
  - intros before k d after rialto content c path updated od ud
      Hflag Hk Hr Hc Hb Hp Ha Ho Hu Hfail.
    destruct (rialto_patch_check_fails AvbInfo_at d files k c path updated
                od ud Hp Ha Ho Hu Hfail) as [e He].
    exists e. eapply Hstep; eauto.
  - intros fs' Hflag. unfold update_initrd_digests_of_kernels_in_rialto.
    rewrite Hflag. unfold Dict.getitem, read_file.
    destruct (Dict.get "rialto" files) as [rialto|]; simpl; [|discriminate].
    destruct (Dict.get rialto fs) as [content|] eqn:Ec; simpl; [|discriminate].
    destruct (patch_kernels AvbInfo_at original_kernels files content)
      as [content'|e] eqn:Ek; simpl; [|discriminate].
    intros [= <-]. exists rialto, content, content'. auto.
Qed.

Lemma update_initrd_digests_of_kernels_in_rialto_atomic_witness :
  exists e,
    update_initrd_digests_of_kernels_in_rialto twice_avbinfo
      [("kernel", Some twice_original)] plain_args rialto_files absent_fs
    = (Raise e, absent_fs).
Proof.
  refine (proj1 (proj2 (proj2
            (update_initrd_digests_of_kernels_in_rialto_atomic twice_avbinfo
               [("kernel", Some twice_original)] plain_args rialto_files
               absent_fs)))
            [] "kernel" (Some twice_original) [] "etc/rialto.bin" absent_blob
            absent_blob "etc/fs/microdroid_kernel" (Some ([], twice_updated))
            [("boot", [x00]); ("initrd_normal", [xaa]); ("initrd_debug", [xcc])]
            [("boot", [x00]); ("initrd_normal", [xbb]); ("initrd_debug", [xdd])]
            eq_refl eq_refl eq_refl eq_refl eq_refl eq_refl eq_refl eq_refl
            eq_refl _).
  right. right. right. right. left. reflexivity.
Defined.

(** ** The order of strings *)

Lemma str_leb_refl (a : string) : (a <=? a)%string = true.
Proof.
  unfold String.leb.
  assert (H : (a ?= a)%string = Eq) by now apply String_as_OT.cmp_eq.
  now rewrite H.
Qed.

Lemma str_leb_trans (a b c : string) :
  (a <=? b)%string = true -> (b <=? c)%string = true -> (a <=? c)%string = true.
Proof.
  unfold String.leb. intros Hab Hbc.
  destruct (a ?= b)%string eqn:Eab; [| |discriminate].
  - apply String_as_OT.cmp_eq in Eab. now subst.
  - destruct (b ?= c)%string eqn:Ebc; [| |discriminate].
    + apply String_as_OT.cmp_eq in Ebc. subst. now rewrite Eab.
    + apply String_as_OT.cmp_lt in Eab, Ebc.
      assert (H : (a ?= c)%string = Lt).
      { apply String_as_OT.cmp_lt. eapply String_as_OT.lt_trans; eauto. }
      now rewrite H.
Qed.

Lemma str_ltb_leb (a b : string) : (a <? b)%string = negb (b <=? a)%string.
Proof.
  unfold String.ltb, String.leb. rewrite (String.compare_antisym b a).
  now destruct (a ?= b)%string.
Qed.

(** ** The parser *)

Lemma matched_app (l1 l2 : list string) :
  matched (l1 ++ l2) = matched l1 ++ matched l2.
Proof.
  induction l1 as [|x l1 IH]; simpl; [reflexivity|].
  destruct (match_line x); simpl; now rewrite IH.
Qed.

Lemma setitem_at_last (l : list descriptor) (name key value : string)
    (v : dvalue) :
  setitem_at (List.length l) key value (l ++ [(name, v)]) =
  match v with
  | DDict d => Ok (l ++ [(name, DDict (Dict.set key value d))])
  | DStr _ => Raise (TypeError "'str' object does not support item assignment")
  end.
Proof.
  induction l as [|x l IH]; simpl.
  - now destruct v.
  - rewrite IH. destruct x as [n [s|d]]; now destruct v.
Qed.

Lemma attach_nearest_none (indent key value : string) (nodes : list node) :
  (forall n, In n nodes -> (indent <=? n_indent n)%string = true) ->
  attach_nearest indent key value nodes = None.
Proof.
  induction nodes as [|n older IH]; intros H; simpl; [reflexivity|].
  rewrite str_ltb_leb, (H n (or_introl eq_refl)). simpl.
  rewrite IH; [reflexivity|]. intros m Hm. apply H. now right.
Qed.

Lemma ReadDescriptors_loop_nesting (gen : list row) :
  forall line cur_indent ref descriptors nodes final,
    loop_inv cur_indent ref descriptors nodes ->
    ReadDescriptors_loop gen cur_indent ref descriptors = Ok final ->
    final = map render (rev (place_all line gen nodes)) /\
    (forall n, In n (place_all line gen nodes) ->
       n_name n = "Prop" -> n_fields n = Dict.empty).
Proof.
  induction gen as [|[[indent key] value] gen IH];
    intros line cur_indent ref descriptors nodes final Hinv H.
  - simpl in *. destruct Hinv as (h & older & -> & _ & _ & -> & _ & Hp).
    injection H as <-. split; [reflexivity | exact Hp].
  - destruct Hinv as (h & older & -> & Hind & -> & -> & Hmin & Hp).
    simpl in H.
    change (place_all line ((indent, key, value) :: gen) (h :: older))
      with (place_all (S line) gen (place line (indent, key, value) (h :: older))).
    unfold place.
    destruct (indent <=? cur_indent)%string eqn:Ele.
    + rewrite attach_nearest_none.
      2:{ intros n Hn. eapply str_leb_trans; [exact Ele | now apply Hmin]. }
      eapply IH; [|exact H].
      exists (mk_node line indent key value Dict.empty), (h :: older).
      repeat split.
      * rewrite ?length_map, ?length_app, ?length_rev. simpl. lia.
      * simpl. rewrite !map_app. simpl. unfold render at 3. simpl.
        unfold new_descriptor. reflexivity.
      * intros n [<-|Hn]; [apply str_leb_refl|].
        eapply str_leb_trans; [exact Ele | now apply Hmin].
      * intros n [<-|Hn]; [reflexivity | now apply Hp].
    + cbn [attach_nearest]. rewrite str_ltb_leb, Hind, Ele. cbn [negb].
      bind_inv H. simpl rev in E. rewrite map_app in E. simpl in E.
      replace (List.length older) with
        (List.length (map render (rev older))) in E
        by now rewrite length_map, length_rev.
      destruct (render h) as [nm v] eqn:Er. rewrite setitem_at_last in E.
      unfold render in Er.
      destruct (n_name h =? "Prop")%string eqn:Eprop;
        injection Er as <- <-; [discriminate|].
      injection E as <-.
      eapply IH; [|exact H].
      exists (add_field key value h), older. repeat split.
      * exact Hind.
      * simpl. rewrite map_app. simpl. f_equal. unfold render. simpl.
        now rewrite Eprop.
      * intros n [<-|Hn]; simpl; [rewrite <- Hind; apply str_leb_refl|].
        apply Hmin. now right.
      * intros n [<-|Hn]; simpl.
        -- intros Hn. rewrite Hn in Eprop. discriminate.
        -- apply Hp. now right.
Qed.

Lemma attach_nearest_pos (indent key value : string) (nodes nodes' : list node) :
  attach_nearest indent key value nodes = Some nodes' ->
  map node_pos nodes' = map node_pos nodes.
Proof.
  revert nodes'. induction nodes as [|n older IH]; intros nodes'; simpl;
    [discriminate|].
  destruct (n_indent n <? indent)%string.
  - intros [= <-]. reflexivity.
  - destruct (attach_nearest indent key value older) as [o|]; [|discriminate].
    intros [= <-]. simpl. f_equal. now apply IH.
Qed.

Lemma StronglySorted_snoc (l : list nat) (a : nat) :
  StronglySorted lt l -> Forall (fun x => x < a) l ->
  StronglySorted lt (l ++ [a]).
Proof.
  induction l as [|x l IH]; intros Hs Hf; simpl.
  - repeat constructor.
  - inversion Hs; subst. inversion Hf; subst. constructor.
    + now apply IH.
    + apply Forall_app. split; [assumption | now repeat constructor].
Qed.

Lemma StronglySorted_rev (l : list nat) :
  StronglySorted gt l -> StronglySorted lt (rev l).
Proof.
  induction l as [|x l IH]; intros Hs; simpl; [constructor|].
  inversion Hs; subst. apply StronglySorted_snoc; [now apply IH|].
  apply Forall_forall. intros y Hy. apply in_rev in Hy.
  rewrite Forall_forall in H2. now apply H2.
Qed.

(** The nodes placed so far sit at decreasing positions below [line], each
    at the position of its own line. *)
Lemma place_all_positions (rows : list row) :
  forall (seen : list row) (nodes : list node),
    StronglySorted gt (map fst (map node_pos nodes)) ->
    (forall p, In p (map node_pos nodes) ->
       fst p < List.length seen /\ nth_error seen (fst p) = Some (snd p)) ->
    let nodes' := place_all (List.length seen) rows nodes in
    StronglySorted gt (map fst (map node_pos nodes')) /\
    (forall p, In p (map node_pos nodes') ->
       nth_error (seen ++ rows) (fst p) = Some (snd p)).
Proof.
  induction rows as [|[[indent key] value] rows IH]; intros seen nodes Hs Hp.
  - simpl. split; [exact Hs|]. intros p Hin. rewrite app_nil_r.
    now apply Hp.
  - cbn zeta.
    change (place_all (List.length seen) ((indent, key, value) :: rows) nodes)
      with (place_all (S (List.length seen)) rows
              (place (List.length seen) (indent, key, value) nodes)).
    replace (S (List.length seen))
      with (List.length (seen ++ [(indent, key, value)]))
      by (rewrite length_app; simpl; lia).
    assert (Heq : forall r : row, seen ++ r :: rows = (seen ++ [r]) ++ rows)
      by (intros r; now rewrite <- app_assoc).
    rewrite Heq. clear Heq.
    apply IH.
    + unfold place.
      destruct (attach_nearest indent key value nodes) as [nodes'|] eqn:E.
      * now rewrite (attach_nearest_pos _ _ _ _ _ E).
      * simpl. constructor; [exact Hs|].
        apply Forall_forall. intros y Hy. apply in_map_iff in Hy as [p [<- Hin]].
        apply Hp in Hin. unfold gt. tauto.
    + intros p Hin. unfold place in Hin.
      destruct (attach_nearest indent key value nodes) as [nodes'|] eqn:E.
      * rewrite (attach_nearest_pos _ _ _ _ _ E) in Hin.
        apply Hp in Hin as [Hlt Hnth]. rewrite length_app. simpl.
        split; [lia|]. rewrite nth_error_app1; assumption.
      * destruct Hin as [<-|Hin].
        -- unfold node_pos, node_row. simpl. rewrite length_app. simpl.
           split; [lia|]. rewrite nth_error_app2, Nat.sub_diag; [reflexivity|lia].
        -- apply Hp in Hin as [Hlt Hnth]. rewrite length_app. simpl.
           split; [lia|]. rewrite nth_error_app1; assumption.
Qed.

Lemma nesting_positions (rows : list row) :
  StronglySorted lt (map n_line (nesting rows)) /\
  (forall n, In n (nesting rows) ->
     nth_error rows (n_line n) = Some (node_row n)).
Proof.
  destruct (place_all_positions rows [] []) as [Hs Hp].
  - constructor.
  - intros p [].
  - simpl in Hs, Hp. unfold nesting. split.
    + rewrite map_rev. apply StronglySorted_rev.
      rewrite map_map in Hs. exact Hs.
    + intros n Hn. apply in_rev in Hn.
      apply (Hp (node_pos n)). apply in_map_iff. now exists n.
Qed.

Lemma read_info_section (gen : list row) :
  forall (i i' : info) (descriptors : list descriptor),
    read_info gen i = Ok (i', descriptors) ->
    descriptors = map render (nesting (descriptor_section gen)) /\
    (forall n, In n (nesting (descriptor_section gen)) ->
       n_name n = "Prop" -> n_fields n = Dict.empty).
Proof.
  induction gen as [|[[indent key] value] gen IH]; intros i i' descriptors H.
  - simpl in H. injection H as <- <-. simpl. split; [reflexivity|].
    intros n [].
  - simpl in H. simpl descriptor_section.
    destruct (key =? "Descriptors")%string; [|now apply IH in H].
    destruct gen as [|[[ci cn] cv] gen]; [discriminate|].
    bind_inv H. injection H as <- <-.
    unfold ReadDescriptors in E. simpl in E.
    assert (Hinv : loop_inv ci 0 [(cn, new_descriptor cn cv)]
                     [mk_node 0 ci cn cv Dict.empty]).
    { exists (mk_node 0 ci cn cv Dict.empty), []. repeat split.
      - intros n [<-|[]]. apply str_leb_refl.
      - intros n [<-|[]]. reflexivity. }
    destruct (ReadDescriptors_loop_nesting gen 1 _ _ _ _ _ Hinv E) as [H1 H2].
    unfold nesting. simpl place_all. split.
    + exact H1.
    + intros n Hn. apply H2. now apply in_rev.
Qed.

Lemma spaces_ltb (m n : nat) :
  (spaces m <? spaces n)%string = Nat.ltb m n.
Proof.
  unfold String.ltb. revert n.
  induction m as [|m IH]; intros [|n]; try reflexivity.
  change (spaces (S m) ?= spaces (S n))%string
    with (spaces m ?= spaces n)%string.
  rewrite IH. reflexivity.
Qed.

(** C8.  When the parser returns, the descriptors are the nodes that the
    nesting rule builds from the matched lines after the [Descriptors]
    line: a line is a field of the nearest preceding descriptor whose
    indentation is strictly less than its own (and a descriptor when there
    is none); the descriptors stand in the order of their lines; a [Prop]
    has no field.  A line that does not match is skipped: the outcome,
    error or not, is that of the text without it.  The outcome depends on
    the text only.  Between indentations made of spaces, strictly less is
    strictly fewer spaces. *)
Theorem parse_info_image_nesting :
  (forall (out : string) (i : info) (descriptors : list descriptor),
     parse_info_image out = Ok (i, descriptors) ->
     let rows := descriptor_section (IterateLine out) in
     descriptors = map render (nesting rows) /\
     StronglySorted lt (map n_line (nesting rows)) /\
     (forall n, In n (nesting rows) ->
        nth_error rows (n_line n) = Some (node_row n) /\
        (n_name n = "Prop" -> n_fields n = Dict.empty))) /\
  (forall (before after : list string) (line : string),
     match_line line = None ->
     parse_lines (before ++ line :: after) = parse_lines (before ++ after)) /\
  (forall out1 out2 : string,
     out1 = out2 -> parse_info_image out1 = parse_info_image out2) /\
  (forall m n : nat, (spaces m <? spaces n)%string = Nat.ltb m n).
Proof.
  split; [|split; [|split]].
  - intros out i descriptors H rows.
    unfold parse_info_image, parse_lines in H.
    apply read_info_section in H as [H1 H2].
    destruct (nesting_positions rows) as [H3 H4].
    split; [exact H1|]. split; [exact H3|].
    intros n Hn. split; [now apply H4 | now apply H2].
  - intros before after line Hline. unfold parse_lines.
    rewrite !matched_app. simpl. now rewrite Hline.
  - intros out1 out2 ->. reflexivity.
  - exact spaces_ltb.
Qed.

Lemma parse_info_image_nesting_witness :
  exists i d,
    parse_info_image sample_report = Ok (i, d) /\
    List.length d = 3 /\
    d = map render (nesting (descriptor_section (IterateLine sample_report))).
Proof.
  eexists. eexists. split; [reflexivity|]. split; [reflexivity|].
  destruct (proj1 parse_info_image_nesting sample_report _ _ eq_refl)
    as [H _].
  exact H.
Defined.

(** ** Running programs *)

Lemma get_update {V : Type} (k : string) (other d : Dict.dict V) :
  Dict.wf other ->
  Dict.get k (Dict.update d other) =
  match Dict.get k other with
  | Some v => Some v
  | None => Dict.get k d
  end.
Proof.
  unfold Dict.update. revert d.
  induction other as [|[k0 v0] r IH]; intros d Hwf; simpl; [reflexivity|].
  inversion Hwf; subst. rewrite IH by assumption.
  destruct (String.eqb_spec k0 k) as [->|Hne].
  - assert (Hn : Dict.get k r = None).
    { destruct (Dict.get k r) eqn:E; [|reflexivity].
      exfalso. apply H1. apply get_in_keys. congruence. }
    rewrite Hn. apply get_set_same.
  - destruct (Dict.get k r); [reflexivity|]. now apply get_set_other.
Qed.

(** C4, amended.  The child process is started with the overrides updated
    with the ambient environment: a key of the ambient environment has its
    ambient value, whatever the overrides say, and a key of the overrides
    alone has the overrides' value. *)
Theorem RunCommand_environment (w : world) (a : args) (cmd : list string)
    (env : option (Dict.dict string)) (inv : invocation) :
  Dict.wf (environ w) ->
  RunCommand_invocation w a cmd env = Ok inv ->
  (forall expected,
     RunCommand w a cmd env expected =
     (_ <- assert (existsb (Z.eqb (returncode (popen w inv)))
                     (or_default expected [0%Z])) "Failed to execute" ;;
      Ok (output (popen w inv), returncode (popen w inv)))) /\
  forall k,
    Dict.get k (inv_env inv) =
    match Dict.get k (environ w) with
    | Some v => Some v
    | None => Dict.get k (or_default env Dict.empty)
    end.
Proof.
  intros Hwf H. split.
  - intros expected. unfold RunCommand. now rewrite H.
  - intros k. unfold RunCommand_invocation in H.
    destruct cmd as [|c rest]; [discriminate|]. injection H as <-. simpl.
    now apply get_update.
Qed.

Lemma RunCommand_environment_witness :
  exists inv,
    RunCommand_invocation path_world plain_args ["lz4"; "-t"; "kernel"]
      (Some path_override) = Ok inv /\
    Dict.get "PATH" (inv_env inv) = Some "/usr/bin" /\
    Dict.get "LANG" (inv_env inv) = Some "C".
Proof.
  eexists. split; [reflexivity|].
  assert (Hwf : Dict.wf (environ path_world)).
  { unfold Dict.wf. simpl. repeat constructor; simpl; intuition discriminate. }
  split.
  - exact (proj2 (RunCommand_environment path_world plain_args
                    ["lz4"; "-t"; "kernel"] (Some path_override) _ Hwf eq_refl)
             "PATH").
  - exact (proj2 (RunCommand_environment path_world plain_args
                    ["lz4"; "-t"; "kernel"] (Some path_override) _ Hwf eq_refl)
             "LANG").
Defined.

(** C4 as the specification states it fails: [PATH] is set by both the
    ambient environment and the overrides, and the child receives the
    ambient value. *)
Lemma RunCommand_environment_ambient_wins :
  exists inv,
    RunCommand_invocation path_world plain_args ["lz4"; "-t"; "kernel"]
      (Some path_override) = Ok inv /\
    Dict.get "PATH" (environ path_world) = Some "/usr/bin" /\
    Dict.get "PATH" path_override = Some "/override" /\
    Dict.get "PATH" (inv_env inv) = Some "/usr/bin" /\
    Dict.get "PATH" (inv_env inv) <> Dict.get "PATH" path_override.
Proof.
  eexists. split; [reflexivity|]. repeat split. discriminate.
Qed.

(** ** [AvbInfo] and the exit code of the inspection tool *)

Lemma RunCommand_run (w : world) (a : args) (c : string) (rest : list string)
    (expected : option (list Z)) :
  RunCommand w a (c :: rest) None expected =
  let p := run w a (if (c =? "avbtool")%string then avbtool a :: rest
                    else c :: rest) in
  _ <- assert (existsb (Z.eqb (returncode p)) (or_default expected [0%Z]))
         "Failed to execute" ;;
  Ok (output p, returncode p).
Proof. reflexivity. Qed.

(** C9.  For an image that exists and is not compressed: when the
    inspection tool exits with 1, [AvbInfo] returns, without raising, the
    value that stands for no metadata, which has no info and no
    descriptors; when it exits with a code other than 0 and 1, [AvbInfo]
    raises.  For a compressed image the outcome is that of its
    decompressed copy. *)
Theorem AvbInfo_exit_code (depth : nat) (w : world) (a : args)
    (temps : list string) (image_path : string) :
  path_exists w image_path || str_in image_path temps = true ->
  (returncode (lz4_test w a image_path) = 44%Z ->
   (returncode (inspection w a image_path) = 1%Z ->
    AvbInfo (S depth) w a temps image_path = Ok None /\
    info_of None = None /\ descriptors_of None = None) /\
   (returncode (inspection w a image_path) <> 0%Z ->
    returncode (inspection w a image_path) <> 1%Z ->
    AvbInfo (S depth) w a temps image_path =
    Raise (AssertionError "Failed to execute"))) /\
  (returncode (lz4_test w a image_path) = 0%Z ->
   returncode (lz4_decompress w a image_path
                 (tempname w (List.length temps))) = 0%Z ->
   AvbInfo (S depth) w a temps image_path =
   AvbInfo depth w a (tempname w (List.length temps) :: temps)
     (tempname w (List.length temps))).
Proof.
  intros Hex. simpl AvbInfo. rewrite Hex. simpl negb. cbv iota.
  unfold is_lz4. rewrite !RunCommand_run. simpl.
  fold (lz4_test w a image_path). fold (inspection w a image_path).
  fold (lz4_decompress w a image_path (tempname w (List.length temps))).
  split.
  - intros Hlz. rewrite Hlz. simpl. split.
    + intros Hrc. rewrite Hrc. simpl. repeat split.
    + intros H0 H1.
      destruct (Z.eqb_spec (returncode (inspection w a image_path)) 0);
        [contradiction|].
      destruct (Z.eqb_spec (returncode (inspection w a image_path)) 1);
        [contradiction|].
      reflexivity.
  - intros Hlz Hd. rewrite Hlz. simpl. rewrite Hd. simpl. reflexivity.
Qed.

Lemma AvbInfo_exit_code_witness :
  AvbInfo 1 bare_world plain_args [] "raw.img" = Ok None /\
  AvbInfo 2 bare_world plain_args [] "packed.img" = Ok None.
Proof.
  split.
  - exact (proj1 (proj1 (proj1 (AvbInfo_exit_code 0 bare_world plain_args []
                                  "raw.img" eq_refl) eq_refl) eq_refl)).
  - rewrite (proj2 (AvbInfo_exit_code 1 bare_world plain_args []
                      "packed.img" eq_refl) eq_refl eq_refl).
    exact (proj1 (proj1 (proj1 (AvbInfo_exit_code 0 bare_world plain_args
                                  ["/tmp/tmp0"] "/tmp/tmp0" eq_refl)
                           eq_refl) eq_refl)).
Defined.

(** ** Equality of dictionaries, sorting *)

Section DictEq.
Context {V : Type} (veqb : V -> V -> bool) (R : V -> V -> Prop).
Hypothesis veqb_spec : forall a b, veqb a b = true <-> R a b.
Hypothesis R_sym : forall a b, R a b -> R b a.

Lemma incl_b_spec (d1 d2 : Dict.dict V) :
  Dict.incl_b veqb d1 d2 = true <->
  forall k, In k (Dict.keys d1) ->
    exists v v', Dict.get k d1 = Some v /\ Dict.get k d2 = Some v' /\ R v v'.
Proof.
  unfold Dict.incl_b. rewrite forallb_forall. split.
  - intros H k Hk. apply in_map_iff in Hk as [[k0 v0] [<- Hin]].
    specialize (H _ Hin). simpl in *.
    destruct (Dict.get k0 d2) as [v'|]; [|discriminate].
    destruct (Dict.get k0 d1) as [v|]; [|discriminate].
    exists v, v'. repeat split. now apply veqb_spec.
  - intros H [k0 v0] Hin. simpl.
    destruct (H k0) as (v & v' & -> & -> & HR).
    + apply in_map_iff. now exists (k0, v0).
    + now apply veqb_spec.
Qed.

Lemma dict_eqb_spec (d1 d2 : Dict.dict V) :
  Dict.eqb veqb d1 d2 = true <->
  forall k, opt_rel R (Dict.get k d1) (Dict.get k d2).
Proof.
  unfold Dict.eqb. rewrite andb_true_iff, !incl_b_spec. split.
  - intros [H1 H2] k.
    destruct (Dict.get k d1) as [v|] eqn:E1.
    + destruct (H1 k) as (a & b & Ha & Hb & HR).
      { apply get_in_keys. congruence. }
      rewrite Hb. simpl. congruence.
    + destruct (Dict.get k d2) as [v'|] eqn:E2; simpl; [|exact I].
      destruct (H2 k) as (a & b & Ha & Hb & HR).
      { apply get_in_keys. congruence. }
      congruence.
  - intros H. split; intros k Hk; apply get_in_keys in Hk; specialize (H k).
    + destruct (Dict.get k d1) as [v|]; [|congruence].
      destruct (Dict.get k d2) as [v'|]; simpl in H; [|contradiction].
      now exists v, v'.
    + destruct (Dict.get k d2) as [v'|]; [|congruence].
      destruct (Dict.get k d1) as [v|]; simpl in H; [|contradiction].
      exists v', v. auto.
Qed.

End DictEq.

Lemma info_eqb_spec (d1 d2 : Dict.dict string) :
  Dict.eqb String.eqb d1 d2 = true <-> same_map d1 d2.
Proof.
  rewrite (dict_eqb_spec String.eqb eq String.eqb_eq (@eq_sym string)).
  unfold same_map. split; intros H k; specialize (H k).
  - destruct (Dict.get k d1), (Dict.get k d2); simpl in H;
      congruence || contradiction.
  - rewrite H. destruct (Dict.get k d2); simpl; auto.
Qed.

Lemma hash_eqb_spec (d1 d2 : Dict.dict (Dict.dict string)) :
  Dict.eqb (Dict.eqb String.eqb) d1 d2 = true <->
  forall p, opt_rel same_map (Dict.get p d1) (Dict.get p d2).
Proof.
  apply dict_eqb_spec.
  - apply info_eqb_spec.
  - intros a b H k. symmetry. apply H.
Qed.

Lemma insert_str_perm (x : string) (l : list string) :
  Permutation (x :: l) (insert_str x l).
Proof.
  induction l as [|y r IH]; simpl; [reflexivity|].
  destruct (x <=? y)%string; [reflexivity|].
  rewrite perm_swap. now constructor.
Qed.

Lemma isort_perm (l : list string) : Permutation l (isort l).
Proof.
  induction l as [|x r IH]; simpl; [constructor|].
  rewrite <- insert_str_perm. now constructor.
Qed.

Lemma insert_str_sorted (x : string) (l : list string) :
  StronglySorted str_le l -> StronglySorted str_le (insert_str x l).
Proof.
  induction l as [|y r IH]; intros Hs; simpl.
  - repeat constructor.
  - inversion Hs; subst.
    destruct (x <=? y)%string eqn:E.
    + constructor; [exact Hs|]. constructor; [exact E|].
      eapply Forall_impl; [|exact H2]. intros z Hz.
      eapply str_leb_trans; eauto.
    + constructor; [now apply IH|].
      assert (Hyx : str_le y x).
      { destruct (String.leb_total x y) as [H|H]; [congruence | exact H]. }
      apply Forall_forall. intros z Hz.
      apply (Permutation_in _ (Permutation_sym (insert_str_perm x r))) in Hz.
      destruct Hz as [<-|Hz]; [exact Hyx|].
      rewrite Forall_forall in H2. now apply H2.
Qed.

Lemma isort_sorted (l : list string) : StronglySorted str_le (isort l).
Proof.
  induction l as [|x r IH]; simpl; [constructor | now apply insert_str_sorted].
Qed.

Lemma sorted_unique (a b : list string) :
  StronglySorted str_le a -> StronglySorted str_le b -> Permutation a b ->
  a = b.
Proof.
  revert b. induction a as [|x a IH]; intros b Ha Hb Hp.
  - apply Permutation_nil in Hp. now subst.
  - destruct b as [|y b].
    + apply Permutation_sym, Permutation_nil in Hp. discriminate.
    + inversion Ha; subst. inversion Hb; subst.
      rewrite Forall_forall in H2, H4.
      assert (x = y).
      { assert (Hy : In y (x :: a))
          by (apply (Permutation_in _ (Permutation_sym Hp)); now left).
        assert (Hx : In x (y :: b))
          by (apply (Permutation_in _ Hp); now left).
        destruct Hy as [Hy|Hy]; [exact Hy|].
        destruct Hx as [Hx|Hx]; [now symmetry|].
        apply String.leb_antisym; [now apply H2 | now apply H4]. }
      subst y. f_equal. apply IH; try assumption.
      now apply Permutation_cons_inv in Hp.
Qed.

Lemma isort_eq_iff (a b : list string) :
  isort a = isort b <-> Permutation a b.
Proof.
  split.
  - intros H. rewrite (isort_perm a), (isort_perm b), H. reflexivity.
  - intros H. apply sorted_unique; try apply isort_sorted.
    now rewrite <- (isort_perm a), <- (isort_perm b).
Qed.

Lemma insert_sorted_str (x : string) (l : list string) :
  insert_sorted (DStr x) (map DStr l) = Ok (map DStr (insert_str x l)).
Proof.
  induction l as [|y r IH]; simpl; [reflexivity|].
  destruct (x <=? y)%string; [reflexivity|]. now rewrite IH.
Qed.

Lemma sorted_str (l : list string) :
  sorted (map DStr l) = Ok (map DStr (isort l)).
Proof.
  induction l as [|x r IH]; simpl; [reflexivity|].
  rewrite IH. simpl. apply insert_sorted_str.
Qed.

Lemma list_eqb_str (a b : list string) :
  list_eqb dvalue_eqb (map DStr a) (map DStr b) = true <-> a = b.
Proof.
  revert b. induction a as [|x a IH]; intros [|y b]; simpl;
    try (split; [discriminate | congruence]); [tauto|].
  rewrite andb_true_iff, IH, String.eqb_eq. split.
  - intros [-> ->]. reflexivity.
  - intros [= -> ->]. auto.
Qed.

Lemma well_formed_props (descriptors : list descriptor) :
  well_formed descriptors ->
  exists l, find_all_values_by_key descriptors "Prop" = map DStr l.
Proof.
  unfold find_all_values_by_key.
  induction descriptors as [|[name v] r IH]; intros Hwf.
  - now exists [].
  - destruct IH as [l Hl].
    { intros n w Hin. apply Hwf. now right. }
    simpl. destruct (name =? "Prop")%string eqn:E.
    + specialize (Hwf name v (or_introl eq_refl)). rewrite E in Hwf.
      destruct Hwf as [s ->]. exists (s :: l). simpl. now rewrite Hl.
    + now exists l.
Qed.

Lemma permutation_str (a b : list string) :
  Permutation (map DStr a) (map DStr b) <-> Permutation a b.
Proof.
  split; [|apply Permutation_map].
  intros H. apply Permutation_map_inv in H as [c [Hc Hp]].
  assert (a = c); [|subst; now symmetry].
  clear Hp. revert c Hc. induction a as [|x a IH]; intros [|y c] Hc;
    try discriminate; [reflexivity|].
  injection Hc as -> Hc. f_equal. now apply IH.
Qed.

(** ** The consistency check *)

Lemma assert_true (c : bool) (msg : string) : c = true -> assert c msg = Ok tt.
Proof. now intros ->. Qed.

Lemma assert_iff (c : bool) (msg : string) : assert c msg = Ok tt <-> c = true.
Proof. destruct c; simpl; split; congruence. Qed.

Lemma check_descriptors_iff (od ud : list descriptor) :
  well_formed od -> well_formed ud ->
  check_descriptors od ud = Ok tt <-> same_descriptors od ud.
Proof.
  intros Ho Hu.
  destruct (well_formed_props od Ho) as [lo Hlo].
  destruct (well_formed_props ud Hu) as [lu Hlu].
  unfold check_descriptors, same_descriptors.
  rewrite Hlo, Hlu, !sorted_str. cbn [bind].
  split.
  - intros H. bind_inv H. apply assert_ok, Nat.eqb_eq in E.
    simpl in H. bind_inv H. apply assert_ok, list_eqb_str in E0.
    apply isort_eq_iff in E0.
    bind_inv H. bind_inv H. apply assert_iff in H.
    pose proof (proj1 (hash_eqb_spec _ _) H) as Hh.
    split; [exact E|]. split; [now apply permutation_str|].
    now exists x1, x2.
  - intros (Hlen & Hperm & ho & hu & Eo & Eu & Hh).
    rewrite (assert_true _ _ (proj2 (Nat.eqb_eq _ _) Hlen)). simpl.
    apply permutation_str, isort_eq_iff in Hperm.
    rewrite (assert_true _ _ (proj2 (list_eqb_str _ _) Hperm)). simpl.
    rewrite Eo, Eu. simpl. apply assert_iff. now apply hash_eqb_spec.
Qed.

Lemma same_map_remove (o u : info) :
  same_map (Dict.remove public_key o) (Dict.remove public_key u) <->
  forall k, k <> public_key -> Dict.get k o = Dict.get k u.
Proof.
  unfold same_map. split.
  - intros H k Hk. specialize (H k).
    now rewrite !get_remove_other in H by congruence.
  - intros H k. destruct (String.eqb_spec public_key k) as [<-|Hne].
    + now rewrite !get_remove_same.
    + rewrite !get_remove_other by assumption. apply H. congruence.
Qed.

(** C3, amended.  On descriptors as the parser builds them, the check
    succeeds exactly when [AvbInfo] returns metadata for the resigned image,
    the old metadata is present, both carry a fingerprint and the two
    differ, the new fingerprint is the one already recorded in the run if
    one is recorded, every other top-level property is unchanged, there are
    as many descriptors, the [Prop] values are the same up to order, and the
    hash descriptors, keyed by partition name and without their digest, are
    the same.  Descriptors other than [Prop] and hash descriptors are
    counted and not compared. *)
Theorem check_resigned_image_avb_info_iff (updated : result avbinfo)
    (original_info : option info) (od : list descriptor)
    (slot : option string) :
  well_formed od ->
  (forall u ud, updated = Ok (Some (u, ud)) -> well_formed ud) ->
  fst (check_resigned_image_avb_info updated original_info od slot) = Ok tt
  <->
  exists a, updated = Ok a /\
            consistent_as_specified original_info od a /\ slot_agrees slot a.
Proof.
  intros Ho Hu. unfold check_resigned_image_avb_info.
  destruct updated as [[[u ud]|]|e].
  2:{ split; [destruct original_info; discriminate|].
      intros (a & [= <-] & (o & u & ud & _ & Hc & _) & _). discriminate. }
  2:{ split; [discriminate|]. intros (a & Ha & _). discriminate. }
  specialize (Hu u ud eq_refl).
  destruct original_info as [o|].
  2:{ split; [discriminate|].
      intros (a & _ & (o & u' & ud' & Hc & _) & _). discriminate. }
  unfold assert_different_value, Dict.getitem, Dict.pop.
  destruct (Dict.get public_key o) as [fo|] eqn:Efo.
  2:{ split; [discriminate|].
      intros (a & _ & (o' & u' & ud' & [= <-] & _ & (fo & fn & Hfo & _) & _) & _).
      congruence. }
  destruct (Dict.get public_key u) as [fn|] eqn:Efn.
  2:{ split; [discriminate|].
      intros (a & [= <-] & (o' & u' & ud' & _ & [= <- <-]
                            & (fo' & fn & _ & Hfn & _) & _) & _).
      congruence. }
  simpl bind.
  destruct (String.eqb_spec fo fn) as [Heq|Hne]; simpl.
  { split; [discriminate|].
    intros (a & [= <-] & (o' & u' & ud' & [= <-] & [= <- <-]
                          & (fo' & fn' & Hfo & Hfn & Hd) & _) & _).
    congruence. }
  assert (Hslot : match slot with
                  | None => Ok tt
                  | Some k => assert (k =? fn)%string
                      "All images should be resigned with the same public key."
                  end = Ok tt <-> slot_agrees slot (Some (u, ud))).
  { destruct slot as [k|]; simpl; [|tauto].
    rewrite assert_iff, String.eqb_eq. split.
    - intros ->. now exists u, ud.
    - intros (u' & ud' & [= <- <-] & Hk). congruence. }
  destruct (match slot with None => _ | Some k => _ end) as [[]|e] eqn:Es.
  - simpl. split.
    + intros H. bind_inv H. apply assert_ok, info_eqb_spec in E.
      apply check_descriptors_iff in H; [|assumption|assumption].
      exists (Some (u, ud)). split; [reflexivity|]. split; [|now apply Hslot].
      exists o, u, ud. split; [reflexivity|]. split; [reflexivity|].
      split; [now exists fo, fn|].
      split; [now apply same_map_remove | exact H].
    + intros (a & [= <-] & (o' & u' & ud' & [= <-] & [= <- <-]
                            & _ & Hsame & Hdesc) & _).
      apply same_map_remove, info_eqb_spec in Hsame.
      rewrite (assert_true _ _ Hsame). simpl.
      now apply check_descriptors_iff.
  - simpl. split; [discriminate|].
    intros (a & [= <-] & _ & Hag). apply Hslot in Hag. discriminate.
Qed.


Lemma well_formed_old_new :
  well_formed old_descriptors /\ well_formed new_descriptors /\
  well_formed old_hashtree /\ well_formed new_hashtree.
Proof.
  repeat split; intros name v H; simpl in H;
    repeat (destruct H as [H|H]; [injection H as <- <-; simpl; eauto|]);
    contradiction.
Qed.

Lemma check_resigned_image_avb_info_iff_witness :
  fst (check_resigned_image_avb_info (Ok (Some (new_info, new_descriptors)))
         (Some old_info) old_descriptors None) = Ok tt /\
  consistent_as_specified (Some old_info) old_descriptors
    (Some (new_info, new_descriptors)).
Proof.
  split; [reflexivity|].
  destruct (proj1 (check_resigned_image_avb_info_iff
                     (Ok (Some (new_info, new_descriptors))) (Some old_info)
                     old_descriptors None
                     (proj1 well_formed_old_new)
                     (fun u ud E =>
                        match E in (_ = r) return
                          match r with
                          | Ok (Some (_, d)) => well_formed d
                          | _ => True
                          end
                        with eq_refl => proj1 (proj2 well_formed_old_new) end))
              eq_refl) as (a & Ha & Hc & _).
  injection Ha as <-. exact Hc.
Defined.

(** C3 as the specification states it fails twice.  A pair that meets every
    condition of the specification is refused when the run has recorded
    another fingerprint; and a pair whose hashtree descriptors differ in
    their salt is accepted. *)
Lemma check_resigned_image_avb_info_not_as_specified :
  (consistent_as_specified (Some old_info) old_descriptors
     (Some (new_info, new_descriptors)) /\
   fst (check_resigned_image_avb_info (Ok (Some (new_info, new_descriptors)))
          (Some old_info) old_descriptors (Some "cccc")) =
   Raise (AssertionError
            "All images should be resigned with the same public key.")) /\
  (old_hashtree <> new_hashtree /\
   fst (check_resigned_image_avb_info (Ok (Some (new_info, new_hashtree)))
          (Some old_info) old_hashtree None) = Ok tt).
Proof.
  split; split.
  - exists old_info, new_info, new_descriptors.
    split; [reflexivity|]. split; [reflexivity|]. split; [|split].
    + exists "aaaa", "bbbb". repeat split. discriminate.
    + apply same_map_remove, info_eqb_spec. reflexivity.
    + apply check_descriptors_iff; [apply well_formed_old_new ..|].
      reflexivity.
  - reflexivity.
  - discriminate.
  - reflexivity.
Qed.

(** The parser builds well-formed descriptors. *)
Lemma parse_info_image_well_formed (out : string) (i : info)
    (descriptors : list descriptor) :
  parse_info_image out = Ok (i, descriptors) -> well_formed descriptors.
Proof.
  unfold parse_info_image, parse_lines. intros H.
  apply read_info_section in H as [-> _].
  intros name v Hin. apply in_map_iff in Hin as [n [Hn _]].
  unfold render in Hn. injection Hn as <- <-.
  destruct (n_name n =? "Prop")%string; eauto.
Qed.

(** ** The recorded fingerprint *)









(** ** What the check changes *)




(** ** The version check *)

Lemma rfind_dot_app (mm patch : string) :
  has_char "." patch = false ->
  rfind "." (mm ++ String "." patch) = Some (String.length mm).
Proof.
  intros Hp.
  assert (Hn : rfind "." patch = None).
  { induction patch as [|c r IH]; simpl in *; [reflexivity|].
    apply orb_false_iff in Hp as [Hc Hr]. now rewrite (IH Hr), Hc. }
  induction mm as [|c r IH]; simpl.
  - now rewrite Hn.
  - now rewrite IH.
Qed.

Lemma substring_prefix (mm rest : string) :
  substring 0 (String.length mm) (mm ++ rest) = mm.
Proof.
  induction mm as [|c r IH]; simpl.
  - now destruct rest.
  - now rewrite IH.
Qed.

Lemma before_last_dot_version (mm patch : string) :
  has_char "." patch = false ->
  before_last_dot (mm ++ String "." patch) = mm.
Proof.
  intros Hp. unfold before_last_dot. rewrite (rfind_dot_app _ _ Hp).
  apply substring_prefix.
Qed.

(** C10.  Let the tool print a version whose text before the last dot is
    [mm] (its major and minor numbers), and let the boot configuration
    record [recorded].  The validation raises the mismatch exactly when
    [recorded] differs from [mm], and returns exactly when they are equal.
    When validation is not suppressed the update raises the mismatch if they
    differ and goes on to rewrite the configuration if they are equal, so
    that, the rewriting succeeding, it fails exactly when they differ; when
    validation is suppressed the update goes on whatever the tool would
    print. *)
Theorem validate_avb_version_major_minor (a : args) (stdout : string) (rc : Z)
    (second mm patch recorded : string) (update : string -> result string)
    (bc : string) :
  nth_error (split_on " " stdout) 1 = Some second ->
  strip second = (mm ++ String "." patch)%string ->
  has_char "." patch = false ->
  search_quoted avb_version_pattern bc = Some recorded ->
  (validate_avb_version (Ok (stdout, rc)) bc = Raise mismatch <->
   recorded <> mm) /\
  (validate_avb_version (Ok (stdout, rc)) bc = Ok tt <-> recorded = mm) /\
  (do_not_validate_avb_version a = false ->
   (recorded <> mm ->
    update_bootconfig a (Ok (stdout, rc)) update bc = Raise mismatch) /\
   (recorded = mm ->
    update_bootconfig a (Ok (stdout, rc)) update bc = update bc) /\
   (forall bc', update bc = Ok bc' ->
      (exists e, update_bootconfig a (Ok (stdout, rc)) update bc = Raise e)
      <-> recorded <> mm)) /\
  (do_not_validate_avb_version a = true ->
   forall version_run, update_bootconfig a version_run update bc = update bc).
Proof.
  intros Hsplit Hstrip Hpatch Hsearch.
  assert (Hv : validate_avb_version (Ok (stdout, rc)) bc =
               if negb (mm =? recorded)%string then Raise mismatch else Ok tt).
  { unfold validate_avb_version. cbn [bind]. rewrite Hsplit. cbn [bind].
    rewrite Hstrip, (before_last_dot_version _ _ Hpatch), Hsearch.
    reflexivity. }
  split; [|split; [|split]].
  - rewrite Hv. destruct (String.eqb_spec mm recorded) as [->|Hne]; simpl.
    + split; [discriminate | congruence].
    + split; [congruence | reflexivity].
  - rewrite Hv. destruct (String.eqb_spec mm recorded) as [->|Hne]; simpl.
    + split; reflexivity.
    + split; [discriminate | congruence].
  - intros Hflag. unfold update_bootconfig. rewrite Hflag, Hv. simpl.
    destruct (String.eqb_spec mm recorded) as [->|Hne]; simpl.
    + split; [congruence|]. split; [reflexivity|].
      intros bc' ->. split; [intros [e He]; discriminate | congruence].
    + split; [reflexivity|]. split; [congruence|].
      intros bc' _. split; [congruence | eauto].
  - intros Hflag run. unfold update_bootconfig. now rewrite Hflag.
Qed.

Lemma validate_avb_version_major_minor_witness :
  validate_avb_version (Ok (version_output, 0%Z)) (bootconfig_of "1.3") = Ok tt
  /\ update_bootconfig strict_args (Ok (version_output, 0%Z)) (@Ok string)
       (bootconfig_of "1.2") = Raise mismatch
  /\ update_bootconfig lax_args (Ok (version_output, 0%Z)) (@Ok string)
       (bootconfig_of "1.2") = Ok (bootconfig_of "1.2").
Proof.
  split; [|split].
  - exact (proj2 (proj1 (proj2 (validate_avb_version_major_minor strict_args
             version_output 0 _ "1.3" "0" "1.3" (@Ok string)
             (bootconfig_of "1.3") eq_refl eq_refl eq_refl eq_refl))) eq_refl).
  - refine (proj1 (proj1 (proj2 (proj2 (validate_avb_version_major_minor
             strict_args version_output 0 _ "1.3" "0" "1.2" (@Ok string)
             (bootconfig_of "1.2") eq_refl eq_refl eq_refl eq_refl)))
             eq_refl) _).
    discriminate.
  - exact (proj2 (proj2 (proj2 (validate_avb_version_major_minor
             lax_args version_output 0 _ "1.3" "0" "1.2" (@Ok string)
             (bootconfig_of "1.2") eq_refl eq_refl eq_refl eq_refl)))
             eq_refl (Ok (version_output, 0%Z))).
Defined.

(** ** The task graph *)

Lemma nth_error_set_state (l : list future) (i j : nat) (st : status) :
  nth_error (set_state i st l) j =
  if Nat.eqb j i
  then option_map (fun f => mk_future (wait f) st) (nth_error l j)
  else nth_error l j.
Proof.
  revert i j. induction l as [|f r IH]; intros i j; simpl.
  - destruct (Nat.eqb j i); destruct j; reflexivity.
  - destruct i as [|i], j as [|j]; simpl; try reflexivity. apply IH.
Qed.

Lemma length_set_state (l : list future) (i : nat) (st : status) :
  List.length (set_state i st l) = List.length l.
Proof.
  revert i. induction l as [|f r IH]; intros [|i]; simpl; auto.
Qed.

Lemma status_of_update (p : pool) (i j : nat) (st : status) (c : list nat) :
  status_of (mk_pool (set_state i st (tasks p)) c) j =
  if Nat.eqb j i
  then option_map (fun _ => st) (nth_error (tasks p) j)
  else status_of p j.
Proof.
  unfold status_of. simpl. rewrite nth_error_set_state.
  destruct (Nat.eqb j i); [|reflexivity].
  now destruct (nth_error (tasks p) j).
Qed.

(** A step only changes a future that waits. *)
Lemma done_update (p : pool) (i : nat) (f : future) (k : nat) (st : status)
    (c : list nat) (j : nat) (r : outcome) :
  nth_error (tasks p) i = Some f -> state f = Waiting k ->
  status_of p j = Some (Done r) ->
  status_of (mk_pool (set_state i st (tasks p)) c) j = Some (Done r).
Proof.
  intros Hf Hs Hj. rewrite status_of_update.
  destruct (Nat.eqb_spec j i) as [->|Hne]; [|exact Hj].
  unfold status_of in Hj. rewrite Hf in Hj. simpl in Hj. congruence.
Qed.

Lemma done_step (p q : pool) (j : nat) (r : outcome) :
  step p q -> status_of p j = Some (Done r) -> status_of q j = Some (Done r).
Proof.
  intros Hstep Hj. destruct Hstep; try (eapply done_update; eassumption).
  unfold status_of in *. simpl.
  destruct (nth_error (tasks p) j) eqn:E; [|discriminate].
  rewrite nth_error_app1; [now rewrite E|].
  apply nth_error_Some. congruence.
Qed.

Lemma done_steps (p q : pool) (j : nat) (r : outcome) :
  steps p q -> status_of p j = Some (Done r) -> status_of q j = Some (Done r).
Proof.
  intros H Hj. induction H as [p|p q r' Hpq IH Hqr]; [exact Hj|].
  apply (done_step q r'); [exact Hqr | now apply IH].
Qed.

Lemma task_inv_other (p q : pool) (j : nat) (g : future) :
  task_inv p j g ->
  (forall x r, status_of p x = Some (Done r) -> status_of q x = Some (Done r)) ->
  (In j (called q) <-> In j (called p)) ->
  task_inv q j g.
Proof.
  intros [Hw Hg] Hst Hin. split; [exact Hw|].
  assert (Hd : forall k, deps_returned p g k -> deps_returned q g k).
  { intros k H k' x Hk Hx. apply Hst. eapply H; eauto. }
  destruct (state g) as [k|[|o e]].
  - destruct Hg as (H1 & H2 & H3). rewrite Hin. auto.
  - destruct Hg as (H1 & H2). rewrite Hin. auto.
  - destruct Hg as [(H1 & H2)|(H1 & k & x & H2 & H3 & H4)].
    + left. rewrite Hin. auto.
    + right. rewrite Hin. split; [exact H1|]. exists k, x. auto.
Qed.

(** The invariant after a step that gives the waiting future [i] the state
    [st], when the new state meets the invariant. *)
Lemma pool_inv_update (p : pool) (i : nat) (f : future) (k : nat)
    (st : status) (c : list nat) :
  pool_inv p ->
  nth_error (tasks p) i = Some f -> state f = Waiting k ->
  (c = called p \/ c = i :: called p) ->
  task_inv (mk_pool (set_state i st (tasks p)) c) i (mk_future (wait f) st) ->
  (forall o e, st = Done (Raised o e) ->
     (o = i /\ In i c) \/
     exists j, status_of p j = Some (Done (Raised o e))) ->
  pool_inv (mk_pool (set_state i st (tasks p)) c).
Proof.
  intros (Hc & Hinv & Hor) Hf Hs Hcalled Hnew Hst.
  assert (Hincl : forall x, In x (called p) -> In x c).
  { intros x Hx. destruct Hcalled as [->| ->]; [exact Hx | now right]. }
  split; [|split].
  - simpl. rewrite length_set_state. intros x Hx.
    destruct Hcalled as [->| ->]; [now apply Hc|].
    destruct Hx as [<-|Hx]; [|now apply Hc].
    apply nth_error_Some. congruence.
  - intros j g Hg. simpl in Hg. rewrite nth_error_set_state in Hg.
    destruct (Nat.eqb_spec j i) as [->|Hne].
    + rewrite Hf in Hg. simpl in Hg. injection Hg as <-. exact Hnew.
    + apply task_inv_other with (p := p); [now apply Hinv | |].
      * intros x r. apply done_update with (f := f) (k := k); assumption.
      * simpl. destruct Hcalled as [->| ->]; simpl; [tauto|].
        split; [intros [H|H]; [congruence | exact H] | auto].
  - intros x o e Hx.
    assert (Hold : forall j, status_of p j = Some (Done (Raised o e)) ->
              status_of (mk_pool (set_state i st (tasks p)) c) o
              = Some (Done (Raised o e)) /\ In o c).
    { intros j Hj. destruct (Hor j o e Hj) as [Ho Hin]. split; [|auto].
      now apply done_update with (f := f) (k := k). }
    rewrite status_of_update in Hx.
    destruct (Nat.eqb_spec x i) as [->|Hne]; [|now apply (Hold x)].
    rewrite Hf in Hx. simpl in Hx. injection Hx as Hx.
    destruct (Hst o e Hx) as [[-> Hin]|[j Hj]]; [|now apply (Hold j)].
    split; [|exact Hin].
    rewrite status_of_update, Nat.eqb_refl, Hf. simpl. now rewrite Hx.
Qed.

Lemma deps_returned_update (p : pool) (i : nat) (f : future) (k : nat)
    (st st' : status) (c : list nat) (n : nat) :
  nth_error (tasks p) i = Some f -> state f = Waiting k ->
  deps_returned p f n ->
  deps_returned (mk_pool (set_state i st (tasks p)) c)
    (mk_future (wait f) st') n.
Proof.
  intros Hf Hs H k' x Hk Hx. simpl in Hx.
  apply done_update with (f := f) (k := k); try assumption.
  eapply H; eauto.
Qed.

Lemma status_of_app (p : pool) (g : future) (c : list nat) (x : nat)
    (st : status) :
  status_of p x = Some st ->
  status_of (mk_pool (tasks p ++ [g]) c) x = Some st.
Proof.
  unfold status_of. simpl. intros H.
  destruct (nth_error (tasks p) x) eqn:E; [|discriminate].
  rewrite nth_error_app1; [now rewrite E|].
  apply nth_error_Some. congruence.
Qed.

Lemma pool_inv_step (p q : pool) : pool_inv p -> step p q -> pool_inv q.
Proof.
  intros Hinv Hstep. destruct Hstep as
    [p w Hw | p i f k j Hf Hs Hk Hj | p i f k j o e Hf Hs Hk Hj
     | p i f r Hf Hs Hr].
  - destruct Hinv as (Hc & Hinv & Hor). split; [|split].
    + simpl. rewrite length_app. simpl. intros x Hx. apply Hc in Hx. lia.
    + intros j g Hg. simpl in Hg.
      destruct (Nat.lt_ge_cases j (List.length (tasks p))) as [Hlt|Hge].
      * rewrite nth_error_app1 in Hg by assumption.
        apply task_inv_other with (p := p); [now apply Hinv | | simpl; tauto].
        intros x r Hx. now apply status_of_app.
      * rewrite nth_error_app2 in Hg by assumption.
        destruct (j - List.length (tasks p)) as [|d] eqn:Ed;
          [|destruct d; discriminate].
        injection Hg as <-. assert (j = List.length (tasks p)) by lia. subst j.
        split; [exact Hw|]. simpl. split; [lia|]. split.
        -- intros k' x Hk. lia.
        -- intros Hin. apply Hc in Hin. lia.
    + intros x o e Hx.
      assert (Hx' : status_of p x = Some (Done (Raised o e))).
      { unfold status_of in *. simpl in Hx.
        destruct (Nat.lt_ge_cases x (List.length (tasks p))) as [Hlt|Hge].
        - now rewrite nth_error_app1 in Hx by assumption.
        - rewrite nth_error_app2 in Hx by assumption.
          destruct (x - List.length (tasks p)) as [|d];
            [discriminate | destruct d; discriminate]. }
      destruct (Hor x o e Hx') as [Ho Hin]. split; [|exact Hin].
      now apply status_of_app.
  - pose proof (proj1 (proj2 Hinv) i f Hf) as [Hwf Hst]. rewrite Hs in Hst.
    destruct Hst as (Hle & Hdeps & Hnc).
    apply pool_inv_update with (f := f) (k := k); auto; [|discriminate].
    split; [exact Hwf|]. simpl. split; [|split; [|exact Hnc]].
    + apply Nat.le_succ_l. apply nth_error_Some. congruence.
    + intros k' x Hk' Hx. simpl in Hx.
      apply done_update with (f := f) (k := k); try assumption.
      destruct (Nat.eq_dec k' k) as [->|Hne].
      * congruence.
      * apply (Hdeps k' x); [lia | exact Hx].
  - pose proof (proj1 (proj2 Hinv) i f Hf) as [Hwf Hst]. rewrite Hs in Hst.
    destruct Hst as (Hle & Hdeps & Hnc).
    apply pool_inv_update with (f := f) (k := k); auto.
    + split; [exact Hwf|]. simpl. right. split; [exact Hnc|].
      exists k, j. split; [exact Hk|]. split.
      * now apply deps_returned_update with (k := k).
      * now apply done_update with (f := f) (k := k).
    + intros o' e' [= <- <-]. right. now exists j.
  - pose proof (proj1 (proj2 Hinv) i f Hf) as [Hwf Hst]. rewrite Hs in Hst.
    destruct Hst as (Hle & Hdeps & Hnc).
    assert (Hd : deps_returned
                   (mk_pool (set_state i (Done r) (tasks p)) (i :: called p))
                   (mk_future (wait f) (Done r)) (List.length (wait f)))
      by now apply deps_returned_update with (k := List.length (wait f)).
    apply pool_inv_update with (f := f) (k := List.length (wait f)); auto.
    + split; [exact Hwf|]. simpl.
      destruct r as [|o e]; [split; [now left | exact Hd]|].
      left. split; [now left | exact Hd].
    + intros o e [= ->]. destruct Hr as [Hr|[[e' Hr]|(j & o' & e' & Hj & Hr)]].
      * discriminate.
      * injection Hr as -> ->. left. split; [reflexivity | now left].
      * injection Hr as -> ->. right. now exists j.
Qed.

Lemma pool_inv_steps (p q : pool) : pool_inv p -> steps p q -> pool_inv q.
Proof.
  intros Hinv H. induction H as [p|p q r Hpq IH Hqr]; [exact Hinv|].
  apply (pool_inv_step q r); [now apply IH | exact Hqr].
Qed.

Lemma pool_inv_reachable (p : pool) : reachable p -> pool_inv p.
Proof.
  apply pool_inv_steps. split; [|split].
  - intros i [].
  - intros [|i] f H; discriminate.
  - intros [|i] o e H; discriminate.
Qed.

Lemma steps_trans (p q r : pool) : steps p q -> steps q r -> steps p r.
Proof.
  intros Hpq Hqr. induction Hqr as [q|q r s Hqr IH Hrs]; [exact Hpq|].
  apply (steps_next p r s); [now apply IH | exact Hrs].
Qed.

(** [AwaitAll] meets the first failure of its list. *)
Lemma AwaitAll_first (p : pool) (f : future) (k j o : nat) (e : exn) :
  nth_error (wait f) k = Some j -> deps_returned p f k ->
  status_of p j = Some (Done (Raised o e)) ->
  AwaitAll p (wait f) = Some (Raised o e).
Proof.
  unfold deps_returned. generalize (wait f) as w. intros w. revert k.
  induction w as [|x w IH]; intros k Hk Hd Hj; [destruct k; discriminate|].
  destruct k as [|k]; simpl in *.
  - injection Hk as <-. now rewrite Hj.
  - rewrite (Hd 0 x); [|lia|reflexivity].
    apply (IH k); [exact Hk | | exact Hj].
    intros k' y Hk' Hy. apply (Hd (S k')); [lia | exact Hy].
Qed.

Lemma deps_returned_all (p : pool) (f : future) (j : nat) :
  deps_returned p f (List.length (wait f)) -> In j (wait f) ->
  status_of p j = Some (Done Returned).
Proof.
  intros Hd Hin. apply In_nth_error in Hin as [k Hk].
  apply (Hd k); [|exact Hk]. apply nth_error_Some. congruence.
Qed.

Lemma status_of_nth (p : pool) (i : nat) (st : status) :
  status_of p i = Some st <->
  exists f, nth_error (tasks p) i = Some f /\ state f = st.
Proof.
  unfold status_of. destruct (nth_error (tasks p) i) as [f|]; simpl.
  - split; [intros [= <-]; now exists f | intros [g [[= <-] <-]]; reflexivity].
  - split; [discriminate | intros [g [H _]]; discriminate].
Qed.

(** A task one of whose dependencies failed. *)
Lemma failed_dependency (p : pool) (i : nat) (f : future) (j o : nat)
    (e : exn) :
  pool_inv p -> nth_error (tasks p) i = Some f -> In j (wait f) ->
  status_of p j = Some (Done (Raised o e)) ->
  ~ In i (called p) /\
  forall r, state f = Done r ->
    exists o' e', r = Raised o' e' /\ o' <> i /\
                  AwaitAll p (wait f) = Some (Raised o' e') /\
                  AwaitAll p [i] = Some (Raised o' e') /\
                  status_of p o' = Some (Done (Raised o' e')) /\
                  In o' (called p).
Proof.
  intros Hinv Hf Hin Hj. destruct (proj1 (proj2 Hinv) i f Hf) as [Hwf Hst].
  destruct (state f) as [k|[|o' e']] eqn:Hs.
  - split; [tauto|]. intros r [=].
  - destruct Hst as [_ Hd].
    rewrite (deps_returned_all p f j Hd Hin) in Hj. discriminate.
  - destruct Hst as [(_ & Hd)|(Hnc & k & x & Hk & Hd & Hx)].
    + rewrite (deps_returned_all p f j Hd Hin) in Hj. discriminate.
    + split; [exact Hnc|]. intros r [= <-]. exists o', e'.
      destruct (proj2 (proj2 Hinv) x o' e' Hx) as (Ho & Hc).
      split; [reflexivity|]. split; [intros ->; contradiction|].
      split; [eapply AwaitAll_first; eauto|].
      split; [|auto].
      simpl. unfold status_of. rewrite Hf. simpl. now rewrite Hs.
Qed.

Lemma wait_step (p q : pool) (i : nat) (f : future) :
  step p q -> nth_error (tasks p) i = Some f ->
  exists g, nth_error (tasks q) i = Some g /\ wait g = wait f.
Proof.
  intros Hstep Hf.
  assert (Hu : forall x st c,
             exists g, nth_error (tasks (mk_pool (set_state x st (tasks p)) c)) i
                       = Some g /\ wait g = wait f).
  { intros x st c. simpl. rewrite nth_error_set_state, Hf.
    destruct (Nat.eqb i x); simpl; eauto. }
  destruct Hstep; try apply Hu.
  exists f. split; [|reflexivity]. simpl. rewrite nth_error_app1; [exact Hf|].
  apply nth_error_Some. congruence.
Qed.

Lemma wait_steps (p q : pool) (i : nat) (f : future) :
  steps p q -> nth_error (tasks p) i = Some f ->
  exists g, nth_error (tasks q) i = Some g /\ wait g = wait f.
Proof.
  intros H Hf. induction H as [p|p q r Hpq IH Hqr]; [now exists f|].
  destruct (IH Hf) as [g [Hg Hw]].
  destruct (wait_step q r i g Hqr Hg) as [h [Hh Hw']].
  exists h. split; [exact Hh | congruence].
Qed.

(** The future [n], waiting at position [k], can be brought to its end
    once every earlier future can. *)
Lemma finish_waiting (n : nat)
    (earlier : forall p, pool_inv p -> forall j, j < n ->
       j < List.length (tasks p) ->
       exists q, steps p q /\ (exists r, status_of q j = Some (Done r)) /\
                 forall i', j < i' ->
                   nth_error (tasks q) i' = nth_error (tasks p) i') :
  forall m p f k,
    pool_inv p -> nth_error (tasks p) n = Some f -> state f = Waiting k ->
    List.length (wait f) - k = m ->
    exists q, steps p q /\ (exists r, status_of q n = Some (Done r)) /\
              forall i', n < i' ->
                nth_error (tasks q) i' = nth_error (tasks p) i'.
Proof.
  induction m as [|m IH]; intros p f k Hinv Hf Hs Hm.
  - destruct (proj1 (proj2 Hinv) n f Hf) as [Hwf Hst]. rewrite Hs in Hst.
    destruct Hst as (Hle & _ & _).
    assert (k = List.length (wait f)) by lia. subst k.
    exists (mk_pool (set_state n (Done Returned) (tasks p)) (n :: called p)).
    split; [|split].
    + apply steps_next with (q := p); [apply steps_refl|].
      apply step_call with (f := f); [assumption | assumption | now left].
    + exists Returned. rewrite status_of_update, Nat.eqb_refl, Hf. reflexivity.
    + intros i' Hi'. simpl. rewrite nth_error_set_state.
      destruct (Nat.eqb_spec i' n); [lia | reflexivity].
  - destruct (proj1 (proj2 Hinv) n f Hf) as [Hwf Hst]. rewrite Hs in Hst.
    destruct Hst as (Hle & _ & _).
    destruct (nth_error (wait f) k) as [j|] eqn:Hk.
    2:{ apply nth_error_None in Hk. lia. }
    assert (Hjn : j < n).
    { rewrite Forall_forall in Hwf. apply Hwf. eapply nth_error_In; eauto. }
    assert (Hn : n < List.length (tasks p))
      by (apply nth_error_Some; congruence).
    destruct (earlier p Hinv j Hjn ltac:(lia)) as (p1 & Hp1 & [r Hr] & Hsame).
    assert (Hf1 : nth_error (tasks p1) n = Some f)
      by (rewrite Hsame; assumption).
    assert (Hinv1 : pool_inv p1) by (eapply pool_inv_steps; eauto).
    destruct r as [|o e].
    + set (p2 := mk_pool (set_state n (Waiting (S k)) (tasks p1)) (called p1)).
      assert (Hstep : step p1 p2)
        by (apply step_result_returns with (f := f) (j := j); assumption).
      assert (Hf2 : nth_error (tasks p2) n
                    = Some (mk_future (wait f) (Waiting (S k)))).
      { simpl. now rewrite nth_error_set_state, Nat.eqb_refl, Hf1. }
      destruct (IH p2 (mk_future (wait f) (Waiting (S k))) (S k))
        as (q & Hq & Hdone & Hsame2).
      * eapply pool_inv_step; eauto.
      * exact Hf2.
      * reflexivity.
      * simpl. lia.
      * exists q. split; [|split; [exact Hdone|]].
        -- eapply steps_trans; [|exact Hq].
           eapply steps_next; [exact Hp1 | exact Hstep].
        -- intros i' Hi'. rewrite (Hsame2 i' Hi'). simpl.
           rewrite nth_error_set_state.
           destruct (Nat.eqb_spec i' n); [lia|]. apply Hsame. lia.
    + exists (mk_pool (set_state n (Done (Raised o e)) (tasks p1)) (called p1)).
      split; [|split].
      * eapply steps_next; [exact Hp1|].
        apply step_result_raises with (f := f) (k := k) (j := j); assumption.
      * exists (Raised o e).
        rewrite status_of_update, Nat.eqb_refl, Hf1. reflexivity.
      * intros i' Hi'. simpl. rewrite nth_error_set_state.
        destruct (Nat.eqb_spec i' n); [lia|]. apply Hsame. lia.
Qed.

(** Every future can be brought to its end. *)
Lemma finish (n : nat) :
  forall p, pool_inv p -> forall i, i < n -> i < List.length (tasks p) ->
    exists q, steps p q /\ (exists r, status_of q i = Some (Done r)) /\
              forall i', i < i' ->
                nth_error (tasks q) i' = nth_error (tasks p) i'.
Proof.
  induction n as [|n IH]; intros p Hinv i Hi Hlen; [lia|].
  destruct (Nat.eq_dec i n) as [->|Hne]; [|apply IH; [assumption|lia|assumption]].
  destruct (nth_error (tasks p) n) as [f|] eqn:Hf.
  2:{ apply nth_error_None in Hf. lia. }
  destruct (state f) as [k|r] eqn:Hs.
  - apply (finish_waiting n IH (List.length (wait f) - k) p f k); auto.
  - exists p. split; [apply steps_refl|]. split; [|auto].
    exists r. apply status_of_nth. now exists f.
Qed.

(** The top-level [AwaitAll(tasks)]. *)
Lemma AwaitAll_app_returned (p : pool) (l1 l2 : list nat) :
  (forall x, In x l1 -> status_of p x = Some (Done Returned)) ->
  AwaitAll p (l1 ++ l2) = AwaitAll p l2.
Proof.
  induction l1 as [|x l1 IH]; intros H; simpl; [reflexivity|].
  rewrite (H x (or_introl eq_refl)). apply IH. intros y Hy. apply H. now right.
Qed.

Lemma first_failed (p : pool) (j : nat) :
  (exists o e, status_of p j = Some (Done (Raised o e))) ->
  exists t, t <= j /\
            (exists o e, status_of p t = Some (Done (Raised o e))) /\
            forall t', t' < t ->
              ~ exists o e, status_of p t' = Some (Done (Raised o e)).
Proof.
  induction j as [j IH] using lt_wf_ind. intros Hj.
  assert (Hdec : (exists t', t' < j /\
                    exists o e, status_of p t' = Some (Done (Raised o e))) \/
                 forall t', t' < j ->
                   ~ exists o e, status_of p t' = Some (Done (Raised o e))).
  { clear. induction j as [|j IHj].
    - right. intros t' Ht'. lia.
    - destruct IHj as [(t' & Ht' & H)|Hnone].
      + left. exists t'. split; [lia | exact H].
      + destruct (status_of p j) as [[k|[|o e]]|] eqn:E.
        * right. intros t' Ht' (o & e & H).
          destruct (Nat.eq_dec t' j) as [->|Hne]; [congruence|].
          apply (Hnone t'); [lia | eauto].
        * right. intros t' Ht' (o & e & H).
          destruct (Nat.eq_dec t' j) as [->|Hne]; [congruence|].
          apply (Hnone t'); [lia | eauto].
        * left. exists j. split; [lia | eauto].
        * right. intros t' Ht' (o & e & H).
          destruct (Nat.eq_dec t' j) as [->|Hne]; [congruence|].
          apply (Hnone t'); [lia | eauto]. }
  destruct Hdec as [(t' & Ht' & H)|Hnone].
  - destruct (IH t' Ht' H) as (t & Hle & Hf & Hmin).
    exists t. split; [lia | auto].
  - exists j. auto.
Qed.

Lemma AwaitAll_tasks (p : pool) (j o : nat) (e : exn) :
  pool_inv p -> all_done p ->
  status_of p j = Some (Done (Raised o e)) ->
  exists t o0 e0,
    AwaitAll p (seq 0 (List.length (tasks p))) = Some (Raised o0 e0) /\
    status_of p t = Some (Done (Raised o0 e0)) /\ In t (called p) /\
    (forall t', t' < t -> status_of p t' = Some (Done Returned)) /\
    status_of p o0 = Some (Done (Raised o0 e0)) /\ In o0 (called p).
Proof.
  intros Hinv Hdone Hj.
  destruct (first_failed p j) as (t & Hle & (o0 & e0 & Ht) & Hmin); [eauto|].
  assert (Hlen : t < List.length (tasks p)).
  { apply status_of_nth in Ht as [f [Hf _]]. apply nth_error_Some. congruence. }
  assert (Hbefore : forall t', t' < t -> status_of p t' = Some (Done Returned)).
  { intros t' Ht'. destruct (Hdone t' ltac:(lia)) as [[|o' e'] Hr]; [exact Hr|].
    exfalso. apply (Hmin t' Ht'). eauto. }
  destruct (proj2 (proj2 Hinv) t o0 e0 Ht) as (Hor & Hc).
  assert (Hcalled : In t (called p)).
  { pose proof Ht as Ht'. apply status_of_nth in Ht' as [f [Hf Hs]].
    destruct (proj1 (proj2 Hinv) t f Hf) as [Hwf Hst]. rewrite Hs in Hst.
    destruct Hst as [(H & _)|(_ & k & x & Hk & _ & Hx)]; [exact H|].
    assert (Hlt : x < t).
    { rewrite Forall_forall in Hwf. apply Hwf. eapply nth_error_In; eauto. }
    rewrite (Hbefore x Hlt) in Hx. discriminate. }
  exists t, o0, e0.
  split; [|auto 6].
  replace (List.length (tasks p)) with (t + (List.length (tasks p) - t)) by lia.
  rewrite seq_app, AwaitAll_app_returned.
  - destruct (List.length (tasks p) - t) as [|d] eqn:Ed; [lia|].
    simpl. now rewrite Ht.
  - intros x Hx. apply in_seq in Hx. apply Hbefore. lia.
Qed.

(** C2.  In every state the task graph can reach, take a task one of whose
    listed dependencies has failed.  From then on its function is never
    called; whenever the task is done it has failed, with the exception
    object that [AwaitAll] meets first in its dependency list, which is the
    very object raised in the function of another task and is what
    awaiting the task raises; the task can be brought to its end; and once
    every task is done the top-level [AwaitAll(tasks)] raises the object
    with which the first failed task of [tasks] failed, again an object
    raised in a task's function. *)
Theorem Async_failed_dependency (p : pool) (i : nat) (f : future)
    (j o : nat) (e : exn) :
  reachable p ->
  nth_error (tasks p) i = Some f ->
  In j (wait f) ->
  status_of p j = Some (Done (Raised o e)) ->
  (forall q, steps p q -> ~ In i (called q)) /\
  (forall q r, steps p q -> status_of q i = Some (Done r) ->
     exists o' e',
       r = Raised o' e' /\ o' <> i /\
       AwaitAll q (wait f) = Some (Raised o' e') /\
       AwaitAll q [i] = Some (Raised o' e') /\
       status_of q o' = Some (Done (Raised o' e')) /\ In o' (called q)) /\
  (exists q o' e',
     steps p q /\ status_of q i = Some (Done (Raised o' e')) /\
     ~ In i (called q)) /\
  (forall q, steps p q -> all_done q ->
     exists t o0 e0,
       AwaitAll q (seq 0 (List.length (tasks q))) = Some (Raised o0 e0) /\
       status_of q t = Some (Done (Raised o0 e0)) /\ In t (called q) /\
       (forall t', t' < t -> status_of q t' = Some (Done Returned)) /\
       status_of q o0 = Some (Done (Raised o0 e0)) /\ In o0 (called q)).
Proof.
  intros Hreach Hf Hin Hj.
  assert (Hlater : forall q, steps p q ->
            pool_inv q /\
            status_of q j = Some (Done (Raised o e)) /\
            exists g, nth_error (tasks q) i = Some g /\ wait g = wait f).
  { intros q Hq. split; [|split].
    - apply pool_inv_reachable. unfold reachable.
      eapply steps_trans; eauto.
    - eapply done_steps; eauto.
    - eapply wait_steps; eauto. }
  split; [|split; [|split]].
  - intros q Hq. destruct (Hlater q Hq) as (Hinv & Hjq & g & Hg & Hw).
    apply (failed_dependency q i g j o e); try assumption. now rewrite Hw.
  - intros q r Hq Hr. destruct (Hlater q Hq) as (Hinv & Hjq & g & Hg & Hw).
    rewrite <- Hw.
    apply (failed_dependency q i g j o e); try assumption; [now rewrite Hw|].
    apply status_of_nth in Hr as [g' [Hg' Hs]]. congruence.
  - destruct (finish (S i) p (pool_inv_reachable p Hreach) i)
      as (q & Hq & [r Hr] & _); [lia | |].
    + apply nth_error_Some. congruence.
    + destruct (Hlater q Hq) as (Hinv & Hjq & g & Hg & Hw).
      assert (Hin' : In j (wait g)) by now rewrite Hw.
      destruct (failed_dependency q i g j o e Hinv Hg Hin' Hjq) as [Hnc Hd].
      pose proof Hr as Hr'. apply status_of_nth in Hr' as [g' [Hg' Hs]].
      assert (g' = g) by congruence. subst g'.
      destruct (Hd r Hs) as (o' & e' & -> & _).
      now exists q, o', e'.
  - intros q Hq Hdone. destruct (Hlater q Hq) as (Hinv & Hjq & _).
    now apply (AwaitAll_tasks q j o e).
Qed.

Lemma Async_failed_dependency_witness :
  ~ In 1 (called failed_pool) /\
  exists q o' e',
    steps failed_pool q /\ status_of q 1 = Some (Done (Raised o' e')) /\
    ~ In 1 (called q).
Proof.
  assert (Hreach : reachable failed_pool).
  { unfold reachable.
    apply steps_next with
      (q := mk_pool [mk_future [] (Done (Raised 0 (ValueError "Failed to find image")))]
              [0]).
    - apply steps_next with (q := mk_pool [mk_future [] (Waiting 0)] []).
      + apply steps_next with (q := start); [apply steps_refl|].
        apply (step_Async start []). constructor.
      + apply (step_call (mk_pool [mk_future [] (Waiting 0)] []) 0
                 (mk_future [] (Waiting 0))
                 (Raised 0 (ValueError "Failed to find image")));
          [reflexivity | reflexivity | right; left; eauto].
    - apply (step_Async
               (mk_pool [mk_future [] (Done (Raised 0 (ValueError "Failed to find image")))]
                  [0]) [0]).
      repeat constructor. }
  destruct (Async_failed_dependency failed_pool 1 (mk_future [0] (Waiting 0))
              0 0 (ValueError "Failed to find image") Hreach eq_refl
              (or_introl eq_refl) eq_refl) as (H1 & _ & H3 & _).
  split; [|exact H3]. apply H1. apply steps_refl.
Defined.

(** ** More on the task graph *)

Lemma called_deps_returned (p : pool) (i : nat) (f : future) (j : nat) :
  pool_inv p -> nth_error (tasks p) i = Some f -> In i (called p) ->
  In j (wait f) -> status_of p j = Some (Done Returned).
Proof.
  intros Hinv Hf Hc Hj. destruct (proj1 (proj2 Hinv) i f Hf) as [_ Hst].
  destruct (state f) as [k|[|o e]].
  - destruct Hst as (_ & _ & Hn). contradiction.
  - destruct Hst as [_ Hd]. now apply (deps_returned_all p f j).
  - destruct Hst as [[_ Hd]|[Hn _]]; [|contradiction].
    now apply (deps_returned_all p f j).
Qed.

Lemma returned_called (p : pool) (i : nat) :
  pool_inv p -> status_of p i = Some (Done Returned) -> In i (called p).
Proof.
  intros Hinv Hi. apply status_of_nth in Hi as [f [Hf Hs]].
  destruct (proj1 (proj2 Hinv) i f Hf) as [_ Hst]. rewrite Hs in Hst.
  tauto.
Qed.

Lemma returned_pool_reachable : reachable returned_pool.
Proof.
  unfold reachable.
  apply steps_next with
    (q := mk_pool [mk_future [] (Done Returned); mk_future [0] (Waiting 1)]
            [0]).
  - apply steps_next with
      (q := mk_pool [mk_future [] (Done Returned);
                     mk_future [0] (Waiting 0)] [0]).
    + apply steps_next with
        (q := mk_pool [mk_future [] (Done Returned)] [0]).
      * apply steps_next with (q := mk_pool [mk_future [] (Waiting 0)] []).
        -- apply steps_next with (q := start); [apply steps_refl|].
           apply (step_Async start []). constructor.
        -- apply (step_call (mk_pool [mk_future [] (Waiting 0)] []) 0
                    (mk_future [] (Waiting 0)) Returned);
             [reflexivity | reflexivity | now left].
      * apply (step_Async (mk_pool [mk_future [] (Done Returned)] [0]) [0]).
        repeat constructor.
    + apply (step_result_returns
               (mk_pool [mk_future [] (Done Returned);
                         mk_future [0] (Waiting 0)] [0])
               1 (mk_future [0] (Waiting 0)) 0 0); reflexivity.
  - apply (step_call
             (mk_pool [mk_future [] (Done Returned);
                       mk_future [0] (Waiting 1)] [0])
             1 (mk_future [0] (Waiting 1)) Returned);
      [reflexivity | reflexivity | now left].
Qed.

Lemma chain_pool_reachable : reachable chain_pool.
Proof.
  unfold reachable.
  apply steps_next with
    (q := mk_pool
            [mk_future [] (Done (Raised 0 (ValueError "Failed to find image")));
             mk_future [0] (Waiting 0)] [0]).
  - apply steps_next with
      (q := mk_pool
              [mk_future [] (Done (Raised 0 (ValueError "Failed to find image")))]
              [0]).
    + apply steps_next with (q := mk_pool [mk_future [] (Waiting 0)] []).
      * apply steps_next with (q := start); [apply steps_refl|].
        apply (step_Async start []). constructor.
      * apply (step_call (mk_pool [mk_future [] (Waiting 0)] []) 0
                 (mk_future [] (Waiting 0))
                 (Raised 0 (ValueError "Failed to find image")));
          [reflexivity | reflexivity | right; left; eauto].
    + apply (step_Async
               (mk_pool
                  [mk_future [] (Done (Raised 0 (ValueError "Failed to find image")))]
                  [0]) [0]).
      repeat constructor.
  - apply (step_Async
             (mk_pool
                [mk_future [] (Done (Raised 0 (ValueError "Failed to find image")));
                 mk_future [0] (Waiting 0)] [0]) [1]).
    repeat constructor.
Qed.

(** X1.  In every state the task graph can reach, a task whose function
    has been called has all the futures of its [wait] list done, each
    having returned: [fn] never starts before [AwaitAll(wait)] has gone
    through the whole list. *)
Theorem Async_called_after_dependencies (p : pool) (i : nat) (f : future) :
  reachable p -> nth_error (tasks p) i = Some f -> In i (called p) ->
  forall j, In j (wait f) -> status_of p j = Some (Done Returned).
Proof.
  intros Hreach Hf Hc j Hj.
  apply (called_deps_returned p i f j); auto using pool_inv_reachable.
Qed.

Lemma Async_called_after_dependencies_witness :
  status_of returned_pool 0 = Some (Done Returned).
Proof.
  apply (Async_called_after_dependencies returned_pool 1
           (mk_future [0] (Done Returned)) returned_pool_reachable eq_refl).
  - simpl. auto.
  - simpl. auto.
Defined.

Lemma depends_steps (p q : pool) (i j : nat) :
  steps p q -> depends p i j -> depends q i j.
Proof.
  intros Hq Hd. induction Hd as [i j f Hf Hj | i k j f Hf Hk _ IH].
  - destruct (wait_steps p q i f Hq Hf) as [g [Hg Hw]].
    apply depends_direct with (f := g); [exact Hg | now rewrite Hw].
  - destruct (wait_steps p q i f Hq Hf) as [g [Hg Hw]].
    apply depends_via with (k := k) (f := g);
      [exact Hg | now rewrite Hw | exact IH].
Qed.

Lemma called_depends_returned (p : pool) (i j : nat) :
  pool_inv p -> depends p i j -> In i (called p) ->
  status_of p j = Some (Done Returned).
Proof.
  intros Hinv Hd. induction Hd as [i j f Hf Hj | i k j f Hf Hk _ IH];
    intros Hc.
  - now apply (called_deps_returned p i f j).
  - apply IH. apply returned_called; [exact Hinv|].
    now apply (called_deps_returned p i f k).
Qed.

(** X2.  Failure goes down the whole chain of dependencies.  When a future
    that a task depends on, directly or through other tasks, has failed,
    the function of the task is never called, now or later, and whenever
    the task is done it has failed. *)
Theorem Async_failure_propagates (p : pool) (i j o : nat) (e : exn) :
  reachable p -> depends p i j ->
  status_of p j = Some (Done (Raised o e)) ->
  forall q, steps p q ->
    ~ In i (called q) /\
    forall r, status_of q i = Some (Done r) -> exists o' e', r = Raised o' e'.
Proof.
  intros Hreach Hd Hj q Hq.
  assert (Hinv : pool_inv q).
  { apply pool_inv_reachable. unfold reachable. eapply steps_trans; eauto. }
  assert (Hjq : status_of q j = Some (Done (Raised o e)))
    by (eapply done_steps; eauto).
  assert (Hdq : depends q i j) by (eapply depends_steps; eauto).
  assert (Hnc : ~ In i (called q)).
  { intros Hc. rewrite (called_depends_returned q i j Hinv Hdq Hc) in Hjq.
    discriminate. }
  split; [exact Hnc|].
  intros [|o' e'] Hr; [|eauto].
  exfalso. apply Hnc. now apply returned_called.
Qed.

Lemma Async_failure_propagates_witness :
  ~ In 2 (called chain_pool).
Proof.
  apply (Async_failure_propagates chain_pool 2 0 0
           (ValueError "Failed to find image") chain_pool_reachable).
  - apply depends_via with (k := 1) (f := mk_future [1] (Waiting 0));
      [reflexivity | simpl; auto |].
    apply depends_direct with (f := mk_future [0] (Waiting 0));
      [reflexivity | simpl; auto].
  - reflexivity.
  - apply steps_refl.
Defined.

Lemma called_step (p q : pool) (i : nat) :
  step p q -> In i (called q) ->
  In i (called p) \/
  exists f, nth_error (tasks p) i = Some f /\
            state f = Waiting (List.length (wait f)).
Proof.
  intros Hstep Hi. destruct Hstep; simpl in Hi; auto.
  destruct Hi as [<-|Hi]; [right; eauto | now left].
Qed.

(** X3.  The function of a task is called at most once: in every state the
    task graph can reach no task occurs twice among the calls made. *)
Theorem Async_called_once (p : pool) : reachable p -> NoDup (called p).
Proof.
  unfold reachable. intros H.
  assert (Hgen : forall a b, steps a b -> pool_inv a -> NoDup (called a) ->
                             NoDup (called b)).
  { clear. intros a b Hs. induction Hs as [a|a b c Hab IH Hbc];
      intros Hinv Hnd; [exact Hnd|].
    specialize (IH Hinv Hnd).
    assert (Hinvb : pool_inv b) by (eapply pool_inv_steps; eauto).
    destruct Hbc as [b w Hw | b i f k j Hf Hs Hk Hj
                     | b i f k j o e Hf Hs Hk Hj | b i f r Hf Hs Hr];
      simpl; try exact IH.
    constructor; [|exact IH].
    destruct (proj1 (proj2 Hinvb) i f Hf) as [_ Hst]. rewrite Hs in Hst.
    tauto. }
  apply (Hgen start p H).
  - split; [|split].
    + intros i [].
    + intros [|i] f Hf; discriminate.
    + intros [|i] o e Hi; discriminate.
  - constructor.
Qed.

Lemma Async_called_once_witness : NoDup (called returned_pool).
Proof. exact (Async_called_once returned_pool returned_pool_reachable). Defined.

Lemma length_steps (p q : pool) :
  steps p q -> List.length (tasks p) <= List.length (tasks q).
Proof.
  intros H. induction H as [p|p q r Hpq IH Hqr]; [lia|].
  destruct Hqr; simpl; rewrite ?length_set_state, ?length_app; simpl; lia.
Qed.




Lemma AwaitAll_all_returned (p : pool) (fs : list nat) :
  (forall x, In x fs -> status_of p x = Some (Done Returned)) ->
  AwaitAll p fs = Some Returned.
Proof.
  intros H. rewrite <- (app_nil_r fs). now rewrite AwaitAll_app_returned.
Qed.

(** X5.  Once every task is done, the top-level [AwaitAll(tasks)] returns
    exactly when every task has returned, and raises exactly when some
    task has failed. *)
Theorem AwaitAll_tasks_outcome (p : pool) :
  reachable p -> all_done p ->
  (AwaitAll p (seq 0 (List.length (tasks p))) = Some Returned <->
   all_returned p) /\
  ((exists o e,
      AwaitAll p (seq 0 (List.length (tasks p))) = Some (Raised o e)) <->
   exists j o e, status_of p j = Some (Done (Raised o e))).
Proof.
  intros Hreach Hdone. pose proof (pool_inv_reachable p Hreach) as Hinv.
  assert (Hfail : forall j o e,
            status_of p j = Some (Done (Raised o e)) ->
            exists o0 e0,
              AwaitAll p (seq 0 (List.length (tasks p)))
              = Some (Raised o0 e0)).
  { intros j o e Hj.
    destruct (AwaitAll_tasks p j o e Hinv Hdone Hj)
      as (t & o0 & e0 & H & _).
    now exists o0, e0. }
  assert (Hret : all_returned p ->
                 AwaitAll p (seq 0 (List.length (tasks p))) = Some Returned).
  { intros Hall. apply AwaitAll_all_returned. intros x Hx.
    apply in_seq in Hx. apply Hall. lia. }
  assert (Hcases : all_returned p \/
                   exists j o e, status_of p j = Some (Done (Raised o e))).
  { unfold all_returned, all_done in *. clear Hfail Hret.
    induction (List.length (tasks p)) as [|n IH].
    - left. intros i Hi. lia.
    - destruct IH as [Hall|Hex]; [intros i Hi; apply Hdone; lia | |now right].
      destruct (Hdone n) as [[|o e] Hr]; [lia | |right; eauto].
      left. intros i Hi. destruct (Nat.eq_dec i n) as [->|Hne];
        [exact Hr | apply Hall; lia]. }
  split; split.
  - intros Ha. destruct Hcases as [Hall|(j & o & e & Hj)]; [exact Hall|].
    destruct (Hfail j o e Hj) as (o0 & e0 & H). congruence.
  - exact Hret.
  - intros (o & e & Ha). destruct Hcases as [Hall|Hex]; [|exact Hex].
    rewrite (Hret Hall) in Ha. discriminate.
  - intros (j & o & e & Hj). eauto.
Qed.

Lemma AwaitAll_tasks_outcome_witness :
  AwaitAll returned_pool (seq 0 (List.length (tasks returned_pool)))
  = Some Returned.
Proof.
  assert (Hdone : all_done returned_pool).
  { intros [|[|i]] Hi; simpl in Hi; [eexists; reflexivity ..|lia]. }
  apply (proj1 (AwaitAll_tasks_outcome returned_pool returned_pool_reachable
                  Hdone)).
  intros [|[|i]] Hi; simpl in Hi; [reflexivity ..|lia].
Defined.

Lemma finish_keeps_length (p q : pool) (i : nat) :
  steps p q -> i < List.length (tasks p) ->
  (forall i', i < i' -> nth_error (tasks q) i' = nth_error (tasks p) i') ->
  List.length (tasks q) = List.length (tasks p).
Proof.
  intros Hq Hi Hsame. apply Nat.le_antisymm; [|now apply length_steps].
  apply nth_error_None. rewrite Hsame by lia. now apply nth_error_None.
Qed.

(** X6.  From every state the task graph can reach, the threads can bring
    every task submitted so far to its end, without a task being added:
    no task waits for ever for its dependencies. *)
Theorem Async_can_complete (p : pool) :
  reachable p ->
  exists q, steps p q /\ all_done q /\
            List.length (tasks q) = List.length (tasks p).
Proof.
  intros Hreach. pose proof (pool_inv_reachable p Hreach) as Hinv.
  assert (Hgen : forall n, n <= List.length (tasks p) ->
            exists q, steps p q /\
                      List.length (tasks q) = List.length (tasks p) /\
                      forall i, i < n -> exists r,
                        status_of q i = Some (Done r)).
  { induction n as [|n IH]; intros Hn.
    - exists p. split; [apply steps_refl|]. split; [reflexivity|].
      intros i Hi. lia.
    - destruct IH as (q & Hq & Hlen & Hd); [lia|].
      assert (Hinvq : pool_inv q) by (eapply pool_inv_steps; eauto).
      destruct (finish (S n) q Hinvq n) as (q' & Hq' & [r Hr] & Hsame);
        [lia | lia |].
      exists q'. split; [eapply steps_trans; eauto|]. split.
      + rewrite <- Hlen. apply (finish_keeps_length q q' n); [assumption|lia|].
        exact Hsame.
      + intros i Hi. destruct (Nat.eq_dec i n) as [->|Hne]; [now exists r|].
        destruct (Hd i) as [r' Hr']; [lia|]. exists r'.
        eapply done_steps; eauto. }
  destruct (Hgen (List.length (tasks p)) (Nat.le_refl _))
    as (q & Hq & Hlen & Hd).
  exists q. split; [exact Hq|]. split; [|exact Hlen].
  intros i Hi. apply Hd. lia.
Qed.

Lemma Async_can_complete_witness :
  exists q, steps chain_pool q /\ all_done q /\
            List.length (tasks q) = 3.
Proof. exact (Async_can_complete chain_pool chain_pool_reachable). Defined.

(** ** More on the parser *)

Lemma setitem_at_wf (ref : nat) (key value : string)
    (ds ds' : list descriptor) :
  (forall name d, In (name, DDict d) ds -> Dict.wf d) ->
  setitem_at ref key value ds = Ok ds' ->
  forall name d, In (name, DDict d) ds' -> Dict.wf d.
Proof.
  revert ref ds'. induction ds as [|[n v] r IH]; intros ref ds' Hwf H;
    [now destruct ref|].
  destruct ref as [|ref]; simpl in H.
  - destruct v as [s|d0]; [discriminate|]. injection H as <-.
    intros name d [[= <- <-]|Hin].
    + apply wf_set. apply (Hwf n). now left.
    + apply (Hwf name). now right.
  - assert (H' : (rest' <- setitem_at ref key value r ;;
                  Ok ((n, v) :: rest')) = Ok ds') by now destruct v.
    clear H. rename H' into H.
    bind_inv H. injection H as <-. intros name d [Hin|Hin].
    + apply (Hwf name). left. exact Hin.
    + refine (IH ref x _ E name d Hin).
      intros name' d' Hin'. apply (Hwf name'). now right.
Qed.

Lemma ReadDescriptors_loop_wf (gen : list row) :
  forall cur_indent ref ds ds',
    (forall name d, In (name, DDict d) ds -> Dict.wf d) ->
    ReadDescriptors_loop gen cur_indent ref ds = Ok ds' ->
    forall name d, In (name, DDict d) ds' -> Dict.wf d.
Proof.
  induction gen as [|[[indent key] value] gen IH];
    intros cur_indent ref ds ds' Hwf H; simpl in H.
  - now injection H as <-.
  - destruct (indent <=? cur_indent)%string.
    + refine (IH _ _ _ _ _ H). intros name d Hin.
      apply in_app_iff in Hin as [Hin|[Hin|[]]]; [now apply (Hwf name)|].
      unfold new_descriptor in Hin.
      destruct (key =? "Prop")%string; [discriminate|].
      injection Hin as <- <-. constructor.
    + bind_inv H. refine (IH _ _ _ _ _ H).
      now apply (setitem_at_wf ref key value ds x).
Qed.

Lemma read_info_wf (gen : list row) :
  forall (acc i : info) (d : list descriptor),
    Dict.wf acc -> Dict.get "Descriptors" acc = None ->
    read_info gen acc = Ok (i, d) ->
    Dict.wf i /\ Dict.get "Descriptors" i = None /\
    forall name fields, In (name, DDict fields) d -> Dict.wf fields.
Proof.
  induction gen as [|[[indent key] value] gen IH]; intros acc i d Hwf Hn H;
    simpl in H.
  - injection H as <- <-. repeat split; try assumption. intros name fields [].
  - destruct (String.eqb_spec key "Descriptors") as [->|Hne].
    + destruct gen as [|[[ci cn] cv] gen]; [discriminate|].
      bind_inv H. injection H as <- <-. repeat split; try assumption.
      unfold ReadDescriptors in E. simpl in E.
      refine (ReadDescriptors_loop_wf gen ci 0 _ x _ E).
      intros name d [Hin|[]]. unfold new_descriptor in Hin.
      destruct (cn =? "Prop")%string; [discriminate|].
      injection Hin as <- <-. constructor.
    + apply (IH (Dict.set key value acc)); [now apply wf_set | | exact H].
      now rewrite get_set_other.
Qed.

Lemma AvbInfo_parsed (depth : nat) :
  forall (w : world) (a : args) (temps : list string) (image_path : string)
         (x : info * list descriptor),
    AvbInfo depth w a temps image_path = Ok (Some x) ->
    exists out, parse_info_image out = Ok x.
Proof.
  induction depth as [|depth IH]; intros w a temps image_path x H;
    [discriminate|].
  simpl in H.
  destruct (negb (path_exists w image_path || str_in image_path temps));
    [discriminate|].
  bind_inv H. destruct x0.
  - bind_inv H. now apply IH in H.
  - bind_inv H. destruct x0 as [out ret_code].
    destruct (Z.eqb ret_code 1); [discriminate|].
    bind_inv H. injection H as <-. now exists out.
Qed.

(** X7.  Whatever [AvbInfo] returns as metadata is well formed: the value
    of every [Prop] descriptor is a string and that of every other
    descriptor a dictionary; no key occurs twice in the info or in the
    fields of a descriptor; and the info has no key [Descriptors]. *)
Theorem AvbInfo_well_formed (depth : nat) (w : world) (a : args)
    (temps : list string) (image_path : string) (i : info)
    (d : list descriptor) :
  AvbInfo depth w a temps image_path = Ok (Some (i, d)) ->
  well_formed d /\ Dict.wf i /\ Dict.get "Descriptors" i = None /\
  forall name fields, In (name, DDict fields) d -> Dict.wf fields.
Proof.
  intros H. apply AvbInfo_parsed in H as [out H].
  split; [now apply (parse_info_image_well_formed out i)|].
  unfold parse_info_image, parse_lines in H.
  refine (read_info_wf _ Dict.empty i d _ _ H); [constructor | reflexivity].
Qed.

Lemma AvbInfo_well_formed_witness :
  exists i d,
    AvbInfo 1 sample_world plain_args [] "kernel" = Ok (Some (i, d)) /\
    well_formed d /\ Dict.wf i.
Proof.
  eexists. eexists. split; [reflexivity|].
  destruct (AvbInfo_well_formed 1 sample_world plain_args [] "kernel" _ _
              eq_refl) as (H1 & H2 & _).
  split; [exact H1 | exact H2].
Defined.

Lemma read_info_last_value (gen : list row) :
  forall (acc i : info) (d : list descriptor),
    read_info gen acc = Ok (i, d) ->
    forall k,
      Dict.get k i =
      match last_value k (info_section gen) with
      | Some v => Some v
      | None => Dict.get k acc
      end.
Proof.
  induction gen as [|[[indent key] value] gen IH]; intros acc i d H k;
    simpl in H.
  - injection H as <- <-. reflexivity.
  - simpl info_section. destruct (key =? "Descriptors")%string eqn:Ek.
    + destruct gen as [|first gen]; [discriminate|].
      bind_inv H. injection H as <- <-. reflexivity.
    + rewrite (IH _ _ _ H k). simpl.
      destruct (last_value k (info_section gen)); [reflexivity|].
      destruct (String.eqb_spec key k) as [->|Hne].
      * apply get_set_same.
      * now apply get_set_other.
Qed.

Lemma read_info_no_descriptors (gen : list row) :
  forall (acc i : info) (d : list descriptor),
    has_descriptors_line gen = false ->
    read_info gen acc = Ok (i, d) -> d = [].
Proof.
  induction gen as [|[[indent key] value] gen IH]; intros acc i d Hn H;
    simpl in *.
  - now injection H as _ <-.
  - apply orb_false_iff in Hn as [Hk Hn]. rewrite Hk in H.
    now apply (IH _ _ _ Hn H).
Qed.

(** X8.  When the parser returns, the info maps a key to the value of the
    last matched line of that name before the [Descriptors] line, and has
    no other key; and without a [Descriptors] line there is no
    descriptor. *)
Theorem parse_lines_info (lines : list string) (i : info)
    (d : list descriptor) :
  parse_lines lines = Ok (i, d) ->
  (forall k, Dict.get k i = last_value k (info_section (matched lines))) /\
  (has_descriptors_line (matched lines) = false -> d = []).
Proof.
  unfold parse_lines. intros H. split.
  - intros k. rewrite (read_info_last_value _ _ _ _ H k).
    now destruct (last_value k (info_section (matched lines))).
  - intros Hn. now apply (read_info_no_descriptors _ _ _ _ Hn H).
Qed.

Lemma parse_lines_info_witness :
  exists i d,
    parse_lines report_lines = Ok (i, d) /\
    Dict.get "Image size" i = Some "4096 bytes" /\
    Dict.get "Partition Name" i = None.
Proof.
  eexists. eexists. split; [reflexivity|].
  destruct (parse_lines_info report_lines _ _ eq_refl) as [H _].
  split; [exact (H "Image size") | exact (H "Partition Name")].
Defined.

Lemma read_info_header (before : list row) :
  forall (acc : info) (hi hv : string) (rest : list row),
    has_descriptors_line before = false ->
    read_info (before ++ (hi, "Descriptors", hv) :: rest) acc =
    match rest with
    | [] => Raise StopIteration
    | first :: gen =>
        descriptors <- ReadDescriptors first gen [] ;;
        Ok (fold_left (fun i r => Dict.set (snd (fst r)) (snd r) i) before acc,
            descriptors)
    end.
Proof.
  induction before as [|[[indent key] value] before IH];
    intros acc hi hv rest Hn; simpl in *.
  - reflexivity.
  - apply orb_false_iff in Hn as [Hk Hn]. rewrite Hk. now apply IH.
Qed.

(** X9.  Two reports make the parser raise.  When no matched line follows
    the first [Descriptors] line, as in the report of an image without
    descriptors, [next(gen)] raises [StopIteration]; when the first
    descriptor is a [Prop] and the next matched line is indented deeper,
    the assignment to the string raises [TypeError]. *)
Theorem parse_lines_raises (lines : list string) (before : list row)
    (hi hv : string) :
  has_descriptors_line before = false ->
  (matched lines = before ++ [(hi, "Descriptors", hv)] ->
   parse_lines lines = Raise StopIteration) /\
  (forall ci cv indent key value rest,
     matched lines =
     before ++ (hi, "Descriptors", hv) :: (ci, "Prop", cv)
            :: (indent, key, value) :: rest ->
     (ci <? indent)%string = true ->
     parse_lines lines =
     Raise (TypeError "'str' object does not support item assignment")).
Proof.
  intros Hn. unfold parse_lines. split.
  - intros ->. now rewrite read_info_header.
  - intros ci cv indent key value rest -> Hlt.
    rewrite read_info_header by assumption.
    unfold ReadDescriptors. simpl.
    rewrite str_ltb_leb in Hlt. apply negb_true_iff in Hlt.
    now rewrite Hlt.
Qed.

Lemma parse_lines_raises_witness :
  parse_lines none_report = Raise StopIteration /\
  parse_lines prop_child_report =
  Raise (TypeError "'str' object does not support item assignment").
Proof.
  split.
  - exact (proj1 (parse_lines_raises none_report
                    [("", "Algorithm", "SHA256_RSA4096")] "" "" eq_refl)
             eq_refl).
  - exact (proj2 (parse_lines_raises prop_child_report [] "" "" eq_refl)
             "    " "com.android.virt.cap -> '1'" "      " "Image Size"
             "1024 bytes" [] eq_refl eq_refl).
Defined.

(** ** The line matcher *)

Lemma cut_colon_some (s head tail : string) :
  cut_colon s = Some (head, tail) ->
  s = (head ++ ":" ++ tail)%string /\ has_char ":" head = false.
Proof.
  revert head. induction s as [|c r IH]; intros head H; simpl in H;
    [discriminate|].
  destruct (Ascii.eqb_spec c ":") as [->|Hc].
  - injection H as <- <-. now split.
  - destruct (cut_colon r) as [[a b]|]; [|discriminate].
    injection H as <- <-. destruct (IH a eq_refl) as [-> Hh]. split.
    + reflexivity.
    + simpl. rewrite Hh. now destruct (Ascii.eqb_spec c ":").
Qed.

Lemma cut_colon_app (head tail : string) :
  has_char ":" head = false ->
  cut_colon (head ++ ":" ++ tail) = Some (head, tail).
Proof.
  induction head as [|c r IH]; intros H; simpl in *; [reflexivity|].
  apply orb_false_iff in H as [Hc Hr]. rewrite Hc, (IH Hr). reflexivity.
Qed.

Lemma cut_colon_none (s : string) :
  cut_colon s = None <-> has_char ":" s = false.
Proof.
  induction s as [|c r IH]; simpl; [tauto|].
  destruct (Ascii.eqb c ":"); simpl; [split; discriminate|].
  destruct (cut_colon r) as [[a b]|].
  - split; [discriminate|]. intros H. apply IH in H. discriminate.
  - split; [|reflexivity]. intros _. now apply IH.
Qed.

Lemma span_space_spec (s ws rest : string) :
  span_space s = (ws, rest) ->
  s = (ws ++ rest)%string /\ all_space ws = true /\
  starts_with_space rest = false.
Proof.
  revert ws. induction s as [|c r IH]; intros ws H; simpl in H.
  - injection H as <- <-. now repeat split.
  - destruct (is_space c) eqn:Ec.
    + destruct (span_space r) as [ws' rest'].
      injection H as <- <-. destruct (IH ws' eq_refl) as (-> & Hw & Hr).
      repeat split; [|exact Hr]. simpl. now rewrite Ec, Hw.
    + injection H as <- <-. now repeat split.
Qed.

Lemma span_space_app (ws rest : string) :
  all_space ws = true -> starts_with_space rest = false ->
  span_space (ws ++ rest) = (ws, rest).
Proof.
  intros Hw Hr. induction ws as [|c r IH]; simpl in *.
  - destruct rest as [|c r]; [reflexivity|]. simpl in *. now rewrite Hr.
  - apply andb_true_iff in Hw as [Hc Hw]. now rewrite Hc, (IH Hw).
Qed.

Lemma split_last_spec (s : string) :
  forall (c : ascii) (init : string) (l : ascii),
    split_last c s = (init, l) ->
    String c s = (init ++ String l EmptyString)%string /\
    (all_space (String c s) = true ->
     all_space init = true /\ is_space l = true).
Proof.
  induction s as [|c' r IH]; intros c init l H; simpl in H.
  - injection H as <- <-. split; [reflexivity|]. simpl.
    rewrite andb_true_r. now split.
  - destruct (split_last c' r) as [init' l'] eqn:E.
    injection H as <- <-. destruct (IH c' init' l' E) as [Heq Hsp].
    split; [simpl; now rewrite Heq|].
    intros Hall. change (is_space c && all_space (String c' r) = true) in Hall.
    apply andb_true_iff in Hall as [Hc Hall].
    destruct (Hsp Hall) as [Hi Hl]. split; [|exact Hl].
    simpl. now rewrite Hc, Hi.
Qed.

Lemma split_last_app (init : string) (l : ascii) :
  forall c s, String c s = (init ++ String l EmptyString)%string ->
  split_last c s = (init, l).
Proof.
  induction init as [|c' r IH]; intros c s H; simpl in H.
  - now injection H as -> ->.
  - injection H as -> ->.
    destruct (r ++ String l EmptyString)%string as [|c2 s2] eqn:E.
    + now destruct r.
    + simpl. now rewrite (IH c2 s2 eq_refl).
Qed.

Lemma all_space_app (a b : string) :
  all_space (a ++ b) = all_space a && all_space b.
Proof.
  induction a as [|c r IH]; simpl; [reflexivity|].
  now rewrite IH, andb_assoc.
Qed.

Lemma all_space_no_colon (s : string) :
  all_space s = true -> has_char ":" s = false.
Proof.
  induction s as [|c r IH]; simpl; [reflexivity|]. intros H.
  apply andb_true_iff in H as [Hc Hr]. rewrite (IH Hr), orb_false_r.
  destruct (Ascii.eqb_spec c ":") as [->|]; [discriminate|reflexivity].
Qed.

Lemma has_char_app (c : ascii) (a b : string) :
  has_char c (a ++ b) = has_char c a || has_char c b.
Proof.
  induction a as [|x r IH]; simpl; [reflexivity|].
  now rewrite IH, orb_assoc.
Qed.

Lemma string_app_assoc (a b c : string) :
  ((a ++ b) ++ c = a ++ b ++ c)%string.
Proof. induction a as [|x r IH]; simpl; [reflexivity|]. now rewrite IH. Qed.

Lemma string_length_app (a b : string) :
  String.length (a ++ b) = String.length a + String.length b.
Proof. induction a as [|x r IH]; simpl; [reflexivity|]. now rewrite IH. Qed.

Lemma string_app_nil_r (a : string) : (a ++ EmptyString)%string = a.
Proof. induction a as [|x r IH]; simpl; [reflexivity|]. now rewrite IH. Qed.

(** X10.  [matcher] matches a line exactly when the line splits into
    whitespace, a name, a colon, whitespace and a value, where the name is
    not empty and has no colon, the value does not start with whitespace,
    and the name starts with whitespace only when it is one whitespace
    character; the groups then are the first whitespace, the name and the
    value.  A line is not matched exactly when it has no colon or starts
    with one. *)
Theorem match_line_groups (line g1 g2 g3 : string) :
  (match_line line = Some (g1, g2, g3) <->
   exists ws, line_parts line g1 g2 ws g3) /\
  (match_line line = None <->
   has_char ":" line = false \/ exists rest, line = String ":" rest).
Proof.
  split; [split|].
  - unfold match_line. intros H.
    destruct (cut_colon line) as [[head tail]|] eqn:Ec; [|discriminate].
    apply cut_colon_some in Ec as [-> Hh].
    destruct head as [|c r]; [discriminate|].
    destruct (span_space tail) as [ws g] eqn:Et.
    assert (Hl : lstrip tail = g) by (unfold lstrip; now rewrite Et).
    apply span_space_spec in Et as (-> & Hws & Hg).
    exists ws. rewrite Hl in H.
    destruct (span_space (String c r)) as [w name] eqn:Es.
    apply span_space_spec in Es as (Es & Hw & Hname).
    destruct name as [|n name].
    + destruct (split_last c r) as [init l] eqn:El.
      injection H as <- <- <-.
      rewrite string_app_nil_r in Es.
      apply split_last_spec in El as [El Hall].
      rewrite <- Es in Hw. destruct (Hall Hw) as [Hi Hl'].
      rewrite El in *. rewrite string_app_assoc.
      repeat split; try assumption; try discriminate.
      rewrite has_char_app in Hh. now apply orb_false_iff in Hh as [_ Hh].
    + injection H as <- <- <-. rewrite Es in *. rewrite string_app_assoc.
      repeat split; try assumption; try discriminate.
      * rewrite has_char_app in Hh. now apply orb_false_iff in Hh as [_ Hh].
      * intros Hs. simpl in Hs, Hname. congruence.
  - intros [ws (-> & H1 & Hws & Hne & Hc & H3 & Hsingle)].
    unfold match_line. rewrite <- string_app_assoc.
    rewrite cut_colon_app
      by (rewrite has_char_app, Hc, (all_space_no_colon g1 H1); reflexivity).
    assert (Hl : lstrip (ws ++ g3) = g3)
      by (unfold lstrip; now rewrite (span_space_app ws g3 Hws H3)).
    rewrite Hl.
    destruct (g1 ++ g2)%string as [|c r] eqn:Egg.
    { destruct g1; [now destruct g2 | discriminate]. }
    destruct (starts_with_space g2) eqn:Esp.
    + destruct g2 as [|l [|x y]];
        [discriminate | | specialize (Hsingle eq_refl); discriminate].
      simpl in Esp.
      assert (Hs : span_space (String c r) = (String c r, EmptyString)).
      { rewrite <- (string_app_nil_r (String c r)) at 1.
        apply span_space_app; [|reflexivity].
        rewrite <- Egg, all_space_app, H1. simpl. now rewrite Esp. }
      rewrite Hs. now rewrite (split_last_app g1 l c r (eq_sym Egg)).
    + rewrite <- Egg, (span_space_app g1 g2 H1 Esp).
      destruct g2; [now contradiction Hne | reflexivity].
  - unfold match_line. split.
    + intros H. destruct (cut_colon line) as [[head tail]|] eqn:Ec.
      * apply cut_colon_some in Ec as [-> _].
        destruct head as [|c r]; [right; now exists tail|].
        destruct (span_space (String c r)) as [w [|n name]];
          [destruct (split_last c r)|]; discriminate.
      * left. now apply cut_colon_none.
    + intros [H|H].
      * apply cut_colon_none in H. now rewrite H.
      * destruct H as [rest ->]. reflexivity.
Qed.

(** ** More on hash descriptors *)

Lemma hash_comprehension_get {A : Type} (f : dvalue -> result A)
    (descs : list descriptor) :
  forall (acc r : Dict.dict A),
    hash_comprehension f (find_all_values_by_key descs "Hash descriptor") acc
    = Ok r ->
    (forall p,
       Dict.get p r =
       match last_hash p descs with
       | Some v => match f v with Ok a => Some a | Raise _ => None end
       | None => Dict.get p acc
       end) /\
    (forall v, In ("Hash descriptor", v) descs ->
       exists p a, desc_getitem "Partition Name" v = Ok p /\ f v = Ok a).
Proof.
  unfold find_all_values_by_key.
  induction descs as [|[name v] rest IH]; intros acc r H; simpl in H.
  - injection H as <-. split; [reflexivity | intros v []].
  - simpl last_hash. destruct (String.eqb_spec name "Hash descriptor")
      as [->|Hne]; simpl in H.
    + bind_inv H. rename x into p0. bind_inv H. rename x into a0.
      destruct (IH _ _ H) as [Hget Hall]. split.
      * intros p. rewrite (Hget p).
        destruct (last_hash p rest); [reflexivity|]. rewrite E.
        destruct (String.eqb_spec p0 p) as [->|Hp].
        -- now rewrite E0, get_set_same.
        -- now apply get_set_other.
      * intros v' [[= <-]|Hin]; [now exists p0, a0 | now apply Hall].
    + destruct (IH _ _ H) as [Hget Hall]. split.
      * intros p. rewrite (Hget p). now destruct (last_hash p rest).
      * intros v' [[= E _]|Hin]; [congruence | now apply Hall].
Qed.

(** X11.  When [extract_hash_descriptors] returns, its dictionary maps a
    partition name to [f] of the last [Hash descriptor] with that name and
    has no other key: descriptors of other kinds are ignored, and of two
    hash descriptors for one partition the later one wins.  It returns
    only if every hash descriptor has a [Partition Name] and [f] returns
    on it. *)
Theorem extract_hash_descriptors_lookup {A : Type}
    (descs : list descriptor) (f : dvalue -> result A) (r : Dict.dict A) :
  extract_hash_descriptors (Some descs) f = Ok r ->
  (forall p,
     Dict.get p r =
     match last_hash p descs with
     | Some v => match f v with Ok a => Some a | Raise _ => None end
     | None => None
     end) /\
  (forall v, In ("Hash descriptor", v) descs ->
     exists p a, desc_getitem "Partition Name" v = Ok p /\ f v = Ok a) /\
  Dict.wf r.
Proof.
  intros H. split; [|split].
  - intros p. unfold extract_hash_descriptors in H. simpl in H.
    apply hash_comprehension_get in H as [Hget _]. exact (Hget p).
  - unfold extract_hash_descriptors in H. simpl in H.
    now apply hash_comprehension_get in H as [_ Hall].
  - exact (extract_hash_descriptors_wf _ _ _ H).
Qed.

Lemma extract_hash_descriptors_lookup_witness :
  exists r,
    extract_hash_descriptors
      (Some [hash_of "boot" "aa"; ("Prop", DStr "x"); hash_of "boot" "bb"])
      digest_of = Ok r /\
    Dict.get "boot" r = Some [xbb].
Proof.
  eexists. split; [reflexivity|].
  exact (proj1 (extract_hash_descriptors_lookup
                  [hash_of "boot" "aa"; ("Prop", DStr "x");
                   hash_of "boot" "bb"] digest_of _ eq_refl) "boot").
Defined.

(** X12.  [drop_digest] of a descriptor's fields removes the key [Digest]
    and nothing else: every other key keeps its value, no key is added,
    and dropping twice is dropping once.  On the text of a [Prop] it
    raises [AttributeError]. *)
Theorem drop_digest_spec (d : Dict.dict string) :
  (exists d', drop_digest (DDict d) = Ok d' /\
     Dict.get "Digest" d' = None /\
     (forall k, k <> "Digest"%string -> Dict.get k d' = Dict.get k d) /\
     (Dict.wf d -> Dict.wf d') /\
     drop_digest (DDict d') = Ok d') /\
  (forall s, exists msg, drop_digest (DStr s) = Raise (AttributeError msg)).
Proof.
  split; [|intros s; now eexists].
  exists (Dict.remove "Digest" d). split; [reflexivity|].
  split; [apply get_remove_same|].
  split; [intros k Hk; apply get_remove_other; congruence|].
  split; [apply wf_remove|].
  assert (Hi : Dict.remove "Digest" (Dict.remove "Digest" d) =
               Dict.remove "Digest" d).
  { unfold Dict.remove. induction d as [|[k x] r IH]; simpl; [reflexivity|].
    destruct (negb (k =? "Digest")%string) eqn:E; simpl; [|exact IH].
    now rewrite E, IH. }
  change (Ok (Dict.remove "Digest" (Dict.remove "Digest" d)) =
          Ok (Dict.remove "Digest" d)).
  now rewrite Hi.
Qed.

(** ** Key overrides *)

Lemma split_on_length (c : ascii) (s : string) :
  List.length (split_on c s) = S (count_char c s).
Proof.
  induction s as [|x r IH]; simpl; [reflexivity|].
  destruct (Ascii.eqb x c); simpl; [now rewrite IH|].
  destruct (split_on c r); simpl in *; [discriminate | exact IH].
Qed.

Lemma split_on_plain (c : ascii) (s : string) :
  has_char c s = false -> split_on c s = [s].
Proof.
  induction s as [|x r IH]; simpl; [reflexivity|]. intros H.
  apply orb_false_iff in H as [Hx Hr]. now rewrite Hx, (IH Hr).
Qed.

Lemma split_on_join (c : ascii) (a b : string) :
  has_char c a = false ->
  split_on c (a ++ String c b) = a :: split_on c b.
Proof.
  induction a as [|x r IH]; simpl; intros H.
  - now rewrite Ascii.eqb_refl.
  - apply orb_false_iff in H as [Hx Hr]. now rewrite Hx, (IH Hr).
Qed.

Lemma count_char_has (c : ascii) (s : string) :
  count_char c s = 0 <-> has_char c s = false.
Proof.
  induction s as [|x r IH]; simpl; [tauto|].
  destruct (Ascii.eqb x c); simpl; [split; discriminate | exact IH].
Qed.

Lemma unpack_pair_ok (parts : list string) :
  (exists nk, unpack_pair parts = Ok nk) <-> List.length parts = 2.
Proof.
  destruct parts as [|a [|b [|c r]]]; simpl; split;
    try discriminate; try (intros [nk H]; discriminate); try reflexivity.
  intros _. now eexists.
Qed.

Lemma key_overrides_loop_ok (pairs : list string) :
  forall acc,
    (exists d, key_overrides_loop pairs acc = Ok d) <->
    Forall (fun p => count_char "=" p = 1) pairs.
Proof.
  induction pairs as [|p rest IH]; intros acc; simpl.
  - split; [constructor | now eexists].
  - split.
    + intros [d H]. bind_inv H. destruct x as [name key]. constructor.
      * assert (Hl : List.length (split_on "=" p) = 2)
          by (apply unpack_pair_ok; exists (name, key); exact E).
        rewrite split_on_length in Hl. congruence.
      * apply (IH (Dict.set name key acc)). now exists d.
    + intros H. inversion H as [|? ? Hp Hrest]; subst.
      assert (Hl : List.length (split_on "=" p) = 2)
        by (rewrite split_on_length; congruence).
      apply unpack_pair_ok in Hl as [[name key] ->]. cbn [bind].
      now apply IH.
Qed.

Lemma key_overrides_loop_get (l : list (string * string)) :
  Forall (fun nk => has_char "=" (fst nk) = false /\
                    has_char "=" (snd nk) = false) l ->
  forall acc, exists d,
    key_overrides_loop (map override_text l) acc = Ok d /\
    (Dict.wf acc -> Dict.wf d) /\
    forall name,
      Dict.get name d =
      match last_override name l with
      | Some k => Some k
      | None => Dict.get name acc
      end.
Proof.
  induction 1 as [|[n k] l [Hn Hk] _ IH]; intros acc; simpl.
  - exists acc. now repeat split.
  - unfold override_text at 1. simpl fst. simpl snd.
    change (n ++ "=" ++ k)%string with (n ++ String "=" k)%string.
    rewrite (split_on_join "=" n k Hn), (split_on_plain "=" k Hk).
    cbn [unpack_pair bind].
    destruct (IH (Dict.set n k acc)) as (d & Hd & Hwf & Hget).
    exists d. split; [exact Hd|]. split.
    + intros Ha. apply Hwf. now apply wf_set.
    + intros name. rewrite (Hget name).
      destruct (last_override name l); [reflexivity|].
      destruct (String.eqb_spec n name) as [->|Hne].
      * apply get_set_same.
      * now apply get_set_other.
Qed.

Lemma key_overrides_loop_raises (pairs : list string) :
  forall acc e,
    key_overrides_loop pairs acc = Raise e -> exists msg, e = ValueError msg.
Proof.
  induction pairs as [|p rest IH]; intros acc e H; simpl in H;
    [discriminate|].
  destruct (unpack_pair (split_on "=" p)) as [[name key]|e'] eqn:E;
    cbn [bind] in H.
  - now apply IH in H.
  - injection H as <-. unfold unpack_pair in E.
    destruct (split_on "=" p) as [|a [|b [|c r]]]; try discriminate;
      injection E as <-; now eexists.
Qed.

(** X13.  [ParseArgs] turns the [--key_override] values into a map exactly
    when each of them has one equals sign; otherwise unpacking the split
    pair raises [ValueError].  For values [name=key] without further
    equals signs, the map sends a name to the key of its last override
    and has no other entry. *)
Theorem ParseArgs_key_overrides (pairs : list string)
    (l : list (string * string)) :
  ((exists d, key_overrides (Some pairs) = Ok d) <->
   Forall (fun p => count_char "=" p = 1) pairs) /\
  (forall e, key_overrides (Some pairs) = Raise e ->
             exists msg, e = ValueError msg) /\
  (Forall (fun nk => has_char "=" (fst nk) = false /\
                     has_char "=" (snd nk) = false) l ->
   exists d,
     key_overrides (Some (map override_text l)) = Ok d /\ Dict.wf d /\
     forall name, Dict.get name d = last_override name l).
Proof.
  split; [|split].
  - destruct pairs as [|p rest].
    + split; [constructor | now eexists].
    + apply (key_overrides_loop_ok (p :: rest) Dict.empty).
  - intros e H. destruct pairs as [|p rest]; [discriminate|].
    now apply (key_overrides_loop_raises (p :: rest) Dict.empty).
  - intros H.
    destruct (key_overrides_loop_get l H Dict.empty) as (d & Hd & Hwf & Hget).
    exists d. split; [|split].
    + destruct l; [simpl in *; congruence | exact Hd].
    + apply Hwf. constructor.
    + intros name. rewrite (Hget name).
      now destruct (last_override name l).
Qed.

Lemma ParseArgs_key_overrides_witness :
  exists d,
    key_overrides (Some ["kernel=a.pem"; "rialto=b.pem"; "kernel=c.pem"])
    = Ok d /\
    Dict.get "kernel" d = Some "c.pem".
Proof.
  destruct (proj2 (proj2 (ParseArgs_key_overrides []
                     [("kernel", "a.pem"); ("rialto", "b.pem");
                      ("kernel", "c.pem")]))) as (d & Hd & _ & Hget).
  - repeat constructor.
  - exists d. split; [exact Hd | exact (Hget "kernel")].
Defined.

(** ** Integers and their text *)

Lemma int_digits_acc (d : Decimal.uint) :
  forall (p : positive) (k : nat),
    int_digits (DecimalString.NilEmpty.string_of_uint d) (Npos p) k true =
    Some (Npos (Pos.of_uint_acc d p), k + Decimal.nb_digits d, EmptyString).
Proof.
  induction d; intros p k; cbn [DecimalString.NilEmpty.string_of_uint
    int_digits Pos.of_uint_acc Decimal.nb_digits];
    [now rewrite Nat.add_0_r | ..];
    change (is_digit _) with true; cbv iota;
    rewrite <- Nat.add_succ_comm; rewrite <- IHd; f_equal;
    match goal with
    | |- context [digit_value ?c] =>
        let v := eval vm_compute in (digit_value c) in
        change (digit_value c) with v
    end; lia.
Qed.

Lemma int_digits_uint (d : Decimal.uint) :
  forall (k : nat) (b : bool),
    d <> Decimal.Nil \/ b = true ->
    int_digits (DecimalString.NilEmpty.string_of_uint d) 0 k b =
    Some (Pos.of_uint d, k + Decimal.nb_digits d, EmptyString).
Proof.
  induction d; intros k b H; cbn [DecimalString.NilEmpty.string_of_uint
    int_digits Pos.of_uint Decimal.nb_digits];
    [destruct H as [H| ->]; [congruence | now rewrite Nat.add_0_r] | ..];
    change (is_digit _) with true; cbv iota;
    rewrite <- Nat.add_succ_comm;
    [apply IHd; now right | ..];
    apply (int_digits_acc d).
Qed.

Lemma strip_uint (d : Decimal.uint) :
  lstrip_by int_space (DecimalString.NilEmpty.string_of_uint d) =
  DecimalString.NilEmpty.string_of_uint d /\
  rstrip_by int_space (DecimalString.NilEmpty.string_of_uint d) =
  DecimalString.NilEmpty.string_of_uint d.
Proof.
  split; [now destruct d|].
  induction d; cbn [DecimalString.NilEmpty.string_of_uint rstrip_by];
    [reflexivity | ..]; rewrite IHd;
    now destruct (DecimalString.NilEmpty.string_of_uint d).
Qed.

Lemma has_char_uint (c : ascii) (d : Decimal.uint) :
  is_digit c = false ->
  has_char c (DecimalString.NilEmpty.string_of_uint d) = false.
Proof.
  intros Hc.
  induction d; cbn [DecimalString.NilEmpty.string_of_uint has_char];
    [reflexivity | ..]; rewrite IHd, orb_false_r;
    (match goal with
     | |- Ascii.eqb ?x c = false =>
         destruct (Ascii.eqb_spec x c) as [<-|]; [discriminate | reflexivity]
     end).
Qed.

Lemma py_int_uint (d : Decimal.uint) :
  d <> Decimal.Nil ->
  Decimal.nb_digits d <= int_max_str_digits ->
  py_int (DecimalString.NilEmpty.string_of_uint d) = Ok (Z.of_N (Pos.of_uint d))
  /\ py_int (String "-" (DecimalString.NilEmpty.string_of_uint d)) =
     Ok (- Z.of_N (Pos.of_uint d))%Z.
Proof.
  intros Hd Hn. apply Nat.ltb_ge in Hn.
  destruct (strip_uint d) as [Hl Hr].
  assert (Hi := int_digits_uint d 0 false (or_introl Hd)).
  split.
  - unfold py_int. rewrite Hl, Hr.
    assert (Hs : match DecimalString.NilEmpty.string_of_uint d with
                 | String "-" r => (true, r)
                 | String "+" r => (false, r)
                 | _ => (false, DecimalString.NilEmpty.string_of_uint d)
                 end = (false, DecimalString.NilEmpty.string_of_uint d))
      by now destruct d.
    rewrite Hs, Hi. cbn [Nat.add]. now rewrite Hn.
  - unfold py_int.
    change (lstrip_by int_space
              (String "-" (DecimalString.NilEmpty.string_of_uint d)))
      with (String "-" (DecimalString.NilEmpty.string_of_uint d)).
    assert (Hs : rstrip_by int_space
                   (String "-" (DecimalString.NilEmpty.string_of_uint d)) =
                 String "-" (DecimalString.NilEmpty.string_of_uint d)).
    { cbn [rstrip_by]. rewrite Hr.
      destruct (DecimalString.NilEmpty.string_of_uint d) eqn:E;
        [now destruct d | reflexivity]. }
    rewrite Hs. cbv iota beta. rewrite Hi. cbn [Nat.add]. now rewrite Hn.
Qed.

Lemma py_str_inv (z : Z) (s : string) :
  py_str z = Ok s ->
  exists d,
    d <> Decimal.Nil /\ Decimal.nb_digits d <= int_max_str_digits /\
    Pos.of_uint d = Z.abs_N z /\
    s = (if (z <? 0)%Z then String "-" (DecimalString.NilEmpty.string_of_uint d)
         else DecimalString.NilEmpty.string_of_uint d).
Proof.
  unfold py_str. intros H.
  destruct (Nat.ltb int_max_str_digits
              (Decimal.nb_digits (N.to_uint (Z.abs_N z)))) eqn:E;
    [discriminate|].
  apply Nat.ltb_ge in E. injection H as <-.
  exists (N.to_uint (Z.abs_N z)). split; [|split; [exact E|split]].
  - destruct z as [|p|p]; simpl; try discriminate;
      apply DecimalPos.Unsigned.to_uint_nonnil.
  - apply (DecimalN.Unsigned.of_to (Z.abs_N z)).
  - now destruct z.
Qed.

Lemma py_int_str (z : Z) (s : string) : py_str z = Ok s -> py_int s = Ok z.
Proof.
  intros H. apply py_str_inv in H as (d & Hd & Hn & Hv & ->).
  destruct (py_int_uint d Hd Hn) as [Hp Hm]. rewrite Hv in Hp, Hm.
  destruct (Z.ltb_spec z 0).
  - rewrite Hm. f_equal. rewrite N2Z.inj_abs_N. lia.
  - rewrite Hp. f_equal. rewrite N2Z.inj_abs_N. lia.
Qed.

Lemma removesuffix_app (suffix s : string) :
  removesuffix suffix (s ++ suffix) = s.
Proof.
  induction s as [|c r IH]; cbn [append removesuffix].
  - destruct suffix as [|x y]; [reflexivity|]. cbn [removesuffix].
    now rewrite String.eqb_refl.
  - destruct (String.eqb_spec (String c (r ++ suffix)) suffix) as [E|_].
    + apply (f_equal String.length) in E. simpl in E.
      rewrite string_length_app in E. lia.
    + now rewrite IH.
Qed.

Lemma removesuffix_other (c : ascii) (suffix s : string) :
  has_char c suffix = true -> has_char c s = false ->
  removesuffix suffix s = s.
Proof.
  intros Hs. induction s as [|x r IH]; intros H; [reflexivity|].
  cbn [removesuffix].
  destruct (String.eqb_spec (String x r) suffix) as [E|_];
    [rewrite E in H; congruence|].
  simpl in H. apply orb_false_iff in H as [_ H]. now rewrite (IH H).
Qed.

Lemma has_char_str (c : ascii) (z : Z) (s : string) :
  py_str z = Ok s -> is_digit c = false -> c <> "-"%char ->
  has_char c s = false.
Proof.
  intros H Hc Hm. apply py_str_inv in H as (d & _ & _ & _ & ->).
  destruct (z <? 0)%Z; cbn [has_char]; rewrite ?(has_char_uint c d Hc);
    [|reflexivity].
  destruct (Ascii.eqb_spec "-" c); [congruence | reflexivity].
Qed.

(** X14.  [ReadBytesSize] reads back what [str] writes: for the decimal
    text of an integer, with or without the suffix [ bytes], it returns
    that integer, and so does [int]. *)
Theorem ReadBytesSize_round_trip (z : Z) (s : string) :
  py_str z = Ok s ->
  ReadBytesSize (s ++ " bytes") = Ok z /\ ReadBytesSize s = Ok z /\
  py_int s = Ok z.
Proof.
  intros H. unfold ReadBytesSize. rewrite removesuffix_app.
  rewrite (removesuffix_other " " " bytes" s eq_refl)
    by (apply (has_char_str " " z s H); [reflexivity | discriminate]).
  repeat split; now apply py_int_str.
Qed.

Lemma ReadBytesSize_round_trip_witness :
  ReadBytesSize "4096 bytes" = Ok 4096%Z.
Proof.
  exact (proj1 (ReadBytesSize_round_trip 4096 "4096" eq_refl)).
Defined.

(** ** The size of the vbmeta image *)

Lemma rstrip_end (a : string) (c : ascii) :
  is_space c = false ->
  rstrip (a ++ String c EmptyString) = (a ++ String c EmptyString)%string.
Proof.
  intros Hc. induction a as [|x r IH]; cbn [append rstrip].
  - now rewrite Hc.
  - rewrite IH. now destruct r.
Qed.

Lemma substring_app (a b : string) : substring 0 (String.length a) (a ++ b) = a.
Proof.
  induction a as [|x r IH]; simpl; [now destruct b | now rewrite IH].
Qed.

Lemma drop_last_n_app (a b : string) :
  drop_last_n (String.length b) (a ++ b) = a.
Proof.
  unfold drop_last_n. rewrite string_length_app.
  replace (String.length a + String.length b - String.length b)
    with (String.length a) by lia.
  apply substring_app.
Qed.

Lemma str_starts (z : Z) (s : string) :
  py_str z = Ok s -> exists c r, s = String c r /\ is_space c = false.
Proof.
  intros H. apply py_str_inv in H as (d & Hd & _ & _ & ->).
  destruct (z <? 0)%Z; [now eexists; eexists|].
  destruct d; [congruence | ..]; now eexists; eexists.
Qed.

Lemma line_size_step (line : string) (n : Z) (rest : list string) (size : Z) :
  line_size line n ->
  calc_vbmeta_size_loop (line :: rest) size =
  calc_vbmeta_size_loop rest (size + n).
Proof.
  intros H. destruct H as [line H | name pad s n Hname Hpad Hs].
  - cbn [calc_vbmeta_size_loop]. rewrite H. now rewrite Z.add_0_r.
  - cbn [calc_vbmeta_size_loop].
    assert (Hc : has_char ":" name = false).
    { destruct Hname as [<-|[<-|[<-|[]]]]; reflexivity. }
    assert (Hsplit : split_on ":" (name ++ ":" ++ pad ++ s ++ " bytes") =
                     [name; (pad ++ s ++ " bytes")%string]).
    { change (name ++ ":" ++ pad ++ s ++ " bytes")%string
        with (name ++ String ":" (pad ++ s ++ " bytes"))%string.
      rewrite (split_on_join ":" name _ Hc). f_equal.
      apply split_on_plain. rewrite !has_char_app.
      rewrite (all_space_no_colon pad Hpad).
      rewrite (has_char_str ":" n s Hs); [reflexivity | reflexivity |
                                          discriminate]. }
    rewrite Hsplit. cbn [hd nth_error].
    rewrite (proj2 (str_in_In name block_names) Hname). cbn [bind].
    assert (Hstrip : strip (pad ++ s ++ " bytes") = (s ++ " bytes")%string).
    { unfold strip, lstrip.
      destruct (str_starts n s Hs) as (c & r & -> & Hsp).
      rewrite (span_space_app pad _ Hpad) by exact Hsp. cbn [snd].
      assert (E : (String c r ++ " bytes" =
                   (String c r ++ " byte") ++ "s")%string)
        by exact (eq_sym (string_app_assoc (String c r) " byte" "s")).
      rewrite E. now apply rstrip_end. }
    rewrite Hstrip.
    change 6 with (String.length " bytes"). rewrite drop_last_n_app.
    now rewrite (py_int_str n s Hs).
Qed.

Lemma calc_vbmeta_size_loop_sum (lines : list string) (sizes : list Z) :
  Forall2 line_size lines sizes ->
  forall size,
    calc_vbmeta_size_loop lines size = Ok (size + sum_sizes sizes)%Z.
Proof.
  induction 1 as [|line n lines sizes Hl _ IH]; intros size.
  - simpl. now rewrite Z.add_0_r.
  - rewrite (line_size_step line n lines size Hl), IH.
    cbn [sum_sizes fold_right]. f_equal. unfold sum_sizes. lia.
Qed.

(** X15.  [calc_vbmeta_size] adds up the sizes that the report gives for
    the header, authentication and auxiliary blocks: when each line either
    gives the size of one of these blocks, or has another text before its
    first colon, the result is the sum of the sizes given. *)
Theorem calc_vbmeta_size_sum (w : world) (a : args) (vbmeta_img : string)
    (stdout : string) (ret : Z) (sizes : list Z) :
  RunCommand w a ["avbtool"; "info_image"; "--image"; vbmeta_img] None None =
    Ok (stdout, ret) ->
  Forall2 line_size (split_on newline stdout) sizes ->
  calc_vbmeta_size w a vbmeta_img = Ok (sum_sizes sizes).
Proof.
  intros Hrun Hlines. unfold calc_vbmeta_size. rewrite Hrun. cbn [bind].
  now rewrite (calc_vbmeta_size_loop_sum _ sizes Hlines).
Qed.

Lemma calc_vbmeta_size_sum_witness :
  calc_vbmeta_size vbmeta_world plain_args "vbmeta.img" = Ok 2432%Z.
Proof.
  apply (calc_vbmeta_size_sum vbmeta_world plain_args "vbmeta.img"
           vbmeta_report 0 [0; 256; 576; 1600; 0; 0]%Z eq_refl).
  repeat first
    [ apply Forall2_nil
    | apply Forall2_cons ].
  - now apply line_other.
  - now apply (line_block "Header Block" "             " "256" 256);
      [left | |].
  - now apply (line_block "Authentication Block" "     " "576" 576);
      [right; left | |].
  - now apply (line_block "Auxiliary Block" "          " "1600" 1600);
      [right; right; left | |].
  - now apply line_other.
  - now apply line_other.
Defined.

(** ** The [--prop] arguments *)

Lemma strip_prefix_quote (t rest : string) :
  has_char "'" t = false ->
  strip_prefix " -> '" (t ++ "'") = Some rest -> rest = EmptyString.
Proof.
  intros Ht H.
  destruct t as [|c1 [|c2 [|c3 [|c4 [|c5 t]]]]]; cbn [append] in H;
    repeat (cbn [strip_prefix] in H;
            match type of H with
            | (if Ascii.eqb ?x ?y then _ else _) = _ =>
                destruct (Ascii.eqb_spec x y); [subst|discriminate]
            end); try discriminate.
  cbn [strip_prefix] in H. now injection H.
Qed.

Lemma prop_groups_no_quote (t : string) :
  has_char "'" t = false ->
  prop_groups t = None /\ prop_groups (t ++ "'") = None.
Proof.
  induction t as [|c r IH]; intros H; [now split|].
  simpl in H. apply orb_false_iff in H as [Hc Hr].
  destruct (IH Hr) as [IH1 IH2]. split.
  - cbn [prop_groups]. rewrite IH1. destruct (Ascii.eqb c newline);
      [reflexivity|].
    destruct (strip_prefix " -> '" r) as [rest|] eqn:E; [|reflexivity].
    exfalso. clear -E Hr.
    destruct r as [|c1 [|c2 [|c3 [|c4 [|c5 t]]]]];
      repeat (cbn [strip_prefix] in E;
              match type of E with
              | (if Ascii.eqb ?x ?y then _ else _) = _ =>
                  destruct (Ascii.eqb_spec x y); [subst|discriminate]
              end); discriminate.
  - cbn [append prop_groups]. rewrite IH2.
    destruct (Ascii.eqb c newline); [reflexivity|].
    destruct (strip_prefix " -> '" (r ++ "'")) as [rest|] eqn:E;
      [|reflexivity].
    now rewrite (strip_prefix_quote r rest Hr E).
Qed.

Lemma last_quote_end (t : string) :
  has_char newline t = false -> has_char "'" t = false ->
  last_quote (t ++ "'") = Some t.
Proof.
  induction t as [|c r IH]; intros Hn Hq; [reflexivity|].
  simpl in Hn, Hq. apply orb_false_iff in Hn as [Hc Hn].
  apply orb_false_iff in Hq as [_ Hq].
  cbn [append last_quote]. now rewrite Hc, (IH Hn Hq).
Qed.

Lemma prop_groups_cons (c : ascii) (r : string) :
  prop_groups (String c r) =
  if Ascii.eqb c newline then None
  else match prop_groups r with
       | Some (g1, g2) => Some (String c g1, g2)
       | None =>
           match strip_prefix " -> '" r with
           | Some rest =>
               match quoted_end rest with
               | Some g2 => Some (String c EmptyString, g2)
               | None => None
               end
           | None => None
           end
       end.
Proof. reflexivity. Qed.

Lemma prop_groups_text (kv : string * string) :
  prop_ok kv -> prop_groups (prop_text kv) = Some kv.
Proof.
  destruct kv as [k v]. unfold prop_ok, prop_text. cbn [fst snd].
  intros (Hk & Hv & Hkn & Hvn & Hvq).
  assert (Hsep : prop_groups (" -> '" ++ v ++ "'") = None).
  { destruct (prop_groups_no_quote v Hvq) as [_ H0].
    cbn [append prop_groups].
    change (Ascii.eqb " " newline) with false.
    change (Ascii.eqb "-" newline) with false.
    change (Ascii.eqb ">" newline) with false.
    change (Ascii.eqb "'" newline) with false.
    cbv iota. rewrite H0.
    destruct (strip_prefix " -> '" (v ++ "'")) as [rest|] eqn:E.
    - rewrite (strip_prefix_quote v rest Hvq E). reflexivity.
    - reflexivity. }
  assert (Hend : quoted_end (v ++ "'") = Some v).
  { destruct v as [|c r]; [congruence|]. simpl in Hvn, Hvq.
    apply orb_false_iff in Hvn as [Hc Hvn].
    apply orb_false_iff in Hvq as [_ Hvq].
    cbn [append quoted_end]. now rewrite Hc, (last_quote_end r Hvn Hvq). }
  induction k as [|c r IH]; [congruence|].
  simpl in Hkn. apply orb_false_iff in Hkn as [Hc Hkn].
  change (String c r ++ " -> '" ++ v ++ "'")%string
    with (String c (r ++ " -> '" ++ v ++ "'")).
  rewrite prop_groups_cons, Hc.
  destruct r as [|c' r'].
  - change (EmptyString ++ " -> '" ++ v ++ "'")%string
      with (" -> '" ++ v ++ "'")%string.
    rewrite Hsep.
    change (strip_prefix " -> '" (" -> '" ++ v ++ "'"))
      with (Some (v ++ "'")%string).
    cbv iota beta. now rewrite Hend.
  - rewrite IH; [reflexivity | discriminate | exact Hkn].
Qed.

Lemma AppendPropArgument_loop_args (kvs : list (string * string)) :
  Forall prop_ok kvs ->
  forall cmd,
    AppendPropArgument_loop cmd (map (fun kv => DStr (prop_text kv)) kvs) =
    Ok (cmd ++ prop_args kvs).
Proof.
  induction 1 as [|kv kvs Hkv _ IH]; intros cmd.
  - simpl. now rewrite app_nil_r.
  - cbn [map AppendPropArgument_loop bind].
    rewrite (prop_groups_text kv Hkv). destruct kv as [k v].
    rewrite IH. cbn [prop_args flat_map fst snd].
    now rewrite <- !app_assoc.
Qed.

Lemma find_all_values_by_key_app {V : Type} (a b : list (string * V))
    (key : string) :
  find_all_values_by_key (a ++ b) key =
  find_all_values_by_key a key ++ find_all_values_by_key b key.
Proof. unfold find_all_values_by_key. now rewrite filter_app, map_app. Qed.

(** X16.  [AppendPropArgument] passes the properties of the image on.
    When the texts of the [Prop] descriptors are [key -> 'value'], with
    keys and values that are not empty and values without a quote, it
    appends [--prop] and [key:value] for each of them, in their order,
    and nothing for the other descriptors.  A property whose text has no
    quote makes it raise [AttributeError]. *)
Theorem AppendPropArgument_props (cmd : list string)
    (descs : list descriptor) (kvs : list (string * string)) :
  find_all_values_by_key descs "Prop" =
    map (fun kv => DStr (prop_text kv)) kvs ->
  Forall prop_ok kvs ->
  AppendPropArgument cmd (Some descs) = Ok (cmd ++ prop_args kvs) /\
  forall s, has_char "'" s = false ->
    exists msg,
      AppendPropArgument cmd (Some (descs ++ [("Prop", DStr s)])) =
      Raise (AttributeError msg).
Proof.
  intros Hfind Hok. unfold AppendPropArgument. cbn [iter_descriptors bind].
  split.
  - rewrite Hfind. now apply AppendPropArgument_loop_args.
  - intros s Hs.
    assert (E : find_all_values_by_key (descs ++ [("Prop", DStr s)]) "Prop"
                = map (fun kv => DStr (prop_text kv)) kvs ++ [DStr s]).
    { rewrite <- Hfind.
      apply (find_all_values_by_key_app descs [("Prop", DStr s)] "Prop"). }
    rewrite E. clear E Hfind. revert cmd.
    induction Hok as [|kv kvs Hkv _ IH]; intros cmd.
    + cbn [map app AppendPropArgument_loop bind].
      rewrite (proj1 (prop_groups_no_quote s Hs)). now eexists.
    + cbn [map app AppendPropArgument_loop bind].
      rewrite (prop_groups_text kv Hkv). destruct kv as [k v]. apply IH.
Qed.

Lemma AppendPropArgument_props_witness :
  AppendPropArgument ["avbtool"]
    (Some [("Hash descriptor", DDict []);
           ("Prop", DStr "com.android.virt.cap -> '1'")])
  = Ok ["avbtool"; "--prop"; "com.android.virt.cap:1"].
Proof.
  refine (proj1 (AppendPropArgument_props ["avbtool"]
                   [("Hash descriptor", DDict []);
                    ("Prop", DStr "com.android.virt.cap -> '1'")]
                   [("com.android.virt.cap", "1")] eq_refl _)).
  constructor; [|constructor]. unfold prop_ok. simpl.
  repeat split; discriminate.
Defined.

(** ** Signing an image with a hash footer *)

Lemma remove_absent {V : Type} (k : string) (d : Dict.dict V) :
  ~ In k (Dict.keys d) -> Dict.remove k d = d.
Proof.
  unfold Dict.remove. induction d as [|[k0 v0] r IH]; intros H;
    [reflexivity|]. simpl in *.
  destruct (String.eqb_spec k0 k) as [->|Hne]; [tauto|]. simpl.
  rewrite IH; tauto.
Qed.

Lemma keys_remove_perm {V : Type} (k : string) (v : V) (d : Dict.dict V) :
  Dict.wf d -> Dict.get k d = Some v ->
  Permutation (Dict.keys d) (k :: Dict.keys (Dict.remove k d)).
Proof.
  unfold Dict.wf. induction d as [|[k0 v0] r IH]; intros Hwf H;
    [discriminate|].
  simpl in Hwf. inversion Hwf as [|? ? Hnotin Hr]; subst.
  simpl in H. destruct (String.eqb_spec k0 k) as [->|Hne].
  - change (Dict.remove k ((k, v0) :: r)) with
      (if negb (k =? k)%string then (k, v0) :: Dict.remove k r
       else Dict.remove k r).
    rewrite String.eqb_refl. simpl negb. cbv iota.
    now rewrite (remove_absent k r Hnotin).
  - change (Dict.remove k ((k0, v0) :: r)) with
      (if negb (k0 =? k)%string then (k0, v0) :: Dict.remove k r
       else Dict.remove k r).
    destruct (String.eqb_spec k0 k) as [|_]; [contradiction|].
    simpl negb. cbv iota. simpl.
    rewrite (IH Hr H). apply perm_swap.
Qed.

Lemma get_remove_some {V : Type} (k k' : string) (d : Dict.dict V) (v : V) :
  Dict.get k' (Dict.remove k d) = Some v -> Dict.get k' d = Some v.
Proof.
  destruct (String.eqb_spec k k') as [->|Hne].
  - now rewrite get_remove_same.
  - now rewrite get_remove_other.
Qed.

Lemma check_additional_spec (items : list (string * Dict.dict string)) :
  forall original rest,
    Dict.wf original ->
    check_additional items original = Ok rest ->
    Permutation (Dict.keys original) (map fst items ++ Dict.keys rest) /\
    agrees_with original items /\ Dict.wf rest /\
    (forall k o, Dict.get k rest = Some o -> Dict.get k original = Some o).
Proof.
  induction items as [|[k v] items IH]; intros original rest Hwf H;
    simpl in H.
  - injection H as <-. repeat split; try assumption; [reflexivity | | auto].
    intros k v [].
  - bind_inv H. rename x into o. bind_inv H. apply assert_ok in E0.
    unfold Dict.getitem in E.
    destruct (Dict.get k original) as [o'|] eqn:Eg; [|discriminate].
    injection E as ->.
    destruct (IH _ _ (wf_remove k original Hwf) H)
      as (Hperm & Hagree & Hwfr & Hsub).
    split; [|split; [|split]].
    + rewrite (keys_remove_perm k o original Hwf Eg). simpl.
      now apply perm_skip.
    + intros k' v' [[= <- <-]|Hin]; [now exists o|].
      destruct (Hagree k' v' Hin) as (o' & Ho' & He).
      exists o'. split; [|exact He]. now apply (get_remove_some k).
    + exact Hwfr.
    + intros k' o' Hk'. apply (get_remove_some k). now apply Hsub.
Qed.

Lemma AppendPropArgument_loop_prefix (props : list dvalue) :
  forall c c',
    AppendPropArgument_loop c props = Ok c' -> exists t, c' = c ++ t.
Proof.
  induction props as [|p props IH]; intros c c' Hc; simpl in Hc.
  - injection Hc as <-. exists []. now rewrite app_nil_r.
  - apply bind_ok in Hc as (groups & _ & Hc).
    destruct groups as [[g1 g2]|]; [|discriminate].
    apply IH in Hc as [t ->]. eexists. now rewrite <- !app_assoc.
Qed.

Section SigningFacts.

Variable shlex_split : string -> result (list string).
Variable depth : nat.
Variables w w' : world.
Variable a : args.
Variable key_overrides : Dict.dict string.
Variable signing_args : option string.

Lemma extend_signing_args_prefix (cmd cmd' : list string) :
  extend_signing_args shlex_split signing_args cmd = Ok cmd' ->
  exists t, cmd' = cmd ++ t.
Proof.
  unfold extend_signing_args. intros H.
  destruct signing_args as [[|c s]|].
  - injection H as <-. exists []. now rewrite app_nil_r.
  - apply bind_ok in H as (extra & _ & H). injection H as <-. now eexists.
  - injection H as <-. exists []. now rewrite app_nil_r.
Qed.

Lemma check_additional_images_spec (images : list string) :
  forall original rest,
    Dict.wf original ->
    check_additional_images depth w a images original = Ok rest ->
    exists hs,
      Forall2 (fun image h => hash_descriptors_of depth w a image = Ok h)
        images hs /\
      Permutation (Dict.keys original)
        (flat_map Dict.keys hs ++ Dict.keys rest) /\
      Forall (agrees_with original) hs /\ Dict.wf rest /\
      (forall k o, Dict.get k rest = Some o -> Dict.get k original = Some o).
Proof.
  induction images as [|image images IH]; intros original rest Hwf H;
    simpl in H.
  - injection H as <-. exists []. repeat split; try assumption;
      [constructor | reflexivity | constructor | auto].
  - bind_inv H. rename x into r. bind_inv H. rename x into h.
    bind_inv H. rename x into original'.
    destruct (check_additional_spec h original original' Hwf E1)
      as (Hperm & Hagree & Hwf' & Hsub).
    destruct (IH _ _ Hwf' H) as (hs & Hall & Hperm' & Hagree' & Hwfr & Hsub').
    exists (h :: hs). split; [|split; [|split; [|split]]].
    + constructor; [|exact Hall]. unfold hash_descriptors_of.
      now rewrite E.
    + rewrite Hperm. cbn [flat_map]. rewrite <- app_assoc.
      apply Permutation_app_head. exact Hperm'.
    + constructor; [exact Hagree|].
      eapply Forall_impl; [|exact Hagree']. intros h' Hh' k v Hin.
      destruct (Hh' k v Hin) as (o & Ho & He). exists o. split; [|exact He].
      now apply Hsub.
    + exact Hwfr.
    + intros k o Hk. apply Hsub. now apply Hsub'.
Qed.

(** X17.  When [AddHashFooter] gets as far as its command, the partitions
    that the hash descriptors of the image name are those of the
    additional images, each named by one of them only, and exactly one
    more, the partition of the image itself, which the command is given;
    every hash descriptor of an additional image is, up to the digest,
    the image's descriptor of the same partition; and the key that the
    command is given is the override for the base name of the image if
    there is one, the key of the call otherwise. *)
Theorem AddHashFooter_partitions (key image_path : string)
    (additional_images : list string) (cmd : list string) (i : info)
    (descriptors : list descriptor) :
  AddHashFooter_cmd shlex_split depth w a key_overrides signing_args key
    image_path additional_images = Ok (cmd, i, descriptors) ->
  exists original hs name,
    AvbInfo depth w a [] image_path = Ok (Some (i, descriptors)) /\
    extract_hash_descriptors (Some descriptors) drop_digest = Ok original /\
    Forall2 (fun image h => hash_descriptors_of depth w a image = Ok h)
      additional_images hs /\
    Permutation (Dict.keys original) (flat_map Dict.keys hs ++ [name]) /\
    NoDup (flat_map Dict.keys hs ++ [name]) /\
    Forall (agrees_with original) hs /\
    nth_error cmd 7 = Some name /\
    nth_error cmd 3 =
      Some (match Dict.get (basename image_path) key_overrides with
            | Some k => k
            | None => key
            end).
Proof.
  unfold AddHashFooter_cmd. intros H. bind_inv H.
  destruct x as [[i0 d0]|]; [|discriminate].
  bind_inv H. rename x into original. bind_inv H. rename x into rest.
  bind_inv H. apply assert_ok in E2. apply Nat.eqb_eq in E2.
  destruct rest as [|[name desc] [|? ?]]; try discriminate. clear E2.
  cbn [only_item bind] in H.
  apply bind_ok in H as (ois & _ & H). apply bind_ok in H as (isz & _ & H).
  apply bind_ok in H as (u & _ & H). apply bind_ok in H as (value & _ & H).
  apply bind_ok in H as (size & _ & H). apply bind_ok in H as (psize & _ & H).
  apply bind_ok in H as (algorithm & _ & H).
  apply bind_ok in H as (salt & _ & H).
  apply bind_ok in H as (cmd1 & Hprops & H).
  apply bind_ok in H as (cmd2 & Hsign & H).
  apply bind_ok in H as (rollback & _ & H).
  injection H as <- <- <-.
  assert (Hwf : Dict.wf original)
    by exact (extract_hash_descriptors_wf _ _ _ E0).
  destruct (check_additional_images_spec additional_images original
              [(name, desc)] Hwf E1) as (hs & Hall & Hperm & Hagree & _ & _).
  unfold AppendPropArgument in Hprops.
  cbn [iter_descriptors bind] in Hprops.
  apply AppendPropArgument_loop_prefix in Hprops as [t ->].
  apply extend_signing_args_prefix in Hsign as [t' ->].
  exists original, hs, name. repeat split; try assumption.
  eapply Permutation_NoDup; [exact Hperm | exact Hwf].
Qed.



End SigningFacts.

Lemma AddHashFooter_partitions_witness :
  exists (cmd : list string) (i : info) (d : list descriptor)
         (original : Dict.dict (Dict.dict string))
         (hs : list (Dict.dict (Dict.dict string))),
    AddHashFooter_cmd (fun s => Ok [s]) 1 kernel_world plain_args [] None
      "testkey" "kernel" ["initrd.hashdesc"] = Ok (cmd, i, d) /\
    extract_hash_descriptors (Some d) drop_digest = Ok original /\
    Permutation (Dict.keys original) (flat_map Dict.keys hs ++ ["boot"]).
Proof.
  destruct (AddHashFooter_partitions (fun s => Ok [s]) 1 kernel_world
              plain_args [] None "testkey" "kernel" ["initrd.hashdesc"]
              _ _ _ eq_refl)
    as (original & hs & name & _ & H1 & _ & H2 & H3 & _ & H4 & _).
  injection H4 as <-.
  eexists. eexists. eexists. exists original, hs.
  split; [reflexivity|]. split; [exact H1 | exact H2].
Defined.


(** ** Updating the boot configuration *)

Lemma prefix_app (a t : string) : String.prefix a (a ++ t) = true.
Proof.
  induction a as [|c r IH]; simpl; [now destruct t|].
  destruct (ascii_dec c c); [exact IH | contradiction].
Qed.

Lemma prefix_inv (a s : string) :
  String.prefix a s = true -> exists t, s = (a ++ t)%string.
Proof.
  revert s. induction a as [|c r IH]; intros s H; [now exists s|].
  destruct s as [|x y]; [discriminate|]. simpl in H.
  destruct (ascii_dec c x) as [->|]; [|discriminate].
  destruct (IH y H) as [t ->]. now exists t.
Qed.

Lemma str_replace_from_skip (a old new s : string) :
  str_replace_from (String.length a) old new (a ++ s) =
  str_replace_from 0 old new s.
Proof. induction a as [|c r IH]; [reflexivity | exact IH]. Qed.

Lemma str_replace_prefix (old new post : string) :
  old <> EmptyString ->
  str_replace old new (old ++ post) = (new ++ str_replace old new post)%string.
Proof.
  intros Hne. destruct old as [|c o]; [congruence|].
  unfold str_replace.
  change (String c o ++ post)%string with (String c (o ++ post)).
  cbn [str_replace_from].
  change (String c (o ++ post)) with (String c o ++ post)%string.
  rewrite prefix_app.
  replace (String.length (String c o) - 1) with (String.length o)
    by (simpl; lia).
  now rewrite str_replace_from_skip.
Qed.

Lemma str_replace_other (old new : string) (c : ascii) (r : string) :
  old <> EmptyString -> String.prefix old (String c r) = false ->
  str_replace old new (String c r) = String c (str_replace old new r).
Proof.
  intros Hne H. destruct old as [|x o]; [congruence|].
  unfold str_replace. cbn [str_replace_from]. now rewrite H.
Qed.

Lemma search_with_eq (m : string -> option string) (s : string) :
  search_with m s =
  match m s with
  | Some g => Some g
  | None =>
      match s with
      | EmptyString => None
      | String _ r => search_with m r
      end
  end.
Proof. now destruct s. Qed.

Lemma search_with_some (m : string -> option string) (s g : string) :
  search_with m s = Some g -> exists s0, m s0 = Some g.
Proof.
  induction s as [|c r IH]; rewrite search_with_eq;
    destruct (m _) as [g0|] eqn:E; try discriminate.
  - intros [= <-]. eexists. exact E.
  - intros [= <-]. eexists. exact E.
  - exact IH.
Qed.

Section ReadBack.

Variable m : string -> option string.
Variables g new : string.

Hypothesis g_not_empty : g <> EmptyString.
Hypothesis m_prefix : forall s, m s = Some g -> exists t, s = (g ++ t)%string.
Hypothesis m_literal : forall t, m (g ++ t) <> None.
Hypothesis m_stable :
  forall u post, u <> EmptyString ->
    m (u ++ g ++ post) = None ->
    m (u ++ new ++ str_replace g new post) = None.
Hypothesis m_new :
  forall post, m (g ++ post) = Some g ->
    m (new ++ str_replace g new post) = Some new.

Lemma search_replace_parts (s : string) :
  search_with m s = Some g ->
  exists pre post,
    s = (pre ++ g ++ post)%string /\
    str_replace g new s = (pre ++ new ++ str_replace g new post)%string /\
    search_with m (str_replace g new s) = Some new.
Proof.
  induction s as [|c r IH]; rewrite search_with_eq;
    destruct (m _) as [g0|] eqn:E; try discriminate.
  - intros [= ->]. destruct (m_prefix _ E) as [t Ht].
    destruct g; [congruence | discriminate].
  - intros [= ->]. destruct (m_prefix _ E) as [t Ht].
    exists EmptyString, t. rewrite Ht in *.
    rewrite (str_replace_prefix g new t g_not_empty).
    repeat split. rewrite search_with_eq. now rewrite (m_new t E).
  - intros H. destruct (IH H) as (pre & post & -> & Hr & Hs).
    assert (Hp : String.prefix g (String c (pre ++ g ++ post)) = false).
    { destruct (String.prefix g _) eqn:Ep; [|reflexivity].
      apply prefix_inv in Ep as [t Et]. rewrite Et in E.
      now destruct (m_literal t). }
    exists (String c pre), post.
    rewrite (str_replace_other g new c _ g_not_empty Hp), Hr.
    repeat split. rewrite search_with_eq.
    change (String c (pre ++ new ++ str_replace g new post))
      with (String c pre ++ new ++ str_replace g new post)%string.
    rewrite (m_stable (String c pre) post); [|discriminate|exact E].
    cbn [append]. now rewrite <- Hr.
Qed.

End ReadBack.

(** *** Matching the key *)

Lemma match_prefix_parts (p : list pchar) :
  forall s rest,
    match_prefix p s = Some rest ->
    exists P,
      s = (P ++ rest)%string /\ String.length P = List.length p /\
      (forall x, match_prefix p (P ++ x) = Some x) /\
      substring 0 (List.length p) s = P.
Proof.
  induction p as [|x p IH]; intros s rest H; simpl in H.
  - injection H as <-. exists EmptyString. repeat split. now destruct s.
  - destruct s as [|c r]; [discriminate|].
    destruct (match x with
              | Lit l => Ascii.eqb c l
              | AnyChar => negb (Ascii.eqb c newline)
              end) eqn:Ec; [|discriminate].
    destruct (IH r rest H) as (P & -> & Hl & Hm & Hs).
    exists (String c P). repeat split.
    + simpl. now rewrite Hl.
    + intros y. simpl. now rewrite Ec.
    + simpl. now rewrite Hs.
Qed.

Lemma match_prefix_long (p : list pchar) :
  forall u x,
    List.length p <= String.length u ->
    match_prefix p (u ++ x) =
    option_map (fun r => (r ++ x)%string) (match_prefix p u).
Proof.
  induction p as [|y p IH]; intros u x H; [reflexivity|].
  destruct u as [|c r]; simpl in H; [lia|]. simpl.
  destruct (match y with
            | Lit l => Ascii.eqb c l
            | AnyChar => negb (Ascii.eqb c newline)
            end); [|reflexivity].
  apply IH. lia.
Qed.

Lemma match_prefix_short (u : string) :
  forall p x r,
    String.length u < List.length p ->
    match_prefix p (u ++ x) = Some r ->
    match_prefix (skipn (String.length u) p) x = Some r.
Proof.
  induction u as [|c u IH]; intros p x r H Hm; [exact Hm|].
  destruct p as [|y p]; simpl in H; [lia|]. simpl in Hm.
  destruct (match y with
            | Lit l => Ascii.eqb c l
            | AnyChar => negb (Ascii.eqb c newline)
            end); [|discriminate].
  simpl. apply IH; [lia | exact Hm].
Qed.

Lemma string_app_inv_head (a b c : string) :
  (a ++ b = a ++ c)%string -> b = c.
Proof.
  induction a as [|x r IH]; simpl; [auto|]. intros [= H]. now apply IH.
Qed.

(** *** Digits *)

Lemma take_digits_prefix (s : string) :
  exists t, s = (take_digits s ++ t)%string /\ head_digit t = false.
Proof.
  induction s as [|c r IH]; [now exists EmptyString|]. simpl.
  destruct (is_digit c) eqn:E.
  - destruct IH as (t & Ht & Hh). exists t. split; [|exact Hh].
    simpl. now rewrite <- Ht.
  - exists (String c r). split; [reflexivity|]. exact E.
Qed.

Lemma take_digits_all (s : string) : all_digits (take_digits s) = true.
Proof.
  induction s as [|c r IH]; [reflexivity|]. simpl.
  destruct (is_digit c) eqn:E; [|reflexivity]. simpl. now rewrite E, IH.
Qed.

Lemma take_digits_app (ds t : string) :
  all_digits ds = true ->
  take_digits (ds ++ t) = (ds ++ take_digits t)%string.
Proof.
  induction ds as [|c r IH]; intros H; [reflexivity|]. simpl in *.
  apply andb_true_iff in H as [Hc Hr]. now rewrite Hc, (IH Hr).
Qed.

Lemma take_digits_head (t : string) :
  head_digit t = false <-> take_digits t = EmptyString.
Proof.
  destruct t as [|c r]; simpl; [tauto|].
  destruct (is_digit c); split; (discriminate || reflexivity).
Qed.

Lemma head_digit_replace (old new post : string) :
  old <> EmptyString -> head_digit post = false ->
  (forall x, head_digit (new ++ x) = false) ->
  head_digit (str_replace old new post) = false.
Proof.
  intros Hne Hp Hn. destruct old as [|x o]; [congruence|].
  unfold str_replace. destruct post as [|c r]; [reflexivity|].
  cbn [str_replace_from]. destruct (String.prefix _ _); [apply Hn | exact Hp].
Qed.

(** *** The size entry *)

Lemma match_size_inv (s g : string) :
  match_size s = Some g ->
  exists P rest,
    s = (P ++ rest)%string /\ String.length P = String.length size_text /\
    (forall x, match_prefix (pattern_of size_text) (P ++ x) = Some x) /\
    g = (P ++ take_digits rest)%string /\ take_digits rest <> EmptyString.
Proof.
  unfold match_size. intros H.
  destruct (match_prefix (pattern_of size_text) s) as [rest|] eqn:E;
    [|discriminate].
  destruct (match_prefix_parts _ _ _ E) as (P & -> & Hl & Hm & Hs).
  exists P, rest. repeat split; try assumption.
  - destruct (take_digits rest); [discriminate|].
    injection H as <-. f_equal. exact Hs.
  - intros Hd. now rewrite Hd in H.
Qed.

Lemma match_size_at (P ds t : string) :
  (forall x, match_prefix (pattern_of size_text) (P ++ x) = Some x) ->
  String.length P = String.length size_text ->
  all_digits ds = true -> ds <> EmptyString ->
  match_size (P ++ ds ++ t) = Some (P ++ ds ++ take_digits t)%string.
Proof.
  intros Hm Hl Hd Hne. unfold match_size. rewrite Hm.
  rewrite (take_digits_app ds t Hd). rewrite <- Hl, substring_app.
  destruct ds as [|c r]; [congruence | reflexivity].
Qed.

Lemma size_text_matches (x : string) :
  match_prefix (pattern_of size_text) (size_text ++ x) = Some x.
Proof. reflexivity. Qed.

Lemma size_text_overlap (k : nat) (x : string) :
  1 <= k -> k < String.length size_text ->
  match_prefix (skipn k (pattern_of size_text)) (size_text ++ x) = None.
Proof.
  intros H1 H2. destruct k as [|k]; [lia|].
  do 25 (destruct k as [|k]; [reflexivity|]).
  simpl in H2. lia.
Qed.

Lemma size_read_back (bc g nd : string) :
  search_with match_size bc = Some g ->
  nd <> EmptyString -> all_digits nd = true ->
  search_with match_size (str_replace g (size_text ++ nd) bc) =
  Some (size_text ++ nd)%string.
Proof.
  intros H Hnd Hall.
  destruct (search_with_some _ _ _ H) as [s0 Hs0].
  destruct (match_size_inv s0 g Hs0) as (P & rest & _ & Hl & Hm & -> & Hds).
  assert (Hd : all_digits (take_digits rest) = true) by apply take_digits_all.
  set (ds := take_digits rest) in *.
  assert (Hat : forall t, match_size ((P ++ ds) ++ t) =
                          Some (P ++ ds ++ take_digits t)%string).
  { intros t. rewrite string_app_assoc. now apply match_size_at. }
  destruct (search_replace_parts match_size (P ++ ds) (size_text ++ nd))
    with (s := bc) as (_ & _ & _ & _ & Hfinal); try assumption.
  - destruct P; [discriminate Hl | discriminate].
  - intros s Hs.
    destruct (match_size_inv s _ Hs) as (P' & rest' & -> & _ & _ & E & _).
    destruct (take_digits_prefix rest') as (t & Ht & _).
    exists t. rewrite Ht at 1. now rewrite <- string_app_assoc, <- E.
  - intros t. now rewrite Hat.
  - intros u post Hu Hnone.
    destruct (le_lt_dec (String.length size_text) (String.length u)) as [Hlong|Hshort].
    + unfold match_size in *.
      rewrite match_prefix_long in * by exact Hlong.
      destruct (match_prefix (pattern_of size_text) u) as [r|];
        [|reflexivity].
      cbn [option_map] in *. destruct r as [|c r].
      * reflexivity.
      * cbn [append take_digits] in *.
        destruct (is_digit c); [discriminate | reflexivity].
    + unfold match_size.
      destruct (match_prefix (pattern_of size_text)
                  (u ++ (size_text ++ nd) ++ str_replace (P ++ ds)
                                                (size_text ++ nd) post))
        as [r|] eqn:E; [|reflexivity].
      apply match_prefix_short in E; [|exact Hshort].
      rewrite string_app_assoc, size_text_overlap in E; [discriminate| |].
      * destruct u; [congruence | simpl; lia].
      * exact Hshort.
  - intros post Hpost. rewrite Hat in Hpost. injection Hpost as Hpost.
    apply string_app_inv_head in Hpost.
    rewrite <- (string_app_nil_r ds) in Hpost at 2.
    apply string_app_inv_head in Hpost.
    apply take_digits_head in Hpost.
    rewrite string_app_assoc.
    rewrite (match_size_at size_text nd _ size_text_matches eq_refl Hall Hnd).
    assert (Hr : head_digit (str_replace (P ++ ds) (size_text ++ nd) post)
                 = false).
    { apply head_digit_replace; [|exact Hpost|reflexivity].
      destruct P; [discriminate Hl | discriminate]. }
    apply take_digits_head in Hr. rewrite Hr.
    now rewrite string_app_nil_r.
Qed.

Lemma str_digits (n : Z) (text : string) :
  (0 <= n)%Z -> py_str n = Ok text ->
  text <> EmptyString /\ all_digits text = true.
Proof.
  intros Hn H. apply py_str_inv in H as (d & Hd & _ & _ & ->).
  destruct (Z.ltb_spec n 0); [lia|]. split.
  - destruct d; (congruence || discriminate).
  - clear. induction d; simpl; auto.
Qed.

(** X19.  What [update_vbmeta_size] writes is what a later search reads:
    when the size of the image is not negative, the leftmost size entry
    of the updated boot configuration is the key with the new size.
    Without a size entry in the boot configuration the update raises
    [ValueError], whatever the tool reports. *)
Theorem update_vbmeta_size_read_back (w : world) (a : args)
    (vbmeta_img bootconfigs : string) :
  (search_with match_size bootconfigs = None ->
   update_vbmeta_size w a vbmeta_img bootconfigs =
   Raise (ValueError "Failed to find androidboot.vbmeta.size")) /\
  (forall n text updated,
     calc_vbmeta_size w a vbmeta_img = Ok n -> (0 <= n)%Z ->
     py_str n = Ok text ->
     update_vbmeta_size w a vbmeta_img bootconfigs = Ok updated ->
     search_with match_size updated = Some (size_text ++ text)%string).
Proof.
  unfold update_vbmeta_size. split.
  - now intros ->.
  - intros n text updated Hcalc Hn Htext H.
    destruct (search_with match_size bootconfigs) as [g|] eqn:E;
      [|discriminate].
    rewrite Hcalc in H. cbn [bind] in H. rewrite Htext in H. cbn [bind] in H.
    injection H as <-.
    destruct (str_digits n text Hn Htext) as [Hne Hall].
    now apply size_read_back.
Qed.

Lemma update_vbmeta_size_read_back_witness :
  exists updated,
    update_vbmeta_size vbmeta_world plain_args "vbmeta.img" sample_bootconfig
    = Ok updated /\
    search_with match_size updated = Some "androidboot.vbmeta.size = 2432".
Proof.
  eexists. split; [reflexivity|].
  exact (proj2 (update_vbmeta_size_read_back vbmeta_world plain_args
                  "vbmeta.img" sample_bootconfig)
           2432%Z "2432" _ eq_refl ltac:(lia) eq_refl eq_refl).
Defined.

(** *** The digest entry *)

Lemma until_quote_parts (s d : string) :
  until_quote s = Some d ->
  has_char quote d = false /\
  exists t, s = (d ++ String quote t)%string.
Proof.
  revert d. induction s as [|c r IH]; intros d H; simpl in H;
    [discriminate|].
  destruct (Ascii.eqb_spec c quote) as [->|Hc].
  - injection H as <-. split; [reflexivity | now exists r].
  - destruct (until_quote r) as [g|]; [|discriminate]. injection H as <-.
    destruct (IH g eq_refl) as (Hq & t & ->). split.
    + simpl. rewrite Hq, orb_false_r.
      destruct (Ascii.eqb_spec c quote); [contradiction | reflexivity].
    + now exists t.
Qed.

Lemma until_quote_app (d t : string) :
  has_char quote d = false -> until_quote (d ++ String quote t) = Some d.
Proof.
  induction d as [|c r IH]; intros H; [reflexivity|]. simpl in *.
  apply orb_false_iff in H as [Hc Hr]. now rewrite Hc, (IH Hr).
Qed.

Lemma until_quote_some (s : string) :
  has_char quote s = true -> until_quote s <> None.
Proof.
  induction s as [|c r IH]; simpl; [discriminate|].
  destruct (Ascii.eqb c quote); [discriminate|]. simpl. intros H.
  destruct (until_quote r); [discriminate | now apply IH].
Qed.

Lemma match_digest_inv (s g : string) :
  match_digest s = Some g ->
  exists P rest d,
    s = (P ++ rest)%string /\ String.length P = String.length digest_text /\
    (forall x, match_prefix (pattern_of "androidboot.vbmeta.digest = "
                             ++ [Lit quote]) (P ++ x) = Some x) /\
    until_quote rest = Some d /\
    g = (P ++ d ++ String quote EmptyString)%string.
Proof.
  unfold match_digest. intros H.
  destruct (match_prefix _ s) as [rest|] eqn:E; [|discriminate].
  destruct (match_prefix_parts _ _ _ E) as (P & -> & Hl & Hm & Hs).
  destruct (until_quote rest) as [d|] eqn:Ed; [|discriminate].
  exists P, rest, d. repeat split; try assumption.
  injection H as <-. f_equal. exact Hs.
Qed.

Lemma match_digest_at (P d t : string) :
  (forall x, match_prefix (pattern_of "androidboot.vbmeta.digest = "
                           ++ [Lit quote]) (P ++ x) = Some x) ->
  String.length P = String.length digest_text ->
  has_char quote d = false ->
  match_digest (P ++ d ++ String quote t) =
  Some (P ++ d ++ String quote EmptyString)%string.
Proof.
  intros Hm Hl Hd. unfold match_digest. rewrite Hm.
  rewrite (until_quote_app d t Hd). now rewrite <- Hl, substring_app.
Qed.

Lemma digest_text_matches (x : string) :
  match_prefix (pattern_of "androidboot.vbmeta.digest = " ++ [Lit quote])
    (digest_text ++ x) = Some x.
Proof. reflexivity. Qed.

Lemma digest_text_overlap (k : nat) (x : string) :
  1 <= k -> k < String.length digest_text ->
  match_prefix (skipn k (pattern_of "androidboot.vbmeta.digest = "
                         ++ [Lit quote])) (digest_text ++ x) = None.
Proof.
  intros H1 H2. destruct k as [|k]; [lia|].
  do 28 (destruct k as [|k]; [reflexivity|]).
  simpl in H2. lia.
Qed.

Lemma digest_read_back (bc g nd : string) :
  search_with match_digest bc = Some g ->
  has_char quote nd = false ->
  search_with match_digest
    (str_replace g (digest_text ++ nd ++ String quote EmptyString) bc) =
  Some (digest_text ++ nd ++ String quote EmptyString)%string.
Proof.
  intros H Hnd.
  destruct (search_with_some _ _ _ H) as [s0 Hs0].
  destruct (match_digest_inv s0 g Hs0)
    as (P & rest & d & _ & Hl & Hm & Hd & ->).
  apply until_quote_parts in Hd as [Hd _].
  assert (Hat : forall t, match_digest
                            ((P ++ d ++ String quote EmptyString) ++ t) =
                          Some (P ++ d ++ String quote EmptyString)%string).
  { intros t. rewrite !string_app_assoc. now apply match_digest_at. }
  destruct (search_replace_parts match_digest
              (P ++ d ++ String quote EmptyString)
              (digest_text ++ nd ++ String quote EmptyString))
    with (s := bc) as (_ & _ & _ & _ & Hfinal); try assumption.
  - destruct P; [discriminate Hl | discriminate].
  - intros s Hs.
    destruct (match_digest_inv s _ Hs)
      as (P' & rest' & d' & -> & _ & _ & Hd' & E).
    apply until_quote_parts in Hd' as (_ & t & ->).
    exists t. rewrite E. now rewrite !string_app_assoc.
  - intros t. now rewrite Hat.
  - intros u post Hu Hnone.
    destruct (le_lt_dec (String.length digest_text) (String.length u))
      as [Hlong|Hshort].
    + unfold match_digest in *.
      rewrite match_prefix_long in * by exact Hlong.
      destruct (match_prefix _ u) as [r|]; [|reflexivity].
      cbn [option_map] in *. exfalso.
      destruct (until_quote
                  (r ++ (P ++ d ++ String quote EmptyString) ++ post))
        eqn:Eq; [discriminate|].
      revert Eq. apply until_quote_some.
      rewrite !has_char_app. cbn [has_char]. rewrite Ascii.eqb_refl.
      now rewrite !orb_true_r.
    + unfold match_digest.
      destruct (match_prefix _ (u ++ _)) as [r|] eqn:E; [|reflexivity].
      apply match_prefix_short in E; [|exact Hshort].
      rewrite string_app_assoc, digest_text_overlap in E; [discriminate| |].
      * destruct u; [congruence | simpl; lia].
      * exact Hshort.
  - intros post _. rewrite !string_app_assoc.
    now apply (match_digest_at digest_text nd _ digest_text_matches eq_refl).
Qed.

(** X20.  What [update_vbmeta_digest] writes is what a later search
    reads: when the digest that the tool prints has no double quote, the
    leftmost digest entry of the updated boot configuration is the key
    with the new digest between quotes.  Without a digest entry in the
    boot configuration the update raises [ValueError], whatever the tool
    prints. *)
Theorem update_vbmeta_digest_read_back (w : world) (a : args)
    (vbmeta_img bootconfigs : string) :
  (search_with match_digest bootconfigs = None ->
   update_vbmeta_digest w a vbmeta_img bootconfigs =
   Raise (ValueError "Failed to find androidboot.vbmeta.digest")) /\
  (forall digest updated,
     calc_vbmeta_digest w a vbmeta_img = Ok digest ->
     has_char quote digest = false ->
     update_vbmeta_digest w a vbmeta_img bootconfigs = Ok updated ->
     search_with match_digest updated =
     Some (digest_text ++ digest ++ String quote EmptyString)%string).
Proof.
  unfold update_vbmeta_digest. split.
  - now intros ->.
  - intros digest updated Hcalc Hq H.
    destruct (search_with match_digest bootconfigs) as [g|] eqn:E;
      [|discriminate].
    rewrite Hcalc in H. cbn [bind] in H. injection H as <-.
    now apply digest_read_back.
Qed.

Lemma update_vbmeta_digest_read_back_witness :
  exists updated,
    update_vbmeta_digest digest_world plain_args "vbmeta.img"
      sample_bootconfig = Ok updated /\
    search_with match_digest updated =
    Some (digest_text ++ "a1b2c3" ++ String quote EmptyString)%string.
Proof.
  eexists. split; [reflexivity|].
  exact (proj2 (update_vbmeta_digest_read_back digest_world plain_args
                  "vbmeta.img" sample_bootconfig)
           "a1b2c3" _ eq_refl eq_refl eq_refl).
Defined.

